(** * Safe file deletion: protection engine, deletion service, audit logger

    A shallow embedding of
      - [src/services/ProtectionEngine.ts]   (class [ProtectionEngineImpl]),
      - [src/services/SafeDeletionService.ts] (class [SafeDeletionServiceImpl]),
      - the audit logger (class [LoggingService]),
    and the properties of these that the specification states.

    Conventions.  JavaScript strings are modelled by [string]; every path and
    pattern is taken to be ASCII, so [String.length] is both the JavaScript
    [.length] and the UTF-8 byte length.  Paths are POSIX paths.  Mutable
    objects ([Map], arrays, the disk) are threaded explicitly: a method that
    mutates returns the new state next to its result.

    What lies outside the three classes is a parameter or a small model: the
    [minimatch] matcher, [path.relative] and [JSON.stringify] are parameters;
    the disk is a finite map from paths to nodes; the log directory is the
    list of its files in the order [readdir] gives them; the clock and the
    texts that make a file name are inputs of the call that reads them.  The
    deletions of a batch, which the service starts together, are run in the
    order of the array. *)

From Stdlib Require Import ZArith Lia Ascii String.
From stdpp Require Import gmap strings list fin_maps pretty sorting.

Local Open Scope string_scope.
Local Open Scope list_scope.

(* ===================================================================== *)
(** ** JavaScript string methods used by the services *)
(* ===================================================================== *)

Module JS.

(** [s.startsWith(pre)] *)
Fixpoint startsWith (s pre : string) {struct pre} : bool :=
  match pre, s with
  | EmptyString, _ => true
  | String _ _, EmptyString => false
  | String a pre', String b s' => if Ascii.eqb a b then startsWith s' pre' else false
  end.

(** [s.includes(sub)] *)
Fixpoint includes (s sub : string) : bool :=
  startsWith s sub
  || match s with
     | EmptyString => false
     | String _ s' => includes s' sub
     end.

(** [s.endsWith(suf)] *)
Definition endsWith (s suf : string) : bool :=
  startsWith (String.rev s) (String.rev suf).

(** [s.split('/')]: the separator-delimited fields, empty ones included;
    the empty string gives one empty field. *)
Fixpoint split_slash (s : string) : list string :=
  match s with
  | EmptyString => [EmptyString]
  | String c s' =>
      if Ascii.eqb c "/"%char then EmptyString :: split_slash s'
      else match split_slash s' with
           | seg :: rest => String c seg :: rest
           | [] => [String c EmptyString]
           end
  end.

(** [s.replace(/\/$/, '')]: one slash removed from the end, if there is one. *)
Fixpoint stripTrailingSlash (s : string) : string :=
  match s with
  | EmptyString => EmptyString
  | String c EmptyString => if Ascii.eqb c "/"%char then EmptyString else s
  | String c s' => String c (stripTrailingSlash s')
  end.

(** The text ['\n']. *)
Definition newline : string := String (Ascii.ascii_of_nat 10) EmptyString.

(** The template literal [`${n}`] for a non-negative integer. *)
Definition showNumber (n : nat) : string := pretty n.

End JS.

(* ===================================================================== *)
(** ** Node's [path] module (POSIX flavour) *)
(* ===================================================================== *)

Module NodePath.

(** [path.isAbsolute(p)] *)
Definition isAbsolute (p : string) : bool :=
  match p with
  | String c _ => Ascii.eqb c "/"%char
  | EmptyString => false
  end.

(** Characters of a reversed path: skip the trailing separators. *)
Fixpoint dropSlashes (s : string) : string :=
  match s with
  | String c s' => if Ascii.eqb c "/"%char then dropSlashes s' else s
  | EmptyString => EmptyString
  end.

(** Characters up to the first separator. *)
Fixpoint takeToSlash (s : string) : string :=
  match s with
  | String c s' => if Ascii.eqb c "/"%char then EmptyString else String c (takeToSlash s')
  | EmptyString => EmptyString
  end.

(** [path.basename(p)]: the last component, trailing separators ignored. *)
Definition basename (p : string) : string :=
  String.rev (takeToSlash (dropSlashes (String.rev p))).

End NodePath.

(* ===================================================================== *)
(** ** Configuration *)
(* ===================================================================== *)

Inductive LogLevel := LevelNone | LevelDebug | LevelInfo | LevelWarn | LevelError.

Record Configuration := {
  allowedDirectories : list string;
  protectedPatterns : list string;
  logLevel : LogLevel;
  maxBatchSize : nat;
  maxLogFileSize : option N;
  maxLogFiles : option nat
}.

(* ===================================================================== *)
(** ** Protection engine *)
(* ===================================================================== *)

(** [Array.prototype.sort(cmp)]: a stable sort; [x] stays in front of [y]
    unless [cmp x y > 0]. *)
Fixpoint insertSorted {A : Type} (cmp : A -> A -> Z) (x : A) (l : list A) : list A :=
  match l with
  | [] => [x]
  | y :: l' => if (cmp x y <=? 0)%Z then x :: l else y :: insertSorted cmp x l'
  end.

Definition jsSort {A : Type} (cmp : A -> A -> Z) (l : list A) : list A :=
  foldr (insertSorted cmp) [] l.

(** The comparator [(a, b) => b.length - a.length]. *)
Definition longerFirst (a b : string) : Z :=
  (Z.of_nat (String.length b) - Z.of_nat (String.length a))%Z.

Section ProtectionEngine.

(** The glob matcher of the [minimatch] package, an external collaborator:
    [minimatch file pattern matchBase].  The engine is generic in it. *)
Variable minimatch : string -> string -> bool -> bool.

(** Node's [path.relative(from, to)], likewise external. *)
Variable path_relative : string -> string -> string.

Variable config : Configuration.

(** The predicate [dir => filePath === dir || filePath.startsWith(dir + '/')]. *)
Definition underDirectory (filePath dir : string) : bool :=
  String.eqb filePath dir || JS.startsWith filePath (dir +:+ "/").

Definition isWithinAllowedDirectories (filePath : string) : bool :=
  existsb (underDirectory filePath) (allowedDirectories config).

Definition getMatchingAllowedDirectory (filePath : string) : option string :=
  let matches :=
    jsSort longerFirst (List.filter (underDirectory filePath) (allowedDirectories config)) in
  match matches with
  | [] => None
  | d :: _ => Some d
  end.

(** The callback given to [some] in [isProtected]: one pattern tried on the
    whole path, the basename, the path relative to its allowed directory,
    and every segment. *)
Definition matchesPattern (filePath pattern : string) : bool :=
  let normalizedPath := JS.stripTrailingSlash filePath in
  if minimatch normalizedPath pattern true then true
  else if minimatch (NodePath.basename normalizedPath) pattern false then true
  else if (if JS.includes pattern "/" || JS.includes pattern "**"
           then match getMatchingAllowedDirectory normalizedPath with
                | Some matchingDir =>
                    minimatch (path_relative matchingDir normalizedPath) pattern false
                | None => false
                end
           else false)
       then true
  else existsb (fun segment => minimatch segment pattern false)
               (JS.split_slash normalizedPath).

(** The value [isProtected] computes on a cache miss. *)
Definition evaluatePatterns (filePath : string) : bool :=
  existsb (matchesPattern filePath) (protectedPatterns config).

(** [isProtected]: the answer and the pattern cache afterwards. *)
Definition isProtected (patternCache : gmap string bool) (filePath : string)
  : bool * gmap string bool :=
  if negb (isWithinAllowedDirectories filePath) then (true, patternCache)
  else match patternCache !! filePath with
       | Some cachedResult => (cachedResult, patternCache)
       | None =>
           let result := evaluatePatterns filePath in
           (result, <[filePath := result]> patternCache)
       end.

Definition getProtectedPatterns : list string := protectedPatterns config.

(** [invalidateCache]: every entry whose key contains the changed path, or
    is contained in it, is deleted. *)
Definition staleKey (changedPath cachedPath : string) : bool :=
  JS.includes cachedPath changedPath || JS.includes changedPath cachedPath.

Definition invalidateCache (patternCache : gmap string bool) (changedPath : string)
  : gmap string bool :=
  filter (fun kv => staleKey changedPath kv.1 = false) patternCache.

(** [dispose]: [patternCache.clear()]. *)
Definition dispose (patternCache : gmap string bool) : gmap string bool := ∅.

End ProtectionEngine.

(** A matcher for the glob-free fragment of [minimatch]: a pattern without
    magic characters matches a file that equals it; with [matchBase] a
    pattern without a slash is compared with the last component. *)
Definition literalMinimatch (file pattern : string) (matchBase : bool) : bool :=
  if matchBase && negb (JS.includes pattern "/")
  then String.eqb (NodePath.basename file) pattern
  else String.eqb file pattern.

(** [path.relative] for a path below the directory: the rest after the
    separator. *)
Definition relativeBelow (from to : string) : string :=
  if JS.startsWith to (from +:+ "/")
  then String.substring (S (String.length from)) (String.length to) to
  else "".

Definition demoConfig : Configuration :=
  {| allowedDirectories := ["/tmp/proj"];
     protectedPatterns := [".git"];
     logLevel := LevelInfo;
     maxBatchSize := 2;
     maxLogFileSize := Some 1024%N;
     maxLogFiles := Some 1 |}.

(* ===================================================================== *)
(** ** Result types ([src/types/index.ts]) *)
(* ===================================================================== *)

Module ValidationResult.
Record t := { valid : bool; reason : option string; matchedDirectory : option string }.
End ValidationResult.

Module DeletionResult.
Record t := {
  success : bool;
  path : option string;
  error : option string;
  reason : option string
}.
End DeletionResult.

(** The objects [{ path, error }] and [{ path, reason }] are pairs. *)
Module BatchDeletionResult.
Record t := {
  deleted : list string;
  failed : list (string * string);
  rejected : list (string * string);
  cancelled : option bool;
  reason : option string
}.
End BatchDeletionResult.

Module BatchValidationResult.
Record t := {
  valid : bool;
  validPaths : list string;
  invalidPaths : list (string * string);
  protectedPaths : list (string * string)
}.
End BatchValidationResult.

(* ===================================================================== *)
(** ** The disk and the logger, as the deletion service sees them *)
(* ===================================================================== *)

Inductive Node := RegularFile | Directory.

(** The file system.  [entries] is what it holds, under canonical paths;
    [realpath] is how it resolves the text of a path to the canonical path of
    the entry that [unlink] and [rmdir] act on ([.], [..], doubled slashes,
    symbolic links on the way); [refuses] gives, for an entry it does not
    let go ([EACCES], [EPERM], [EBUSY], [EROFS]), the message of the error.
    [RegularFile] stands for every entry that is not a directory, a symbolic
    link that ends a path among them: [unlink] removes the link.  A path
    that leads nowhere, as a dangling link does for [existsSync], resolves
    to a path without entry.  Removing a file or an empty directory is taken
    not to change how paths resolve. *)
Record Disk := {
  entries : gmap string Node;
  realpath : string -> string;
  refuses : string -> option string
}.

(** [disk !! p]: what the disk holds where the path [p] leads. *)
#[global] Instance Disk_lookup : Lookup string Node Disk :=
  fun p disk => entries disk !! realpath disk p.

Definition withEntries (disk : Disk) (held : gmap string Node) : Disk :=
  {| entries := held; realpath := realpath disk; refuses := refuses disk |}.

(** A file system that takes every path as it is written and refuses
    nothing. *)
Definition plainDisk (held : gmap string Node) : Disk :=
  {| entries := held; realpath := fun p => p; refuses := fun _ => None |}.

(** The disk once the entry a path leads to is gone. *)
Definition removeEntry (disk : Disk) (p : string) : Disk :=
  withEntries disk (delete (realpath disk p) (entries disk)).

Definition existsSync (disk : Disk) (p : string) : bool :=
  match disk !! p with Some _ => true | None => false end.

(** [fs.unlink]: the disk afterwards, or the message of the error thrown. *)
Definition unlink (disk : Disk) (p : string) : Disk + string :=
  match disk !! p with
  | Some RegularFile =>
      match refuses disk (realpath disk p) with
      | Some message => inr message
      | None => inl (removeEntry disk p)
      end
  | Some Directory => inr ("EPERM: operation not permitted, unlink '" +:+ p +:+ "'")
  | None => inr ("ENOENT: no such file or directory, unlink '" +:+ p +:+ "'")
  end.

Definition hasChildren (disk : Disk) (p : string) : bool :=
  existsb (fun kv => JS.startsWith kv.1 (realpath disk p +:+ "/"))
          (map_to_list (entries disk)).

(** [fs.rmdir]: only an empty directory goes. *)
Definition rmdir (disk : Disk) (p : string) : Disk + string :=
  match disk !! p with
  | Some Directory =>
      if hasChildren disk p
      then inr ("ENOTEMPTY: directory not empty, rmdir '" +:+ p +:+ "'")
      else match refuses disk (realpath disk p) with
           | Some message => inr message
           | None => inl (removeEntry disk p)
           end
  | Some RegularFile => inr ("ENOTDIR: not a directory, rmdir '" +:+ p +:+ "'")
  | None => inr ("ENOENT: no such file or directory, rmdir '" +:+ p +:+ "'")
  end.

Inductive Outcome := Success | Failed | Rejected.

(** The calls the deletion service makes on its logger (none is awaited). *)
Inductive LoggerCall :=
| LogDeletion (filePath : string) (result : Outcome)
| LogError (message context : string).

(** What the deletion service can read and change. *)
Record World := {
  patternCache : gmap string bool;
  disk : Disk;
  loggerCalls : list LoggerCall
}.

Definition withCache (w : World) (c : gmap string bool) : World :=
  {| patternCache := c; disk := disk w; loggerCalls := loggerCalls w |}.

Definition withDisk (w : World) (d : Disk) : World :=
  {| patternCache := patternCache w; disk := d; loggerCalls := loggerCalls w |}.

Definition logged (w : World) (c : LoggerCall) : World :=
  {| patternCache := patternCache w; disk := disk w; loggerCalls := loggerCalls w ++ [c] |}.

(** A promise once settled, as [Promise.allSettled] reports it; a rejection
    carries the message of its reason when that is an [Error]. *)
Inductive Settled (A : Type) :=
| Fulfilled (value : A)
| RejectedPromise (reasonMessage : option string).
Arguments Fulfilled {A} value.
Arguments RejectedPromise {A} reasonMessage.

(* ===================================================================== *)
(** ** Deletion service *)
(* ===================================================================== *)

Section SafeDeletionService.

Variable minimatch : string -> string -> bool -> bool.
Variable path_relative : string -> string -> string.
Variable config : Configuration.

Definition validatePath (cache : gmap string bool) (filePath : string)
  : ValidationResult.t * gmap string bool :=
  if negb (NodePath.isAbsolute filePath) then
    ({| ValidationResult.valid := false;
        ValidationResult.reason := Some "Only absolute paths are accepted";
        ValidationResult.matchedDirectory := None |}, cache)
  else
    match getMatchingAllowedDirectory config filePath with
    | None =>
        ({| ValidationResult.valid := false;
            ValidationResult.reason := Some "Path is outside allowed directories";
            ValidationResult.matchedDirectory := None |}, cache)
    | Some matchingDirectory =>
        let '(protected, cache') :=
          isProtected minimatch path_relative config cache filePath in
        if protected then
          ({| ValidationResult.valid := false;
              ValidationResult.reason := Some "Path matches protected pattern";
              ValidationResult.matchedDirectory := None |}, cache')
        else
          ({| ValidationResult.valid := true;
              ValidationResult.reason := None;
              ValidationResult.matchedDirectory := Some matchingDirectory |}, cache')
    end.

(** The three arrays [validateBatch] fills, with the cache. *)
Record BatchAcc := {
  accValid : list string;
  accInvalid : list (string * string);
  accProtected : list (string * string);
  accCache : gmap string bool
}.

(** One turn of the loop [for (const filePath of paths)]. *)
Definition validateBatchStep (acc : BatchAcc) (filePath : string) : BatchAcc :=
  let '(validation, cache') := validatePath (accCache acc) filePath in
  if ValidationResult.valid validation then
    {| accValid := accValid acc ++ [filePath];
       accInvalid := accInvalid acc;
       accProtected := accProtected acc;
       accCache := cache' |}
  else
    match ValidationResult.reason validation with
    | Some r =>
        if JS.includes r "protected" then
          {| accValid := accValid acc;
             accInvalid := accInvalid acc;
             accProtected := accProtected acc ++ [(filePath, r)];
             accCache := cache' |}
        else
          {| accValid := accValid acc;
             accInvalid := accInvalid acc ++ [(filePath, r)];
             accProtected := accProtected acc;
             accCache := cache' |}
    | None =>
        {| accValid := accValid acc;
           accInvalid := accInvalid acc ++ [(filePath, "Invalid path")];
           accProtected := accProtected acc;
           accCache := cache' |}
    end.

Definition validateBatch (cache : gmap string bool) (paths : list string)
  : BatchValidationResult.t * gmap string bool :=
  let acc :=
    foldl validateBatchStep
      {| accValid := []; accInvalid := []; accProtected := []; accCache := cache |}
      paths in
  ({| BatchValidationResult.valid :=
        Nat.eqb (length (accProtected acc)) 0 && Nat.eqb (length (accInvalid acc)) 0;
      BatchValidationResult.validPaths := accValid acc;
      BatchValidationResult.invalidPaths := accInvalid acc;
      BatchValidationResult.protectedPaths := accProtected acc |},
   accCache acc).

(** [deleteFile] and [deleteDirectory] differ in the removal call and in two
    texts only. *)
Definition deleteWith
    (remove : Disk -> string -> Disk + string)
    (notFound context : string) (w : World) (target : string)
  : DeletionResult.t * World :=
  let '(validation, cache') := validatePath (patternCache w) target in
  let w1 := withCache w cache' in
  if negb (ValidationResult.valid validation) then
    ({| DeletionResult.success := false;
        DeletionResult.path := Some target;
        DeletionResult.error := None;
        DeletionResult.reason := ValidationResult.reason validation |},
     logged w1 (LogDeletion target Rejected))
  else if negb (existsSync (disk w1) target) then
    ({| DeletionResult.success := false;
        DeletionResult.path := Some target;
        DeletionResult.error := Some notFound;
        DeletionResult.reason := None |},
     logged w1 (LogDeletion target Failed))
  else
    match remove (disk w1) target with
    | inl disk' =>
        ({| DeletionResult.success := true;
            DeletionResult.path := Some target;
            DeletionResult.error := None;
            DeletionResult.reason := None |},
         logged (withDisk w1 disk') (LogDeletion target Success))
    | inr errorMessage =>
        ({| DeletionResult.success := false;
            DeletionResult.path := Some target;
            DeletionResult.error := Some errorMessage;
            DeletionResult.reason := None |},
         logged w1 (LogError errorMessage (context +:+ target)))
    end.

Definition deleteFile : World -> string -> DeletionResult.t * World :=
  deleteWith unlink "File not found" "deleteFile: ".

Definition deleteDirectory : World -> string -> DeletionResult.t * World :=
  deleteWith rmdir "Directory not found" "deleteDirectory: ".

(** The promises [validPaths.map(async filePath => ...)] of [deleteBatch],
    each run to its end in the order of the array.  Under
    [Promise.allSettled] every member is validated and looked up before the
    first [unlink] completes; on members that lead to different entries the
    two orders remove the same entries and settle with the same results.
    They part where two members lead to one entry (the later one is then
    refused by [unlink] instead of being reported as not found) and in the
    order of the calls to the logger. *)
Fixpoint runDeletions (w : World) (validPaths : list string)
  : list (Settled (string * DeletionResult.t)) * World :=
  match validPaths with
  | [] => ([], w)
  | filePath :: rest =>
      let '(result, w1) := deleteFile w filePath in
      let '(results, w2) := runDeletions w1 rest in
      (Fulfilled (filePath, result) :: results, w2)
  end.

(** [a ?? b ?? 'Unknown error'] *)
Definition firstDefined (a b : option string) : string :=
  match a with
  | Some x => x
  | None => match b with Some y => y | None => "Unknown error" end
  end.

(** The callback of [results.forEach((result, index) => ...)]. *)
Definition classifyStep (validPaths : list string)
    (acc : list string * list (string * string))
    (entry : nat * Settled (string * DeletionResult.t))
  : list string * list (string * string) :=
  match validPaths !! entry.1 with
  | None => acc
  | Some filePath =>
      match entry.2 with
      | Fulfilled value =>
          let deletionResult := value.2 in
          if DeletionResult.success deletionResult
          then (acc.1 ++ [filePath], acc.2)
          else (acc.1,
                acc.2 ++ [(filePath,
                           firstDefined (DeletionResult.error deletionResult)
                                        (DeletionResult.reason deletionResult))])
      | RejectedPromise reasonMessage =>
          (acc.1, acc.2 ++ [(filePath, firstDefined reasonMessage None)])
      end
  end.

Definition classify (validPaths : list string)
    (results : list (Settled (string * DeletionResult.t)))
  : list string * list (string * string) :=
  foldl (classifyStep validPaths) ([], []) (imap pair results).

Definition batchSizeReason : string :=
  "Batch size exceeds limit (" +:+ JS.showNumber (maxBatchSize config) +:+ ")".

Definition deleteBatch (w : World) (paths : list string)
  : BatchDeletionResult.t * World :=
  if Nat.ltb (maxBatchSize config) (length paths) then
    ({| BatchDeletionResult.deleted := [];
        BatchDeletionResult.failed := [];
        BatchDeletionResult.rejected := map (fun p => (p, batchSizeReason)) paths;
        BatchDeletionResult.cancelled := Some true;
        BatchDeletionResult.reason := Some "Batch size limit exceeded" |}, w)
  else
    let '(validation, cache') := validateBatch (patternCache w) paths in
    let w1 := withCache w cache' in
    if negb (BatchValidationResult.valid validation) then
      ({| BatchDeletionResult.deleted := [];
          BatchDeletionResult.failed := [];
          BatchDeletionResult.rejected :=
            BatchValidationResult.invalidPaths validation
            ++ BatchValidationResult.protectedPaths validation;
          BatchDeletionResult.cancelled := Some true;
          BatchDeletionResult.reason := Some "Batch contains protected or invalid paths" |},
       w1)
    else
      let '(results, w2) := runDeletions w1 (BatchValidationResult.validPaths validation) in
      let '(deleted, failed) :=
        classify (BatchValidationResult.validPaths validation) results in
      ({| BatchDeletionResult.deleted := deleted;
          BatchDeletionResult.failed := failed;
          BatchDeletionResult.rejected := [];
          BatchDeletionResult.cancelled := None;
          BatchDeletionResult.reason := None |}, w2).

End SafeDeletionService.

(* ===================================================================== *)
(** ** Audit logger *)
(* ===================================================================== *)

Inductive Operation := OpDelete | OpListProtected | OpGetAllowed.

Module AuditLog.
Record t := {
  timestamp : string;
  operation : Operation;
  paths : option (list string);
  result : Outcome;
  reason : option string;
  requestId : string
}.
End AuditLog.

(** A file of the log directory.  [unlinkable] tells whether [fs.unlink]
    succeeds on it. *)
Record LogFile := {
  fileName : string;
  mtime : nat;
  content : string;
  unlinkable : bool
}.

(** The fields of the service object.  [currentLogFile] is kept as the file's
    name inside the log directory, the empty string while there is none;
    [logFileHandle] is never assigned in the class and stays [null]. *)
Record LoggingService := {
  inMemoryLogs : list AuditLog.t;
  currentLogFile : string;
  currentLogFileSize : N
}.

(** What a call reads from its surroundings: the clock, and the timestamp and
    the random text of the file name made on initialisation or rotation. *)
Record Env := {
  now : nat;
  initTimestamp : string;
  initRandom : string;
  rotateTimestamp : string;
  rotateRandom : string
}.

(** [`safe-deletion-${timestamp}-${random}.log`] *)
Definition logFileName (timestamp random : string) : string :=
  "safe-deletion-" +:+ timestamp +:+ "-" +:+ random +:+ ".log".

(** [file.startsWith('safe-deletion-') && file.endsWith('.log')] *)
Definition isLogFileName (file : string) : bool :=
  JS.startsWith file "safe-deletion-" && JS.endsWith file ".log".

Definition findFile (files : list LogFile) (name : string) : option LogFile :=
  List.find (fun f => String.eqb (fileName f) name) files.

(** [fs.appendFile(file, data)] in the log directory ([None]: the directory
    does not exist): the directory afterwards, or [None] when it throws. *)
Definition appendFile (dir : option (list LogFile)) (name data : string) (clock : nat)
  : option (option (list LogFile)) :=
  if String.eqb name "" then None
  else match dir with
       | None => None
       | Some files =>
           match findFile files name with
           | Some _ =>
               Some (Some (map (fun f =>
                   if String.eqb (fileName f) name
                   then {| fileName := fileName f; mtime := clock;
                           content := content f +:+ data; unlinkable := unlinkable f |}
                   else f) files))
           | None =>
               Some (Some (files ++ [{| fileName := name; mtime := clock;
                                        content := data; unlinkable := true |}]))
           end
       end.

(** One turn of the loop over [filesToRemove]: a failing [unlink] is caught. *)
Definition unlinkLog (files : list LogFile) (file : LogFile) : list LogFile :=
  if unlinkable file
  then List.filter (fun f => negb (String.eqb (fileName f) (fileName file))) files
  else files.

(** The comparator [(a, b) => a.stats.mtime.getTime() - b.stats.mtime.getTime()]. *)
Definition olderFirst (a b : LogFile) : Z := (Z.of_nat (mtime a) - Z.of_nat (mtime b))%Z.

Definition levelIndex (l : LogLevel) : Z :=
  match l with
  | LevelDebug => 0
  | LevelInfo => 1
  | LevelWarn => 2
  | LevelError => 3
  | LevelNone => -1
  end.

Section LoggingService.

(** [JSON.stringify] of an entry whose timestamp is in ISO form. *)
Variable JSON_stringify : AuditLog.t -> string.
Variable config : Configuration.

Definition initializeLogDirectory (env : Env)
    (st : LoggingService * option (list LogFile))
  : LoggingService * option (list LogFile) :=
  let files := default [] st.2 in
  let name := logFileName (initTimestamp env) (initRandom env) in
  ({| inMemoryLogs := inMemoryLogs st.1;
      currentLogFile := name;
      currentLogFileSize :=
        match findFile files name with
        | Some f => N.of_nat (String.length (content f))
        | None => 0%N
        end |},
   Some files).

(** The constructor, with the initialisation it starts run to its end. *)
Definition newLoggingService (env : Env) (dir : option (list LogFile))
  : LoggingService * option (list LogFile) :=
  let fresh := {| inMemoryLogs := []; currentLogFile := ""; currentLogFileSize := 0%N |} in
  match logLevel config with
  | LevelNone => (fresh, dir)
  | _ => initializeLogDirectory env (fresh, dir)
  end.

Definition entryLevelIndex (logEntry : AuditLog.t) : Z :=
  match AuditLog.result logEntry with
  | Failed => 3
  | Rejected => 2
  | Success =>
      match AuditLog.reason logEntry with
      | Some r => if JS.startsWith r "DEBUG:" then 0 else 1
      | None => 1
      end
  end.

Definition shouldLog (logEntry : AuditLog.t) : bool :=
  (levelIndex (logLevel config) <=? entryLevelIndex logEntry)%Z.

Definition shouldRotateLog (svc : LoggingService) (entrySize : N) : bool :=
  let maxSize := default (10 * 1024 * 1024)%N (maxLogFileSize config) in
  (maxSize <? currentLogFileSize svc + entrySize)%N.

Definition cleanupOldLogFiles (dir : option (list LogFile)) : option (list LogFile) :=
  let maxFiles := default 5 (maxLogFiles config) in
  match dir with
  | None => None
  | Some files =>
      let logFiles := List.filter (fun f => isLogFileName (fileName f)) files in
      if Nat.leb (length logFiles) maxFiles then dir
      else
        let fileStats := jsSort olderFirst logFiles in
        let filesToRemove := take (length fileStats - maxFiles) fileStats in
        Some (foldl unlinkLog files filesToRemove)
  end.

Definition rotateLogFile (env : Env) (st : LoggingService * option (list LogFile))
  : LoggingService * option (list LogFile) :=
  if String.eqb (currentLogFile st.1) "" then st
  else
    ({| inMemoryLogs := inMemoryLogs st.1;
        currentLogFile := logFileName (rotateTimestamp env) (rotateRandom env);
        currentLogFileSize := 0%N |},
     cleanupOldLogFiles st.2).

Definition writeToFile (env : Env) (st : LoggingService * option (list LogFile))
    (logEntry : AuditLog.t)
  : LoggingService * option (list LogFile) :=
  let st1 := if String.eqb (currentLogFile st.1) "" then initializeLogDirectory env st
             else st in
  let entryWithNewline := JSON_stringify logEntry +:+ JS.newline in
  let entrySize := N.of_nat (String.length entryWithNewline) in
  let st2 := if shouldRotateLog st1.1 entrySize then rotateLogFile env st1 else st1 in
  match appendFile st2.2 (currentLogFile st2.1) entryWithNewline (now env) with
  | Some dir' =>
      ({| inMemoryLogs := inMemoryLogs st2.1;
          currentLogFile := currentLogFile st2.1;
          currentLogFileSize := (currentLogFileSize st2.1 + entrySize)%N |}, dir')
  | None => st2
  end.

Definition writeLogEntry (env : Env) (st : LoggingService * option (list LogFile))
    (logEntry : AuditLog.t)
  : LoggingService * option (list LogFile) :=
  match logLevel config with
  | LevelNone => st
  | _ =>
      if negb (shouldLog logEntry) then st
      else
        let pushed := inMemoryLogs st.1 ++ [logEntry] in
        let kept := if Nat.ltb 1000 (length pushed) then drop (length pushed - 1000) pushed
                    else pushed in
        writeToFile env
          ({| inMemoryLogs := kept;
              currentLogFile := currentLogFile st.1;
              currentLogFileSize := currentLogFileSize st.1 |}, st.2)
          logEntry
  end.

Definition logDeletion (env : Env) (timestamp requestId : string)
    (st : LoggingService * option (list LogFile))
    (filePath : string) (result : Outcome) (reason : option string)
  : LoggingService * option (list LogFile) :=
  writeLogEntry env st
    {| AuditLog.timestamp := timestamp;
       AuditLog.operation := OpDelete;
       AuditLog.paths := Some [filePath];
       AuditLog.result := result;
       AuditLog.reason := reason;
       AuditLog.requestId := requestId |}.

Definition logDebug (env : Env) (timestamp requestId : string)
    (st : LoggingService * option (list LogFile)) (message : string)
  : LoggingService * option (list LogFile) :=
  match logLevel config with
  | LevelDebug =>
      writeLogEntry env st
        {| AuditLog.timestamp := timestamp;
           AuditLog.operation := OpGetAllowed;
           AuditLog.paths := None;
           AuditLog.result := Success;
           AuditLog.reason := Some ("DEBUG: " +:+ message);
           AuditLog.requestId := requestId |}
  | _ => st
  end.

(** [getRecentLogs(limit)]: [slice(-limit).reverse()]; [slice(-0)] is
    [slice(0)], the whole array. *)
Definition getRecentLogs (svc : LoggingService) (limit : nat) : list AuditLog.t :=
  match limit with
  | 0 => reverse (inMemoryLogs svc)
  | S _ => reverse (drop (length (inMemoryLogs svc) - limit) (inMemoryLogs svc))
  end.

End LoggingService.

(** The number of log files of a directory. *)
Definition countLogFiles (dir : option (list LogFile)) : nat :=
  length (List.filter (fun f => isLogFileName (fileName f)) (default [] dir)).

(* ===================================================================== *)
(** ** A write, await by await *)
(* ===================================================================== *)

(** [writeToFile] is an async function: it runs until it awaits an operation
    of the file system and goes on when that operation completes.  A call
    that its caller awaits runs from its start to its end with no other call
    in between, which is what [writeToFile] above computes; calls that are
    not awaited ([void this.logger.logDeletion(...)] in the deletion service)
    are in flight together, and each runs between the steps of the others.
    [Pending] is where a call is stopped: at the [mkdir] or the [stat] of
    [initializeLogDirectory], at the [readdir], the [stat]s or an [unlink] of
    [cleanupOldLogFiles], at the [appendFile], or nowhere any more. *)
Inductive Pending :=
| AwaitMkdir
| AwaitInitStat
| AwaitReaddir
| AwaitStats (logFiles : list string)
| AwaitUnlink (file : LogFile) (rest : list LogFile)
| AwaitAppend (file : string)
| Finished.

(** [Promise.all(logFiles.map(file => fs.stat(file.path)))]: every file as
    the directory has it now, or nothing when one of them is gone. *)
Fixpoint statAll (files : list LogFile) (names : list string) : option (list LogFile) :=
  match names with
  | [] => Some []
  | name :: rest =>
      match findFile files name, statAll files rest with
      | Some f, Some stats => Some (f :: stats)
      | _, _ => None
      end
  end.

Section WriteSteps.

Variable JSON_stringify : AuditLog.t -> string.
Variable config : Configuration.

(** From the test of the size to the next await: a rotation sets the new
    name and the counter and goes to the [readdir] of the cleanup; otherwise
    the append is issued on the current file. *)
Definition proceed (env : Env) (st : LoggingService * option (list LogFile))
    (logEntry : AuditLog.t)
  : (LoggingService * option (list LogFile)) * Pending :=
  let entryWithNewline := JSON_stringify logEntry +:+ JS.newline in
  let entrySize := N.of_nat (String.length entryWithNewline) in
  if shouldRotateLog config st.1 entrySize then
    if String.eqb (currentLogFile st.1) "" then (st, AwaitAppend (currentLogFile st.1))
    else
      (({| inMemoryLogs := inMemoryLogs st.1;
           currentLogFile := logFileName (rotateTimestamp env) (rotateRandom env);
           currentLogFileSize := 0%N |}, st.2),
       AwaitReaddir)
  else (st, AwaitAppend (currentLogFile st.1)).

(** The call, up to its first await. *)
Definition begin (env : Env) (st : LoggingService * option (list LogFile))
    (logEntry : AuditLog.t)
  : (LoggingService * option (list LogFile)) * Pending :=
  if String.eqb (currentLogFile st.1) "" then (st, AwaitMkdir)
  else proceed env st logEntry.

(** The awaited operation completes, on the directory as it is then, and the
    call runs to its next await. *)
Definition resume (env : Env) (st : LoggingService * option (list LogFile))
    (logEntry : AuditLog.t) (pending : Pending)
  : (LoggingService * option (list LogFile)) * Pending :=
  let maxFiles := default 5 (maxLogFiles config) in
  match pending with
  | AwaitMkdir =>
      (({| inMemoryLogs := inMemoryLogs st.1;
           currentLogFile := logFileName (initTimestamp env) (initRandom env);
           currentLogFileSize := currentLogFileSize st.1 |},
        Some (default [] st.2)),
       AwaitInitStat)
  | AwaitInitStat =>
      proceed env
        ({| inMemoryLogs := inMemoryLogs st.1;
            currentLogFile := currentLogFile st.1;
            currentLogFileSize :=
              match findFile (default [] st.2) (currentLogFile st.1) with
              | Some f => N.of_nat (String.length (content f))
              | None => 0%N
              end |}, st.2)
        logEntry
  | AwaitReaddir =>
      match st.2 with
      | None => (st, AwaitAppend (currentLogFile st.1))
      | Some files =>
          let logFiles := List.filter (fun f => isLogFileName (fileName f)) files in
          if Nat.leb (length logFiles) maxFiles
          then (st, AwaitAppend (currentLogFile st.1))
          else (st, AwaitStats (map fileName logFiles))
      end
  | AwaitStats logFiles =>
      match statAll (default [] st.2) logFiles with
      | None => (st, AwaitAppend (currentLogFile st.1))
      | Some stats =>
          let fileStats := jsSort olderFirst stats in
          match take (length fileStats - maxFiles) fileStats with
          | [] => (st, AwaitAppend (currentLogFile st.1))
          | file :: rest => (st, AwaitUnlink file rest)
          end
      end
  | AwaitUnlink file rest =>
      let dir' := option_map (fun files => unlinkLog files file) st.2 in
      match rest with
      | [] => ((st.1, dir'), AwaitAppend (currentLogFile st.1))
      | next :: rest' => ((st.1, dir'), AwaitUnlink next rest')
      end
  | AwaitAppend file =>
      let entryWithNewline := JSON_stringify logEntry +:+ JS.newline in
      let entrySize := N.of_nat (String.length entryWithNewline) in
      match appendFile st.2 file entryWithNewline (now env) with
      | Some dir' =>
          (({| inMemoryLogs := inMemoryLogs st.1;
               currentLogFile := currentLogFile st.1;
               currentLogFileSize := (currentLogFileSize st.1 + entrySize)%N |}, dir'),
           Finished)
      | None => (st, Finished)
      end
  | Finished => (st, Finished)
  end.

(** A call run on from where it is stopped with no other call in between,
    one awaited operation per unit of fuel. *)
Fixpoint complete (fuel : nat) (env : Env) (st : LoggingService * option (list LogFile))
    (logEntry : AuditLog.t) (pending : Pending)
  : option (LoggingService * option (list LogFile)) :=
  match pending with
  | Finished => Some st
  | _ =>
      match fuel with
      | 0 => None
      | S fuel' =>
          complete fuel' env (resume env st logEntry pending).1 logEntry
                   (resume env st logEntry pending).2
      end
  end.

Definition writeAlone (fuel : nat) (env : Env)
    (st : LoggingService * option (list LogFile)) (logEntry : AuditLog.t)
  : option (LoggingService * option (list LogFile)) :=
  complete fuel env (begin env st logEntry).1 logEntry (begin env st logEntry).2.

(** Calls in flight, each with the entry it writes.  A schedule names, turn
    by turn, the call whose awaited operation completes, and when. *)
Fixpoint interleave (st : LoggingService * option (list LogFile))
    (inFlight : list (AuditLog.t * Pending)) (schedule : list (nat * Env))
  : (LoggingService * option (list LogFile)) * list (AuditLog.t * Pending) :=
  match schedule with
  | [] => (st, inFlight)
  | (i, env) :: later =>
      match inFlight !! i with
      | Some (logEntry, pending) =>
          interleave (resume env st logEntry pending).1
                     (<[i := (logEntry, (resume env st logEntry pending).2)]> inFlight)
                     later
      | None => interleave st inFlight later
      end
  end.

(** Calls made one after the other before any awaited operation completes. *)
Fixpoint beginAll (env : Env) (st : LoggingService * option (list LogFile))
    (logEntries : list AuditLog.t)
  : (LoggingService * option (list LogFile)) * list (AuditLog.t * Pending) :=
  match logEntries with
  | [] => (st, [])
  | logEntry :: later =>
      let started := begin env st logEntry in
      let others := beginAll env started.1 later in
      (others.1, (logEntry, started.2) :: others.2)
  end.

(** The appends of a list of entries, each awaited before the next. *)
Definition appendAll (st : LoggingService * option (list LogFile))
    (writes : list (Env * AuditLog.t))
  : LoggingService * option (list LogFile) :=
  foldl (fun st write => writeToFile JSON_stringify config write.1 st write.2) st writes.

End WriteSteps.

(* ===================================================================== *)
(** ** Notions used in the statements *)
(* ===================================================================== *)

(** A matcher treats [pattern] as [minimatch] treats a pattern without
    slashes and magic characters: with [matchBase] it is compared with the
    last component of the file, without it a file that holds no slash
    matches when it equals the pattern. *)
Definition matchesLiterally (minimatch : string -> string -> bool -> bool)
    (pattern : string) : Prop :=
  (forall file, minimatch file pattern true = String.eqb (NodePath.basename file) pattern)
  /\ (forall file, JS.includes file "/" = false ->
                   minimatch file pattern false = String.eqb file pattern).

(** The invariant of the pattern cache: keys lie within the allowed
    directories and values are what the patterns give on the key. *)
Definition cacheCoherent (minimatch : string -> string -> bool -> bool)
    (path_relative : string -> string -> string) (config : Configuration)
    (cache : gmap string bool) : Prop :=
  forall key value,
    cache !! key = Some value ->
    isWithinAllowedDirectories config key = true
    /\ value = evaluatePatterns minimatch path_relative config key.

(** [p] is [d] or continues [d] after a slash. *)
Definition within (p d : string) : Prop :=
  p = d \/ exists rest, p = d +:+ "/" +:+ rest.

(** The configuration of the scenario: one allowed directory, one pattern. *)
Definition scenarioConfig (level : LogLevel) (batch : nat) (size : option N)
    (files : option nat) : Configuration :=
  {| allowedDirectories := ["/tmp/proj"];
     protectedPatterns := [".git"];
     logLevel := level;
     maxBatchSize := batch;
     maxLogFileSize := size;
     maxLogFiles := files |}.

(** Two caches that make [isProtected] answer alike. *)
Definition sameVerdicts (minimatch : string -> string -> bool -> bool)
    (path_relative : string -> string -> string) (config : Configuration)
    (c c' : gmap string bool) : Prop :=
  forall q, (isProtected minimatch path_relative config c' q).1
            = (isProtected minimatch path_relative config c q).1.

(** The verdict of a failed check. *)
Definition rejection (text : string) : ValidationResult.t :=
  {| ValidationResult.valid := false;
     ValidationResult.reason := Some text;
     ValidationResult.matchedDirectory := None |}.

Definition protectionReason : string := "Path matches protected pattern".

(** A failed verdict whose reason is the protection one. *)
Definition rejectedForProtection (v : ValidationResult.t) : bool :=
  negb (ValidationResult.valid v)
  && match ValidationResult.reason v with
     | Some r => String.eqb r protectionReason
     | None => false
     end.

(** Any other failed verdict. *)
Definition rejectedOtherwise (v : ValidationResult.t) : bool :=
  negb (ValidationResult.valid v) && negb (rejectedForProtection v).

Definition reasonText (v : ValidationResult.t) : string :=
  default "Invalid path" (ValidationResult.reason v).

(** The results of the deletions of a batch, next to their paths. *)
Fixpoint deletionResults (minimatch : string -> string -> bool -> bool)
    (path_relative : string -> string -> string) (config : Configuration)
    (w : World) (validPaths : list string) : list (string * DeletionResult.t) :=
  match validPaths with
  | [] => []
  | q :: rest =>
      (q, (deleteFile minimatch path_relative config w q).1)
      :: deletionResults minimatch path_relative config
           (deleteFile minimatch path_relative config w q).2 rest
  end.

(** The result of a deletion whose target is not on the disk. *)
Definition notFoundResult (target text : string) : DeletionResult.t :=
  {| DeletionResult.success := false;
     DeletionResult.path := Some target;
     DeletionResult.error := Some text;
     DeletionResult.reason := None |}.

(** A logger state whose directory exists once a file has been chosen. *)
Definition usable (st : LoggingService * option (list LogFile)) : Prop :=
  currentLogFile st.1 = "" \/ st.2 <> None.

(** The line of the entry ends the active file. *)
Definition writtenToFile (JSON_stringify : AuditLog.t -> string)
    (st : LoggingService * option (list LogFile)) (logEntry : AuditLog.t) : Prop :=
  exists files f before,
    st.2 = Some files
    /\ findFile files (currentLogFile st.1) = Some f
    /\ content f = before +:+ (JSON_stringify logEntry +:+ JS.newline).

(** The file an append creates. *)
Definition createdFile (name data : string) (clock : nat) : LogFile :=
  {| fileName := name; mtime := clock; content := data; unlinkable := true |}.

Definition isLogFile (f : LogFile) : bool := isLogFileName (fileName f).

(** Some file of [removing] that can be unlinked has the name of [f]. *)
Definition removedBy (removing : list LogFile) (f : LogFile) : bool :=
  existsb (fun r => unlinkable r && String.eqb (fileName f) (fileName r)) removing.

(** A run of the logger over two lifetimes of the service, with a maximum of
    1024 bytes a file and one retained file; every line has 602 bytes. *)
Fixpoint filler (n : nat) : string :=
  match n with
  | 0 => ""
  | S n' => String "x" (filler n')
  end.

Definition runConfig : Configuration :=
  {| allowedDirectories := ["/tmp/proj"];
     protectedPatterns := [".git"];
     logLevel := LevelInfo;
     maxBatchSize := 100;
     maxLogFileSize := Some 1024%N;
     maxLogFiles := Some 1 |}.

Definition runStringify (logEntry : AuditLog.t) : string :=
  filler 597 +:+ AuditLog.requestId logEntry.

Definition runEntry (requestId : string) : AuditLog.t :=
  {| AuditLog.timestamp := "2026-01-01T00:00:00.000Z";
     AuditLog.operation := OpDelete;
     AuditLog.paths := Some ["/tmp/proj/a.txt"];
     AuditLog.result := Success;
     AuditLog.reason := None;
     AuditLog.requestId := requestId |}.

Definition runEnv (clock : nat) (stamp : string) : Env :=
  {| now := clock;
     initTimestamp := stamp; initRandom := "init00";
     rotateTimestamp := stamp; rotateRandom := "rot000" |}.

(** The first service starts on an empty directory and logs twice; the second
    write rotates. *)
Definition firstLifetime : LoggingService * option (list LogFile) :=
  let st0 := newLoggingService runConfig (runEnv 1 "T1") (Some []) in
  let st1 := writeLogEntry runStringify runConfig (runEnv 2 "T2") st0 (runEntry "r-01") in
  writeLogEntry runStringify runConfig (runEnv 3 "T3") st1 (runEntry "r-02").

(** A second service starts on the directory the first one left and logs
    once. *)
Definition secondLifetime : LoggingService * option (list LogFile) :=
  let st0 := newLoggingService runConfig (runEnv 4 "T4") firstLifetime.2 in
  writeLogEntry runStringify runConfig (runEnv 5 "T5") st0 (runEntry "r-03").

(** An entry tagged as a debug message. *)
Definition debugEntry : AuditLog.t :=
  {| AuditLog.timestamp := "2026-01-01T00:00:00.000Z";
     AuditLog.operation := OpGetAllowed;
     AuditLog.paths := None;
     AuditLog.result := Success;
     AuditLog.reason := Some "DEBUG: cache cleared";
     AuditLog.requestId := "r-00" |}.

(** A log directory of two files, the active one nearly full. *)
Definition fullDirectory : list LogFile :=
  [ {| fileName := "safe-deletion-T1-init00.log"; mtime := 1;
       content := filler 900; unlinkable := true |};
    {| fileName := "safe-deletion-T2-rot000.log"; mtime := 2;
       content := filler 1000; unlinkable := true |} ].

Definition fullService : LoggingService :=
  {| inMemoryLogs := [];
     currentLogFile := "safe-deletion-T2-rot000.log";
     currentLogFileSize := 1000%N |}.

(* ===================================================================== *)
(** ** The rest of the protection engine *)
(* ===================================================================== *)

(** [validateAllowedDirectories]: the loop that pushes every configured
    directory [existsSync] finds. *)
Definition validateAllowedDirectories (config : Configuration)
    (disk : Disk) : list string :=
  foldl (fun validDirectories dir =>
           if existsSync disk dir then validDirectories ++ [dir] else validDirectories)
        [] (allowedDirectories config).

(* ===================================================================== *)
(** ** The rest of the audit logger *)
(* ===================================================================== *)

(** [array.join(separator)] *)
Fixpoint joinWith (separator : string) (l : list string) : string :=
  match l with
  | [] => ""
  | [x] => x
  | x :: rest => x +:+ separator +:+ joinWith separator rest
  end.

(** The text of a log level in a template literal. *)
Definition showLevel (l : LogLevel) : string :=
  match l with
  | LevelNone => "none"
  | LevelDebug => "debug"
  | LevelInfo => "info"
  | LevelWarn => "warn"
  | LevelError => "error"
  end.

(** A JavaScript [Error]: its name, its message, its stack if it has one,
    and its [code] if it has one that is a string. *)
Record JsError := {
  errorName : string;
  errorMessage : string;
  errorStack : option string;
  errorCode : option string
}.

(** The entry a logging method builds; the timestamp and the request
    identifier come from the clock and from [uuidv4]. *)
Definition auditEntry (timestamp requestId : string) (operation : Operation)
    (paths : option (list string)) (result : Outcome) (reason : option string)
  : AuditLog.t :=
  {| AuditLog.timestamp := timestamp;
     AuditLog.operation := operation;
     AuditLog.paths := paths;
     AuditLog.result := result;
     AuditLog.reason := reason;
     AuditLog.requestId := requestId |}.

Definition logOperation (JSON_stringify : AuditLog.t -> string) (config : Configuration)
    (env : Env) (timestamp requestId : string)
    (st : LoggingService * option (list LogFile))
    (operation : Operation) (result : Outcome) (paths : option (list string))
    (reason : option string)
  : LoggingService * option (list LogFile) :=
  writeLogEntry JSON_stringify config env st
    (auditEntry timestamp requestId operation paths result reason).

(** The reason [logError] writes: the stack is added at level debug only,
    and only when there is one that is not empty. *)
Definition errorReason (config : Configuration) (error : JsError) (context : string)
  : string :=
  let includeStack :=
    match logLevel config with LevelDebug => true | _ => false end in
  match errorStack error with
  | Some stack =>
      if includeStack && negb (String.eqb stack "")
      then context +:+ ": " +:+ errorMessage error +:+ JS.newline +:+ stack
      else context +:+ ": " +:+ errorMessage error
  | None => context +:+ ": " +:+ errorMessage error
  end.

Definition logError (JSON_stringify : AuditLog.t -> string) (config : Configuration)
    (env : Env) (timestamp requestId : string)
    (st : LoggingService * option (list LogFile))
    (error : JsError) (context : string)
  : LoggingService * option (list LogFile) :=
  writeLogEntry JSON_stringify config env st
    (auditEntry timestamp requestId OpDelete None Failed
       (Some (errorReason config error context))).

(** [configDetails] of [logServerStart], for the configuration passed in. *)
Definition configDetails (started : Configuration) : string :=
  joinWith JS.newline
    [ "Server started with configuration:";
      "- Allowed directories: " +:+ joinWith ", " (allowedDirectories started);
      "- Protected patterns: " +:+ joinWith ", " (protectedPatterns started);
      "- Log level: " +:+ showLevel (logLevel started);
      "- Max batch size: " +:+ JS.showNumber (maxBatchSize started) ].

Definition logServerStart (JSON_stringify : AuditLog.t -> string) (config : Configuration)
    (env : Env) (timestamp requestId : string)
    (st : LoggingService * option (list LogFile)) (started : Configuration)
  : LoggingService * option (list LogFile) :=
  writeLogEntry JSON_stringify config env st
    (auditEntry timestamp requestId OpGetAllowed None Success
       (Some (configDetails started))).

(** The counter of the service is the size of the active file (zero when
    the file is not there yet). *)
Definition counterAgrees (st : LoggingService * option (list LogFile)) : Prop :=
  currentLogFileSize st.1
  = match findFile (default [] st.2) (currentLogFile st.1) with
    | Some f => N.of_nat (String.length (content f))
    | None => 0%N
    end.

(** The service after [push] and [splice] in [writeLogEntry]. *)
Definition remember (svc : LoggingService) (logEntry : AuditLog.t) : LoggingService :=
  let pushed := inMemoryLogs svc ++ [logEntry] in
  {| inMemoryLogs := if Nat.ltb 1000 (length pushed)
                     then drop (length pushed - 1000) pushed else pushed;
     currentLogFile := currentLogFile svc;
     currentLogFileSize := currentLogFileSize svc |}.

(** The state [writeToFile] appends to: after the initialisation it may
    run, and after the rotation it may run. *)
Definition afterInit (config : Configuration) (env : Env)
    (st : LoggingService * option (list LogFile))
  : LoggingService * option (list LogFile) :=
  if String.eqb (currentLogFile st.1) "" then initializeLogDirectory env st else st.

Definition afterRotation (config : Configuration) (env : Env)
    (st : LoggingService * option (list LogFile)) (entrySize : N)
  : LoggingService * option (list LogFile) :=
  if shouldRotateLog config (afterInit config env st).1 entrySize
  then rotateLogFile config env (afterInit config env st)
  else afterInit config env st.

(** The line of an entry and its size in bytes. *)
Definition lineOf (JSON_stringify : AuditLog.t -> string) (logEntry : AuditLog.t)
  : string := JSON_stringify logEntry +:+ JS.newline.

Definition sizeOf (JSON_stringify : AuditLog.t -> string) (logEntry : AuditLog.t) : N :=
  N.of_nat (String.length (lineOf JSON_stringify logEntry)).

(* ===================================================================== *)
(** ** The delete tool ([src/services/tools/DeleteToolHandler.ts]) *)
(* ===================================================================== *)

(** A call [logDeletion(filePath, result, reason)] the handler awaits on the
    logging service.  The service never throws: [writeToFile] catches what
    its file operations throw. *)
Record DeletionLog := {
  loggedPath : string;
  loggedResult : Outcome;
  loggedReason : option string
}.

(** [`${value}`] of a value that may be [undefined]. *)
Definition interpolate (value : option string) : string := default "undefined" value.

Module DeleteToolHandler.

Section Handler.

Variable minimatch : string -> string -> bool -> bool.
Variable path_relative : string -> string -> string.
Variable config : Configuration.

(** The array [summary] of the batch branch. *)
Definition summary (result : BatchDeletionResult.t) : list string :=
  [ "Batch deletion completed:";
    "- Successfully deleted: "
      +:+ JS.showNumber (length (BatchDeletionResult.deleted result)) +:+ " files";
    "- Failed: "
      +:+ JS.showNumber (length (BatchDeletionResult.failed result)) +:+ " files";
    "- Rejected: "
      +:+ JS.showNumber (length (BatchDeletionResult.rejected result)) +:+ " files" ]
  ++ match BatchDeletionResult.cancelled result with
     | Some true =>
         [ "- Operation cancelled: "
             +:+ default "Unknown reason" (BatchDeletionResult.reason result) ]
     | _ => []
     end.

(** [`- ${f.path}: ${f.error}`] and [`- ${r.path}: ${r.reason}`] *)
Definition listed (entry : string * string) : string :=
  "- " +:+ entry.1 +:+ ": " +:+ entry.2.

(** The text [details] of the batch branch. *)
Definition details (result : BatchDeletionResult.t) : string :=
  (if Nat.ltb 0 (length (BatchDeletionResult.failed result))
   then JS.newline +:+ JS.newline +:+ "Failed files:" +:+ JS.newline
        +:+ joinWith JS.newline (map listed (BatchDeletionResult.failed result))
   else "")
  +:+ (if Nat.ltb 0 (length (BatchDeletionResult.rejected result))
       then JS.newline +:+ JS.newline +:+ "Rejected files:" +:+ JS.newline
            +:+ joinWith JS.newline (map listed (BatchDeletionResult.rejected result))
       else "").

(** The calls of the three loops over [deleted], [failed] and [rejected]. *)
Definition batchLogs (result : BatchDeletionResult.t) : list DeletionLog :=
  map (fun p => {| loggedPath := p; loggedResult := Success; loggedReason := None |})
      (BatchDeletionResult.deleted result)
  ++ map (fun f => {| loggedPath := f.1; loggedResult := Failed;
                      loggedReason := Some f.2 |})
         (BatchDeletionResult.failed result)
  ++ map (fun r => {| loggedPath := r.1; loggedResult := Rejected;
                      loggedReason := Some r.2 |})
         (BatchDeletionResult.rejected result).

(** [handle({ paths })]: the text of the response, the calls awaited on the
    logging service, and the world afterwards. *)
Definition handle (w : World) (paths : list string)
  : string * list DeletionLog * World :=
  match paths with
  | [firstPath] =>
      let '(result, w1) := deleteFile minimatch path_relative config w firstPath in
      if DeletionResult.success result then
        ("Successfully deleted: " +:+ interpolate (DeletionResult.path result),
         [ {| loggedPath := default "" (DeletionResult.path result);
              loggedResult := Success;
              loggedReason := None |} ],
         w1)
      else
        let reason :=
          firstDefined (DeletionResult.error result) (DeletionResult.reason result) in
        let status :=
          match DeletionResult.reason result with
          | Some _ => Rejected
          | None => Failed
          end in
        ("Failed to delete " +:+ interpolate (DeletionResult.path result)
           +:+ ": " +:+ reason,
         [ {| loggedPath := default "" (DeletionResult.path result);
              loggedResult := status;
              loggedReason := Some reason |} ],
         w1)
  | _ =>
      let '(result, w1) := deleteBatch minimatch path_relative config w paths in
      (joinWith JS.newline (summary result) +:+ details result, batchLogs result, w1)
  end.

End Handler.

End DeleteToolHandler.

(* ===================================================================== *)
(** ** Error classification ([ErrorHandlerImpl]) *)
(* ===================================================================== *)

Inductive ErrorType :=
| VALIDATION_ERROR
| PERMISSION_DENIED
| FILE_NOT_FOUND
| PROTECTION_VIOLATION
| SYSTEM_ERROR.

Module SafeDeletionError.
Record t := {
  type : ErrorType;
  message : string;
  path : option string;
  cause : option JsError
}.
End SafeDeletionError.

Definition classifySystemError (error : JsError) (path : string) : SafeDeletionError.t :=
  if JS.includes (errorMessage error) "ENOENT" || String.eqb (errorName error) "ENOENT"
  then {| SafeDeletionError.type := FILE_NOT_FOUND;
          SafeDeletionError.message := "File not found: " +:+ path;
          SafeDeletionError.path := Some path;
          SafeDeletionError.cause := Some error |}
  else if JS.includes (errorMessage error) "EACCES" || String.eqb (errorName error) "EACCES"
  then {| SafeDeletionError.type := PERMISSION_DENIED;
          SafeDeletionError.message := "Permission denied: Cannot access " +:+ path;
          SafeDeletionError.path := Some path;
          SafeDeletionError.cause := Some error |}
  else if JS.includes (errorMessage error) "EPERM" || String.eqb (errorName error) "EPERM"
  then {| SafeDeletionError.type := PERMISSION_DENIED;
          SafeDeletionError.message := "Operation not permitted: Cannot modify " +:+ path;
          SafeDeletionError.path := Some path;
          SafeDeletionError.cause := Some error |}
  else {| SafeDeletionError.type := SYSTEM_ERROR;
          SafeDeletionError.message :=
            "System error during operation on " +:+ path +:+ ": " +:+ errorMessage error;
          SafeDeletionError.path := Some path;
          SafeDeletionError.cause := Some error |}.

(** [(error.path !== undefined && error.path !== '') ? shown : ''] *)
Definition whenPath (path : option string) (shown : string -> string) : string :=
  match path with
  | Some p => if negb (String.eqb p "") then shown p else ""
  | None => ""
  end.

Definition generateUserMessage (error : SafeDeletionError.t) : string :=
  match SafeDeletionError.type error with
  | VALIDATION_ERROR =>
      "Invalid request: " +:+ SafeDeletionError.message error
        +:+ whenPath (SafeDeletionError.path error) (fun p => " (" +:+ p +:+ ")")
  | PERMISSION_DENIED =>
      "Access denied: " +:+ default "Unknown path" (SafeDeletionError.path error)
        +:+ " cannot be accessed due to insufficient permissions."
  | FILE_NOT_FOUND =>
      "File not found: " +:+ default "Unknown path" (SafeDeletionError.path error)
        +:+ " does not exist or cannot be located."
  | PROTECTION_VIOLATION =>
      "Protected file: " +:+ default "Unknown path" (SafeDeletionError.path error)
        +:+ " cannot be deleted because it matches a protected pattern."
  | SYSTEM_ERROR =>
      "System error: Operation failed"
        +:+ whenPath (SafeDeletionError.path error) (fun p => " on " +:+ p)
        +:+ ". " +:+ SafeDeletionError.message error
  end.

(* ===================================================================== *)
(** ** Retries and batch summaries ([ComprehensiveErrorHandler]) *)
(* ===================================================================== *)

(** What a call of the operation throws: an [Error], or another value, of
    which the handler makes [new Error(String(value))]; the engine gives that
    error its stack. *)
Inductive Thrown :=
| ThrownError (error : JsError)
| ThrownValue (text : string) (stack : option string).

(** [error instanceof Error ? error : new Error(String(error))] *)
Definition asError (thrown : Thrown) : JsError :=
  match thrown with
  | ThrownError error => error
  | ThrownValue text stack =>
      {| errorName := "Error"; errorMessage := text; errorStack := stack;
         errorCode := None |}
  end.

(** The [code] of what was thrown, when it is an [Error] with a string code. *)
Definition codeOf (thrown : Thrown) : option string :=
  match thrown with
  | ThrownError error => errorCode error
  | ThrownValue _ _ => None
  end.

Definition transientErrorCodes : list string :=
  ["EBUSY"; "EAGAIN"; "EWOULDBLOCK"; "ETIMEDOUT"].

Definition isTransientError (errorCode : string) : bool :=
  existsb (String.eqb errorCode) transientErrorCodes.

(** [maxRetries] and [retryDelay] are integers here. *)
Record RetryOptions := {
  maxRetries : Z;
  retryDelay : Z
}.

Module RetryResult.
Record t (T : Type) := {
  success : bool;
  result : option T;
  error : option SafeDeletionError.t
}.
Arguments success {T} _.
Arguments result {T} _.
Arguments error {T} _.
End RetryResult.

(** A run of [executeWithRetry]: what it returns, the calls [logError(error,
    context)] it awaited, and how often it called the operation. *)
Record RetryRun (T : Type) := {
  returned : RetryResult.t T;
  retryLogs : list (JsError * string);
  calls : nat
}.
Arguments returned {T} _.
Arguments retryLogs {T} _.
Arguments calls {T} _.

(** [new Error('Unknown error')]; the stack the engine gives it is left
    out. *)
Definition unknownError : JsError :=
  {| errorName := "Error"; errorMessage := "Unknown error";
     errorStack := None; errorCode := None |}.

Section ExecuteWithRetry.

Context {T : Type}.

(** The operation is a closure: its [n]-th call (from 0) returns a value or
    throws. *)
Variable operation : nat -> T + Thrown.
Variable path : string.
Variable options : RetryOptions.

(** [`Retry attempt ${attempt}/${options.maxRetries} for ${path}`] *)
Definition retryContext (attempt : Z) : string :=
  "Retry attempt " +:+ pretty attempt +:+ "/" +:+ pretty (maxRetries options)
    +:+ " for " +:+ path.

(** The statements after the loop. *)
Definition exhausted (lastError : option JsError) (logs : list (JsError * string))
    (called : nat) : RetryRun T :=
  {| returned :=
       {| RetryResult.success := false;
          RetryResult.result := None;
          RetryResult.error :=
            Some (classifySystemError (default unknownError lastError) path) |};
     retryLogs := logs;
     calls := called |}.

(** The loop [while (attempt <= options.maxRetries)], one turn per unit of
    fuel. *)
Fixpoint retryLoop (fuel : nat) (attempt : Z) (lastError : option JsError)
    (logs : list (JsError * string)) (called : nat) : option (RetryRun T) :=
  match fuel with
  | 0 => None
  | S fuel' =>
      if (attempt <=? maxRetries options)%Z then
        match operation called with
        | inl value =>
            Some {| returned := {| RetryResult.success := true;
                                   RetryResult.result := Some value;
                                   RetryResult.error := None |};
                    retryLogs := logs;
                    calls := S called |}
        | inr thrown =>
            let lastError' := asError thrown in
            if match codeOf thrown with
               | Some errorCode => negb (isTransientError errorCode)
               | None => false
               end
               || (maxRetries options <=? attempt)%Z
            then Some (exhausted (Some lastError') logs (S called))
            else
              let attempt' := (attempt + 1)%Z in
              retryLoop fuel' attempt' (Some lastError')
                (logs ++ [(lastError', retryContext attempt')]) (S called)
        end
      else Some (exhausted lastError logs called)
  end.

Definition executeWithRetry (fuel : nat) : option (RetryRun T) :=
  retryLoop fuel 0%Z None [] 0.

End ExecuteWithRetry.

Definition ErrorType_eqb (a b : ErrorType) : bool :=
  match a, b with
  | VALIDATION_ERROR, VALIDATION_ERROR
  | PERMISSION_DENIED, PERMISSION_DENIED
  | FILE_NOT_FOUND, FILE_NOT_FOUND
  | PROTECTION_VIOLATION, PROTECTION_VIOLATION
  | SYSTEM_ERROR, SYSTEM_ERROR => true
  | _, _ => false
  end.

(** [errorsByType] is an object with one array for each error type. *)
Module BatchErrorSummary.
Record t := {
  partialSuccess : bool;
  successfulOperations : nat;
  failedOperations : nat;
  errorsByType : ErrorType -> list SafeDeletionError.t
}.
End BatchErrorSummary.

Definition handleBatchErrors (errors : list SafeDeletionError.t) : BatchErrorSummary.t :=
  let errorsByType :=
    foldl (fun (groups : ErrorType -> list SafeDeletionError.t) error =>
             fun key => if ErrorType_eqb key (SafeDeletionError.type error)
                        then groups key ++ [error]
                        else groups key)
          (fun _ => []) errors in
  {| BatchErrorSummary.partialSuccess := Nat.ltb 0 (length errors);
     BatchErrorSummary.successfulOperations := 0;
     BatchErrorSummary.failedOperations := length errors;
     BatchErrorSummary.errorsByType := errorsByType |}.

(* ===================================================================== *)
(** ** Loading the configuration ([src/loader/loadConfig.ts]) *)
(* ===================================================================== *)

Module CLIArguments.
Record t := {
  allowedDirectories : option (list string);
  protectedPatterns : option (list string);
  configFile : option string;
  logLevel : option LogLevel
}.
End CLIArguments.

Module FileConfig.
Record t := {
  allowedDirectories : option (list string);
  protectedPatterns : option (list string);
  logLevel : option LogLevel;
  maxBatchSize : option nat;
  maxLogFileSize : option N;
  maxLogFiles : option nat
}.
End FileConfig.

(** [Partial<Configuration>] *)
Module PartialConfiguration.
Record t := {
  allowedDirectories : option (list string);
  protectedPatterns : option (list string);
  logLevel : option LogLevel;
  maxBatchSize : option nat;
  maxLogFileSize : option N;
  maxLogFiles : option nat
}.
End PartialConfiguration.

Definition DEFAULT_CONFIG : PartialConfiguration.t :=
  {| PartialConfiguration.allowedDirectories := Some [];
     PartialConfiguration.protectedPatterns := Some [".git"; "node_modules"; ".env*"];
     PartialConfiguration.logLevel := Some LevelInfo;
     PartialConfiguration.maxBatchSize := Some 100;
     PartialConfiguration.maxLogFileSize := Some 10485760%N;
     PartialConfiguration.maxLogFiles := Some 10 |}.

(** [chosen && chosen.length > 0 ? chosen : otherwise] *)
Definition nonEmptyOr {A : Type} (chosen : option (list A)) (otherwise : list A) : list A :=
  match chosen with
  | Some (x :: rest) => x :: rest
  | _ => otherwise
  end.

Section LoadConfig.

(** [path.resolve(dir)], which resolves against the working directory, as
    [path.resolve(process.cwd(), dir)] does. *)
Variable path_resolve : string -> string.

Definition normalizeDirectories (directories : list string) : list string :=
  map (fun dir => if NodePath.isAbsolute dir then dir else path_resolve dir) directories.

Definition mergeConfigurations (cli : CLIArguments.t) (file : FileConfig.t)
    (defaults : PartialConfiguration.t) : Configuration :=
  let allowedDirectories :=
    map path_resolve
        (nonEmptyOr (CLIArguments.allowedDirectories cli)
                    (default [] (FileConfig.allowedDirectories file))) in
  let protectedPatterns :=
    nonEmptyOr (CLIArguments.protectedPatterns cli)
      (default (default [] (PartialConfiguration.protectedPatterns defaults))
               (FileConfig.protectedPatterns file)) in
  let logLevel :=
    default (default (default LevelNone (PartialConfiguration.logLevel defaults))
                     (FileConfig.logLevel file))
            (CLIArguments.logLevel cli) in
  let maxBatchSize :=
    default (default 100 (PartialConfiguration.maxBatchSize defaults))
            (FileConfig.maxBatchSize file) in
  let maxLogFileSize :=
    match FileConfig.maxLogFileSize file with
    | Some size => Some size
    | None => PartialConfiguration.maxLogFileSize defaults
    end in
  let maxLogFiles :=
    match FileConfig.maxLogFiles file with
    | Some count => Some count
    | None => PartialConfiguration.maxLogFiles defaults
    end in
  {| allowedDirectories := normalizeDirectories allowedDirectories;
     protectedPatterns := protectedPatterns;
     logLevel := logLevel;
     maxBatchSize := maxBatchSize;
     maxLogFileSize := maxLogFileSize;
     maxLogFiles := maxLogFiles |}.

(** [loadConfig(args)], given what [loadConfigFile(args.configFile)] came to
    (a file configuration, or the message of the error it threw): the merged
    configuration, or the message of the error thrown.  The log directory the
    provider adds is not part of [Configuration] here. *)
Definition loadConfig (args : CLIArguments.t) (loaded : FileConfig.t + string)
    (disk : Disk) : Configuration + string :=
  match loaded with
  | inr thrown => inr thrown
  | inl fileConfig =>
      let mergedConfig := mergeConfigurations args fileConfig DEFAULT_CONFIG in
      if Nat.eqb (length (allowedDirectories mergedConfig)) 0
      then inr "At least one allowed directory must be specified"
      else
        match List.find (fun dir => negb (existsSync disk dir))
                        (allowedDirectories mergedConfig) with
        | Some dir => inr ("Allowed directory does not exist: " +:+ dir)
        | None => inl mergedConfig
        end
  end.

End LoadConfig.

(** The number of calls that report a given outcome. *)
Definition Outcome_eqb (a b : Outcome) : bool :=
  match a, b with
  | Success, Success | Failed, Failed | Rejected, Rejected => true
  | _, _ => false
  end.

Definition countLogged (outcome : Outcome) (logs : list DeletionLog) : nat :=
  length (List.filter (fun call => Outcome_eqb (loggedResult call) outcome) logs).

(** [error.message.includes(code) || error.name === code] *)
Definition mentions (error : JsError) (code : string) : bool :=
  JS.includes (errorMessage error) code || String.eqb (errorName error) code.

(** What was thrown lets the loop of [executeWithRetry] go on: it has no
    string code, or a transient one. *)
Definition retryable (thrown : Thrown) : bool :=
  match codeOf thrown with
  | Some errorCode => isTransientError errorCode
  | None => true
  end.

(** The two results [executeWithRetry] resolves to. *)
Definition succeeded {T : Type} (value : T) : RetryResult.t T :=
  {| RetryResult.success := true;
     RetryResult.result := Some value;
     RetryResult.error := None |}.

Definition gaveUp {T : Type} (error : JsError) (path : string) : RetryResult.t T :=
  {| RetryResult.success := false;
     RetryResult.result := None;
     RetryResult.error := Some (classifySystemError error path) |}.

(** An operation that finds its target busy twice and then returns. *)
Definition busyTwice (n : nat) : nat + Thrown :=
  if Nat.ltb n 2
  then inr (ThrownError {| errorName := "Error";
                           errorMessage := "EBUSY: resource busy or locked";
                           errorStack := None;
                           errorCode := Some "EBUSY" |})
  else inl 7.

(** A world with one file below the allowed directory of [demoConfig]. *)
Definition oneFileWorld : World :=
  {| patternCache := ∅;
     disk := plainDisk {[ "/tmp/proj/a" := RegularFile ]};
     loggerCalls := [] |}.

(** [path.resolve] for a working directory [/home/u] and paths without dots
    or doubled slashes. *)
Definition resolveFromHome (dir : string) : string :=
  if NodePath.isAbsolute dir then dir else "/home/u/" +:+ dir.

(* ===================================================================== *)
(** ** Notions for the retention of log files and for overlapping writes *)
(* ===================================================================== *)

(** No name is held twice, and every log file can be removed. *)
Definition orderly (dir : option (list LogFile)) : Prop :=
  NoDup (map fileName (default [] dir))
  /\ forall f, In f (default [] dir) -> isLogFile f = true -> unlinkable f = true.

(** The service has a current file, and the directory holds it. *)
Definition activePresent (st : LoggingService * option (list LogFile)) : bool :=
  negb (String.eqb (currentLogFile st.1) "")
  && match findFile (default [] st.2) (currentLogFile st.1) with
     | Some _ => true
     | None => false
     end.

(** The bound on the log files: the configured number and the active file,
    which counts also while it is still to be created. *)
Definition retained (config : Configuration)
    (st : LoggingService * option (list LogFile)) : Prop :=
  countLogFiles st.2 + (if activePresent st then 0 else 1)
  <= default 5 (maxLogFiles config) + 1.

(** The appends of calls that are stopped at [appendFile] on one file,
    completing one after the other. *)
Definition completeAppends (JSON_stringify : AuditLog.t -> string) (config : Configuration)
    (env : Env) (name : string) (st : LoggingService * option (list LogFile))
    (logEntries : list AuditLog.t) : LoggingService * option (list LogFile) :=
  foldl (fun st logEntry =>
           (resume JSON_stringify config env st logEntry (AwaitAppend name)).1)
        st logEntries.

(** The lines of a list of entries, one after the other, and their size. *)
Definition linesOf (JSON_stringify : AuditLog.t -> string) (logEntries : list AuditLog.t)
  : string :=
  foldr (fun logEntry later => lineOf JSON_stringify logEntry +:+ later) "" logEntries.

Definition sizesOf (JSON_stringify : AuditLog.t -> string) (logEntries : list AuditLog.t)
  : N :=
  foldr (fun logEntry later => (sizeOf JSON_stringify logEntry + later)%N) 0%N logEntries.

(** Three calls made on a started service before any append completes; the
    appends then complete in turn. *)
Definition overlappedWrites
  : (LoggingService * option (list LogFile)) * list (AuditLog.t * Pending) :=
  let st0 := newLoggingService runConfig (runEnv 1 "T1") (Some []) in
  let started :=
    beginAll runStringify runConfig (runEnv 2 "T2") st0
             [runEntry "r-01"; runEntry "r-02"; runEntry "r-03"] in
  interleave runStringify runConfig started.1 started.2
             [(0, runEnv 3 "T3"); (1, runEnv 4 "T4"); (2, runEnv 5 "T5")].

(** Lines of 1105 bytes, more than a file of [runConfig] is to hold. *)
Definition wideStringify (logEntry : AuditLog.t) : string :=
  filler 1100 +:+ AuditLog.requestId logEntry.

(** A call made at [env], run on to the [appendFile] it issues. *)
Definition issueAppend (env : Env) (st : LoggingService * option (list LogFile))
    (logEntry : AuditLog.t)
  : (LoggingService * option (list LogFile)) * Pending :=
  let called := begin wideStringify runConfig env st logEntry in
  resume wideStringify runConfig env called.1 logEntry called.2.

(** Three calls on a service that started on an empty directory, each made
    while the appends of the earlier ones are still to complete; the appends
    then complete in turn. *)
Definition overlappedRotations
  : (LoggingService * option (list LogFile)) * list Pending :=
  let st0 := newLoggingService runConfig (runEnv 1 "T1") (Some []) in
  let first := issueAppend (runEnv 2 "T2") st0 (runEntry "r-01") in
  let second := issueAppend (runEnv 3 "T3") first.1 (runEntry "r-02") in
  let third := issueAppend (runEnv 4 "T4") second.1 (runEntry "r-03") in
  let done1 :=
    resume wideStringify runConfig (runEnv 5 "T5") third.1 (runEntry "r-01") first.2 in
  let done2 :=
    resume wideStringify runConfig (runEnv 6 "T6") done1.1 (runEntry "r-02") second.2 in
  let done3 :=
    resume wideStringify runConfig (runEnv 7 "T7") done2.1 (runEntry "r-03") third.2 in
  (done3.1, [first.2; second.2; third.2; done1.2; done2.2; done3.2]).

(** A service that starts on one log file, which cannot be removed, and logs
    twice; the second write rotates. *)
Definition stubbornLifetime : LoggingService * option (list LogFile) :=
  appendAll runStringify runConfig
    (newLoggingService runConfig (runEnv 4 "T4")
       (Some [ {| fileName := "safe-deletion-T1-init00.log"; mtime := 1;
                  content := filler 900; unlinkable := false |} ]))
    [(runEnv 5 "T5", runEntry "r-01"); (runEnv 6 "T6", runEntry "r-02")].

(** A rotation on [fullDirectory] that draws the name of the active file
    again. *)
Definition repeatedName : LoggingService * option (list LogFile) :=
  writeToFile runStringify runConfig (runEnv 9 "T2")
    (fullService, Some fullDirectory) (runEntry "r-09").

(* ===================================================================== *)
(** ** File systems for the scenarios *)
(* ===================================================================== *)

(** The resolution of an absolute path without symbolic links: empty and
    [.] segments are dropped, [..] takes back the segment before it. *)
Definition normalizeStep (stack : list string) (segment : string) : list string :=
  if String.eqb segment "" || String.eqb segment "." then stack
  else if String.eqb segment ".." then removelast stack
  else stack ++ [segment].

Definition normalizeAbsolute (p : string) : string :=
  "/" +:+ joinWith "/" (foldl normalizeStep [] (JS.split_slash p)).

Definition posixDisk (held : gmap string Node) : Disk :=
  {| entries := held; realpath := normalizeAbsolute; refuses := fun _ => None |}.

(** A file system that does not let go of one entry. *)
Definition guardedDisk (held : gmap string Node) (guarded message : string) : Disk :=
  {| entries := held;
     realpath := fun p => p;
     refuses := fun key => if String.eqb key guarded then Some message else None |}.

(* ===================================================================== *)
(** * Properties *)
(* ===================================================================== *)

(** ** Strings *)

Local Arguments Ascii.eqb : simpl never.

Lemma string_app_cons (x : ascii) (a b : string) :
  String x a +:+ b = String x (a +:+ b).
Proof. reflexivity. Qed.

Lemma startsWith_spec (s pre : string) :
  JS.startsWith s pre = true <-> exists rest, s = pre +:+ rest.
Proof.
  revert s. induction pre as [|a pre IH]; intros s; simpl.
  - split; [intros _; now exists s | reflexivity].
  - destruct s as [|b s].
    + split; [discriminate | intros [rest H]; discriminate].
    + destruct (Ascii.eqb_spec a b) as [->|Hne].
      * rewrite IH. split; intros [rest H]; exists rest.
        -- now rewrite string_app_cons, H.
        -- rewrite string_app_cons in H. now injection H.
      * split; [discriminate|].
        intros [rest H]. rewrite string_app_cons in H. injection H. congruence.
Qed.

Lemma string_app_assoc (a b c : string) : (a +:+ b) +:+ c = a +:+ (b +:+ c).
Proof.
  induction a as [|x a IH]; [reflexivity|].
  rewrite !string_app_cons. now rewrite IH.
Qed.

Lemma string_app_length (a b : string) :
  String.length (a +:+ b) = String.length a + String.length b.
Proof.
  induction a as [|x a IH]; [reflexivity|].
  rewrite string_app_cons. simpl. now rewrite IH.
Qed.

Lemma underDirectory_spec (p d : string) :
  underDirectory p d = true <-> within p d.
Proof.
  unfold underDirectory, within. rewrite orb_true_iff, String.eqb_eq, startsWith_spec.
  split; (intros [H|[rest H]]; [now left | right; exists rest]).
  - now rewrite H, string_app_assoc.
  - now rewrite H, string_app_assoc.
Qed.

Lemma includes_slash_cons (c : ascii) (s : string) :
  JS.includes (String c s) "/" = Ascii.eqb "/" c || JS.includes s "/".
Proof. simpl. now destruct (Ascii.eqb "/" c). Qed.

Lemma split_slash_nonempty (s : string) : JS.split_slash s <> [].
Proof.
  induction s as [|c s IH]; simpl; [discriminate|].
  destruct (Ascii.eqb c "/"); [discriminate|].
  destruct (JS.split_slash s); discriminate.
Qed.

Lemma split_slash_no_slash (s seg : string) :
  In seg (JS.split_slash s) -> JS.includes seg "/" = false.
Proof.
  revert seg. induction s as [|c s IH]; intros seg; simpl.
  - intros [<-|[]]. reflexivity.
  - destruct (Ascii.eqb_spec c "/"%char) as [->|Hc].
    + intros [<-|H]; [reflexivity | now apply IH].
    + destruct (JS.split_slash s) as [|seg0 rest] eqn:E.
      * now destruct (split_slash_nonempty s).
      * intros [<-|H].
        -- rewrite includes_slash_cons, (IH seg0) by now left.
           rewrite orb_false_r. apply Ascii.eqb_neq. congruence.
        -- apply IH. now right.
Qed.

Lemma takeToSlash_no_slash (s : string) (acc : string) :
  JS.includes acc "/" = false ->
  JS.includes (String.rev_app (NodePath.takeToSlash s) acc) "/" = false.
Proof.
  revert acc. induction s as [|c s IH]; intros acc Hacc; simpl; [exact Hacc|].
  destruct (Ascii.eqb_spec c "/"%char) as [->|Hc]; simpl; [exact Hacc|].
  apply IH. rewrite includes_slash_cons, Hacc, orb_false_r.
  apply Ascii.eqb_neq. congruence.
Qed.

Lemma basename_no_slash (p : string) : JS.includes (NodePath.basename p) "/" = false.
Proof. unfold NodePath.basename, String.rev. now apply takeToSlash_no_slash. Qed.

(** ** The stable sort *)

Section SortByKey.

Context {A : Type} (cmp : A -> A -> Z) (key : A -> Z).
Hypothesis cmp_key : forall a b, cmp a b = (key a - key b)%Z.

Let le (a b : A) : Prop := (key a <= key b)%Z.

Lemma insertSorted_perm (x : A) (l : list A) : insertSorted cmp x l ≡ₚ x :: l.
Proof.
  induction l as [|y l IH]; simpl; [done|].
  destruct (cmp x y <=? 0)%Z; [done|].
  rewrite IH. apply Permutation_swap.
Qed.

Lemma jsSort_perm (l : list A) : jsSort cmp l ≡ₚ l.
Proof.
  induction l as [|x l IH]; simpl; [done|].
  fold (jsSort cmp l). now rewrite insertSorted_perm, IH.
Qed.

Lemma insertSorted_sorted (x : A) (l : list A) :
  StronglySorted le l -> StronglySorted le (insertSorted cmp x l).
Proof.
  induction 1 as [|y l Hs IH Hall]; simpl.
  - repeat constructor.
  - destruct (Z.leb_spec (cmp x y) 0) as [Hle|Hgt].
    + rewrite cmp_key in Hle. constructor; [now constructor|].
      constructor; [unfold le; lia|].
      eapply Forall_impl; [exact Hall|]. unfold le. intros z Hz. simpl in Hz. lia.
    + rewrite cmp_key in Hgt. constructor; [exact IH|].
      rewrite insertSorted_perm. constructor; [unfold le; lia | exact Hall].
Qed.

Lemma jsSort_sorted (l : list A) : StronglySorted le (jsSort cmp l).
Proof.
  induction l as [|x l IH]; simpl; [constructor|].
  now apply insertSorted_sorted.
Qed.

Lemma jsSort_head_least (l : list A) (x : A) (rest : list A) :
  jsSort cmp l = x :: rest -> forall y, In y l -> (key x <= key y)%Z.
Proof.
  intros E y Hy. pose proof (jsSort_sorted l) as Hs. rewrite E in Hs.
  assert (Hin : y ∈ x :: rest).
  { rewrite <- E, jsSort_perm. now apply list_elem_of_In. }
  apply StronglySorted_inv in Hs as [_ Hall].
  apply elem_of_cons in Hin as [->|Hin]; [lia|].
  rewrite Forall_forall in Hall. now apply Hall.
Qed.

Lemma jsSort_take_drop (l : list A) (k : nat) (r f : A) :
  r ∈ take k (jsSort cmp l) -> f ∈ drop k (jsSort cmp l) -> (key r <= key f)%Z.
Proof.
  pose proof (jsSort_sorted l) as Hs. revert k.
  induction Hs as [|y s Hs IH Hall]; intros k Hr Hf.
  - rewrite take_nil in Hr. now apply elem_of_nil in Hr.
  - destruct k as [|k]; simpl in *; [now apply elem_of_nil in Hr|].
    apply elem_of_cons in Hr as [->|Hr]; [|now apply (IH k)].
    rewrite Forall_forall in Hall. apply Hall.
    eapply subseteq_drop. exact Hf.
Qed.

End SortByKey.

Lemma longerFirst_key (a b : string) :
  longerFirst a b = (- Z.of_nat (String.length a) - - Z.of_nat (String.length b))%Z.
Proof. unfold longerFirst. lia. Qed.

Lemma olderFirst_key (a b : LogFile) :
  olderFirst a b = (Z.of_nat (mtime a) - Z.of_nat (mtime b))%Z.
Proof. reflexivity. Qed.

(** ** Protection engine: scope *)

Lemma isWithin_spec (config : Configuration) (p : string) :
  isWithinAllowedDirectories config p = true <->
  exists d, In d (allowedDirectories config) /\ within p d.
Proof.
  unfold isWithinAllowedDirectories. rewrite existsb_exists.
  split; intros [d [Hd H]]; exists d; split; try assumption;
    now apply underDirectory_spec.
Qed.

Lemma getMatching_Some (config : Configuration) (p d : string) :
  getMatchingAllowedDirectory config p = Some d ->
  In d (allowedDirectories config) /\ within p d
  /\ forall d', In d' (allowedDirectories config) -> within p d' ->
                String.length d' <= String.length d.
Proof.
  unfold getMatchingAllowedDirectory.
  destruct (jsSort longerFirst _) as [|x rest] eqn:E; [discriminate|].
  intros [= ->].
  assert (Hd : In d (List.filter (underDirectory p) (allowedDirectories config))).
  { apply list_elem_of_In. rewrite <- (jsSort_perm longerFirst), E. left. }
  apply filter_In in Hd as [Hd Hu].
  split; [exact Hd|]. split; [now apply underDirectory_spec|].
  intros d' Hd' Hw.
  pose proof (jsSort_head_least longerFirst _ longerFirst_key _ _ _ E d') as Hk.
  simpl in Hk. enough (- Z.of_nat (String.length d) <= - Z.of_nat (String.length d'))%Z by lia.
  apply Hk. apply filter_In. split; [exact Hd'|]. now apply underDirectory_spec.
Qed.

Lemma getMatching_None (config : Configuration) (p : string) :
  getMatchingAllowedDirectory config p = None <->
  isWithinAllowedDirectories config p = false.
Proof.
  unfold getMatchingAllowedDirectory, isWithinAllowedDirectories.
  destruct (jsSort longerFirst _) as [|x rest] eqn:E.
  - split; [intros _|reflexivity].
    apply not_true_is_false. rewrite existsb_exists. intros [d [Hd Hu]].
    assert (Hin : d ∈ jsSort longerFirst
                    (List.filter (underDirectory p) (allowedDirectories config))).
    { rewrite jsSort_perm. apply list_elem_of_In, filter_In. now split. }
    rewrite E in Hin. now apply elem_of_nil in Hin.
  - split; [discriminate|]. intros Hf. exfalso.
    assert (Hx : In x (List.filter (underDirectory p) (allowedDirectories config))).
    { apply list_elem_of_In. rewrite <- (jsSort_perm longerFirst), E. left. }
    apply filter_In in Hx as [Hx Hu].
    apply not_true_iff_false in Hf. apply Hf, existsb_exists. now exists x.
Qed.

(** C6.  [isWithinAllowedDirectories p] holds exactly when some allowed
    directory is [p] or is continued by [p] after a slash, so that ["/a/b"]
    admits ["/a/b"] and ["/a/b/c"] and not ["/a/bc"];
    [getMatchingAllowedDirectory p] is such a directory of greatest length
    when there is one and [null] otherwise, which gives a nested allowed
    directory precedence over its ancestor. *)
Theorem allowed_directory_matching (config : Configuration) (p : string) :
  (isWithinAllowedDirectories config p = true <->
   exists d, In d (allowedDirectories config) /\ within p d)
  /\ match getMatchingAllowedDirectory config p with
     | Some d =>
         In d (allowedDirectories config) /\ within p d
         /\ forall d', In d' (allowedDirectories config) -> within p d' ->
                       String.length d' <= String.length d
     | None =>
         forall d, In d (allowedDirectories config) -> ~ within p d
     end
  /\ (underDirectory "/a/b" "/a/b" = true
      /\ underDirectory "/a/b/c" "/a/b" = true
      /\ underDirectory "/a/bc" "/a/b" = false)
  /\ forall level batch size files,
       getMatchingAllowedDirectory
         {| allowedDirectories := ["/a"; "/a/b"]; protectedPatterns := [];
            logLevel := level; maxBatchSize := batch;
            maxLogFileSize := size; maxLogFiles := files |} "/a/b/c"
       = Some "/a/b".
Proof.
  split; [apply isWithin_spec|]. split; [|split; [now repeat split | reflexivity]].
  destruct (getMatchingAllowedDirectory config p) as [d|] eqn:E.
  - now apply getMatching_Some.
  - intros d Hd Hw. apply getMatching_None in E.
    apply not_true_iff_false in E. apply E, isWithin_spec. now exists d.
Qed.

(** ** Protection engine: decisions *)

Section EngineFacts.

Variable minimatch : string -> string -> bool -> bool.
Variable path_relative : string -> string -> string.
Variable config : Configuration.

Local Abbreviation protectedIn := (isProtected minimatch path_relative config).
Local Abbreviation freshlyEvaluated := (evaluatePatterns minimatch path_relative config).
Local Abbreviation coherent := (cacheCoherent minimatch path_relative config).

Lemma isProtected_outside (cache : gmap string bool) (p : string) :
  isWithinAllowedDirectories config p = false -> protectedIn cache p = (true, cache).
Proof. unfold isProtected. now intros ->. Qed.

Lemma isProtected_fresh (p : string) :
  (protectedIn ∅ p).1 =
  if isWithinAllowedDirectories config p then freshlyEvaluated p else true.
Proof.
  unfold isProtected.
  destruct (isWithinAllowedDirectories config p); simpl; [|reflexivity].
  now rewrite lookup_empty.
Qed.

(** A call never changes what a later call answers. *)
Lemma isProtected_stable (cache : gmap string bool) (p q : string) :
  (protectedIn (protectedIn cache p).2 q).1 = (protectedIn cache q).1.
Proof.
  unfold isProtected at 2.
  destruct (isWithinAllowedDirectories config p); simpl; [|reflexivity].
  destruct (cache !! p) as [v|] eqn:Ep; simpl; [reflexivity|].
  unfold isProtected.
  destruct (isWithinAllowedDirectories config q); simpl; [|reflexivity].
  destruct (decide (p = q)) as [->|Hne].
  - now rewrite lookup_insert_eq, Ep.
  - rewrite lookup_insert_ne by exact Hne. now destruct (cache !! q).
Qed.

Lemma isProtected_coherent (cache : gmap string bool) (p : string) :
  coherent cache ->
  coherent (protectedIn cache p).2
  /\ (protectedIn cache p).1 = (protectedIn ∅ p).1.
Proof.
  intros Hc. rewrite isProtected_fresh. unfold isProtected.
  destruct (isWithinAllowedDirectories config p) eqn:Hw; simpl; [|now split].
  destruct (cache !! p) as [v|] eqn:Ep; simpl.
  - split; [exact Hc|]. now destruct (Hc p v Ep).
  - split; [|reflexivity]. intros k v.
    destruct (decide (p = k)) as [->|Hne].
    + rewrite lookup_insert_eq. now intros [= <-].
    + rewrite lookup_insert_ne by exact Hne. apply Hc.
Qed.

Lemma invalidateCache_coherent (cache : gmap string bool) (changedPath : string) :
  coherent cache -> coherent (invalidateCache cache changedPath).
Proof.
  intros Hc k v. unfold invalidateCache. rewrite map_lookup_filter_Some.
  intros [Hk _]. now apply Hc.
Qed.

End EngineFacts.

Lemma existsb_ext_in {A : Type} (f g : A -> bool) (l : list A) :
  (forall x, In x l -> f x = g x) -> existsb f l = existsb g l.
Proof.
  induction l as [|x l IH]; intros H; simpl; [reflexivity|].
  rewrite (H x) by now left. rewrite IH; [reflexivity|].
  intros y Hy. apply H. now right.
Qed.

(** On a literal pattern the four attempts of [isProtected] come down to two
    comparisons: the last component, and each segment. *)
Lemma matchesPattern_literal (minimatch : string -> string -> bool -> bool)
    (path_relative : string -> string -> string) (config : Configuration)
    (p pattern : string) :
  matchesLiterally minimatch pattern ->
  JS.includes pattern "/" = false ->
  JS.includes pattern "**" = false ->
  matchesPattern minimatch path_relative config p pattern
  = String.eqb (NodePath.basename (JS.stripTrailingSlash p)) pattern
    || existsb (fun segment => String.eqb segment pattern)
               (JS.split_slash (JS.stripTrailingSlash p)).
Proof.
  intros [Hbase Hplain] Hslash Hstar. unfold matchesPattern.
  rewrite Hbase, Hslash, Hstar. simpl.
  rewrite (Hplain (NodePath.basename _)) by apply basename_no_slash.
  rewrite (existsb_ext_in _ (fun segment => String.eqb segment pattern)).
  - now destruct (String.eqb (NodePath.basename _) pattern).
  - intros seg Hseg. apply Hplain. eapply split_slash_no_slash, Hseg.
Qed.

Lemma literalMinimatch_literally (pattern : string) :
  JS.includes pattern "/" = false -> matchesLiterally literalMinimatch pattern.
Proof.
  intros Hp. unfold matchesLiterally, literalMinimatch. rewrite Hp. now split.
Qed.

(** C1.  A path within no allowed directory is protected whatever the
    patterns are, and the cache is left alone.  With the allowed directory
    ["/tmp/proj"] and the pattern [".git"], and a matcher that treats that
    pattern literally, a fresh engine protects ["/etc/passwd"] and
    ["/tmp/proj/.git/config"] and does not protect ["/tmp/proj/readme.md"]. *)
Theorem isProtected_fail_closed (minimatch : string -> string -> bool -> bool)
    (path_relative : string -> string -> string) :
  (forall config cache p,
      (forall d, In d (allowedDirectories config) -> ~ within p d) ->
      isProtected minimatch path_relative config cache p = (true, cache))
  /\ (matchesLiterally minimatch ".git" ->
      forall level batch size files,
        let config := scenarioConfig level batch size files in
        (isProtected minimatch path_relative config ∅ "/etc/passwd").1 = true
        /\ (isProtected minimatch path_relative config ∅ "/tmp/proj/.git/config").1 = true
        /\ (isProtected minimatch path_relative config ∅ "/tmp/proj/readme.md").1 = false).
Proof.
  split.
  - intros config cache p Hout. apply isProtected_outside.
    apply not_true_is_false. rewrite isWithin_spec. intros [d [Hd Hw]].
    exact (Hout d Hd Hw).
  - intros Hlit level batch size files config.
    rewrite !isProtected_fresh. unfold evaluatePatterns. simpl protectedPatterns.
    simpl existsb. rewrite !(matchesPattern_literal _ _ _ _ ".git" Hlit) by reflexivity.
    now repeat split.
Qed.

Lemma isProtected_fail_closed_witness :
  isProtected literalMinimatch relativeBelow demoConfig ∅ "/etc/passwd" = (true, ∅)
  /\ (isProtected literalMinimatch relativeBelow demoConfig ∅ "/etc/passwd").1 = true
  /\ (isProtected literalMinimatch relativeBelow demoConfig ∅ "/tmp/proj/.git/config").1 = true
  /\ (isProtected literalMinimatch relativeBelow demoConfig ∅ "/tmp/proj/readme.md").1 = false.
Proof.
  destruct (isProtected_fail_closed literalMinimatch relativeBelow) as [Hout Hscen].
  split.
  - apply (Hout demoConfig ∅ "/etc/passwd").
    intros d [<-|[]] [H|[rest H]]; vm_compute in H; discriminate H.
  - apply (Hscen (literalMinimatch_literally ".git" eq_refl) LevelInfo 2 (Some 1024%N) (Some 1)).
Defined.

(** C10.  The pattern cache keeps its invariant: it holds for the empty cache
    of a new engine; [isProtected] preserves it, answers what a fresh
    evaluation of the same path answers, and writes nothing for a path
    outside the allowed directories; invalidation and [dispose] preserve
    it. *)
Theorem pattern_cache_invariant (minimatch : string -> string -> bool -> bool)
    (path_relative : string -> string -> string) (config : Configuration) :
  cacheCoherent minimatch path_relative config ∅
  /\ (forall cache p,
        cacheCoherent minimatch path_relative config cache ->
        cacheCoherent minimatch path_relative config
          (isProtected minimatch path_relative config cache p).2
        /\ (isProtected minimatch path_relative config cache p).1
           = (isProtected minimatch path_relative config ∅ p).1
        /\ (isWithinAllowedDirectories config p = false ->
            isProtected minimatch path_relative config cache p = (true, cache)))
  /\ (forall cache changedPath,
        cacheCoherent minimatch path_relative config cache ->
        cacheCoherent minimatch path_relative config (invalidateCache cache changedPath))
  /\ (forall cache, cacheCoherent minimatch path_relative config (dispose cache)).
Proof.
  split; [|split; [|split]].
  - intros k v H. now rewrite lookup_empty in H.
  - intros cache p Hc.
    destruct (isProtected_coherent minimatch path_relative config cache p Hc) as [H1 H2].
    split; [exact H1|]. split; [exact H2|]. apply isProtected_outside.
  - intros cache changedPath. apply invalidateCache_coherent.
  - intros cache k v H. unfold dispose in H. now rewrite lookup_empty in H.
Qed.

Lemma demoCache_coherent :
  cacheCoherent literalMinimatch relativeBelow demoConfig
    {[ "/tmp/proj/readme.md" := false ]}.
Proof.
  intros k v H. apply lookup_singleton_Some in H as [<- <-]. now split.
Defined.

Lemma pattern_cache_invariant_witness :
  cacheCoherent literalMinimatch relativeBelow demoConfig
    (isProtected literalMinimatch relativeBelow demoConfig
       {[ "/tmp/proj/readme.md" := false ]} "/tmp/proj/.git").2
  /\ (isProtected literalMinimatch relativeBelow demoConfig
        {[ "/tmp/proj/readme.md" := false ]} "/tmp/proj/readme.md").1
     = (isProtected literalMinimatch relativeBelow demoConfig ∅ "/tmp/proj/readme.md").1
  /\ cacheCoherent literalMinimatch relativeBelow demoConfig
       (invalidateCache {[ "/tmp/proj/readme.md" := false ]} "/tmp/proj").
Proof.
  destruct (pattern_cache_invariant literalMinimatch relativeBelow demoConfig)
    as [_ [Hstep [Hinv _]]].
  split; [|split].
  - apply (Hstep _ "/tmp/proj/.git" demoCache_coherent).
  - apply (Hstep _ "/tmp/proj/readme.md" demoCache_coherent).
  - apply (Hinv _ "/tmp/proj" demoCache_coherent).
Defined.

(** ** Deletion service: validation *)

Section ValidationFacts.

Variable minimatch : string -> string -> bool -> bool.
Variable path_relative : string -> string -> string.
Variable config : Configuration.

Local Abbreviation protectedIn := (isProtected minimatch path_relative config).
Local Abbreviation validated := (validatePath minimatch path_relative config).
Local Abbreviation alike := (sameVerdicts minimatch path_relative config).

Lemma validatePath_eq (cache : gmap string bool) (p : string) :
  validated cache p =
  if negb (NodePath.isAbsolute p) then (rejection "Only absolute paths are accepted", cache)
  else match getMatchingAllowedDirectory config p with
       | None => (rejection "Path is outside allowed directories", cache)
       | Some d =>
           (if (protectedIn cache p).1 then rejection protectionReason
            else {| ValidationResult.valid := true;
                    ValidationResult.reason := None;
                    ValidationResult.matchedDirectory := Some d |},
            (protectedIn cache p).2)
       end.
Proof.
  unfold validatePath.
  destruct (negb (NodePath.isAbsolute p)); [reflexivity|].
  destruct (getMatchingAllowedDirectory config p); [|reflexivity].
  destruct (protectedIn cache p) as [b c']. now destruct b.
Qed.

Lemma alike_refl (c : gmap string bool) : alike c c.
Proof. now intros q. Qed.

Lemma validatePath_alike (c c' : gmap string bool) (p : string) :
  alike c c' ->
  (validated c' p).1 = (validated c p).1 /\ alike c (validated c' p).2.
Proof.
  intros H. rewrite !validatePath_eq.
  destruct (negb (NodePath.isAbsolute p)); [now split|].
  destruct (getMatchingAllowedDirectory config p); [|now split].
  simpl. rewrite (H p). split; [reflexivity|].
  intros q. now rewrite isProtected_stable.
Qed.

(** The four verdicts [validatePath] can give. *)
Lemma validatePath_cases (cache : gmap string bool) (p : string) :
  let v := (validated cache p).1 in
  v = rejection "Only absolute paths are accepted"
  \/ v = rejection "Path is outside allowed directories"
  \/ v = rejection protectionReason
  \/ exists d, v = {| ValidationResult.valid := true;
                      ValidationResult.reason := None;
                      ValidationResult.matchedDirectory := Some d |}.
Proof.
  simpl. rewrite validatePath_eq.
  destruct (negb (NodePath.isAbsolute p)); [now left|].
  destruct (getMatchingAllowedDirectory config p) as [d|]; [|now right; left].
  simpl. destruct (protectedIn cache p).1; [now right; right; left|].
  right; right; right. now exists d.
Qed.

End ValidationFacts.

(** C4.  [validatePath p] is valid exactly when [p] is absolute,
    [getMatchingAllowedDirectory p] is not [null] and [isProtected p] is
    false; a failure carries the reason of the first check that fails, in the
    order absoluteness, scope, protection; a success carries the directory
    that [getMatchingAllowedDirectory p] returns. *)
Theorem validatePath_verdict (minimatch : string -> string -> bool -> bool)
    (path_relative : string -> string -> string) (config : Configuration)
    (cache : gmap string bool) (p : string) :
  let verdict := (validatePath minimatch path_relative config cache p).1 in
  (ValidationResult.valid verdict = true <->
     NodePath.isAbsolute p = true
     /\ getMatchingAllowedDirectory config p <> None
     /\ (isProtected minimatch path_relative config cache p).1 = false)
  /\ (NodePath.isAbsolute p = false ->
      verdict = rejection "Only absolute paths are accepted")
  /\ (NodePath.isAbsolute p = true ->
      getMatchingAllowedDirectory config p = None ->
      verdict = rejection "Path is outside allowed directories")
  /\ (NodePath.isAbsolute p = true ->
      getMatchingAllowedDirectory config p <> None ->
      (isProtected minimatch path_relative config cache p).1 = true ->
      verdict = rejection "Path matches protected pattern")
  /\ (ValidationResult.valid verdict = true ->
      ValidationResult.reason verdict = None
      /\ ValidationResult.matchedDirectory verdict = getMatchingAllowedDirectory config p).
Proof.
  simpl. rewrite validatePath_eq.
  destruct (NodePath.isAbsolute p); simpl.
  - destruct (getMatchingAllowedDirectory config p) as [d|]; simpl.
    + destruct (isProtected minimatch path_relative config cache p).1; simpl.
      * repeat split; try discriminate; try reflexivity; intros; intuition discriminate.
      * repeat split; try discriminate; try reflexivity; intros; intuition discriminate.
    + repeat split; try discriminate; try reflexivity; intros; intuition congruence.
  - repeat split; try discriminate; try reflexivity; intros; intuition discriminate.
Qed.

Section BatchValidationFacts.

Variable minimatch : string -> string -> bool -> bool.
Variable path_relative : string -> string -> string.
Variable config : Configuration.

Local Abbreviation validated := (validatePath minimatch path_relative config).
Local Abbreviation alike := (sameVerdicts minimatch path_relative config).
Local Abbreviation step := (validateBatchStep minimatch path_relative config).

(** One turn of the loop, in terms of the verdict at the cache [c] the batch
    started from. *)
Lemma validateBatchStep_eq (c : gmap string bool) (acc : BatchAcc) (p : string) :
  alike c (accCache acc) ->
  let v := (validated c p).1 in
  step acc p =
  {| accValid := accValid acc ++ (if ValidationResult.valid v then [p] else []);
     accInvalid :=
       accInvalid acc ++ (if rejectedOtherwise v then [(p, reasonText v)] else []);
     accProtected :=
       accProtected acc ++ (if rejectedForProtection v then [(p, reasonText v)] else []);
     accCache := (validated (accCache acc) p).2 |}.
Proof.
  intros Hc v. unfold validateBatchStep.
  destruct (validatePath_alike minimatch path_relative config _ _ p Hc) as [Hv _].
  destruct (validated (accCache acc) p) as [v' c'']. simpl in Hv. subst v'. fold v.
  simpl.
  destruct (validatePath_cases minimatch path_relative config c p)
    as [E|[E|[E|[d E]]]]; fold v in E; rewrite E; simpl;
    rewrite ?app_nil_r; reflexivity.
Qed.

Lemma validateBatch_fold (c : gmap string bool) (paths : list string) (acc : BatchAcc) :
  alike c (accCache acc) ->
  let verdict p := (validated c p).1 in
  let acc' := foldl step acc paths in
  accValid acc' = accValid acc ++ List.filter (fun p => ValidationResult.valid (verdict p)) paths
  /\ accInvalid acc'
     = accInvalid acc
       ++ map (fun p => (p, reasonText (verdict p)))
              (List.filter (fun p => rejectedOtherwise (verdict p)) paths)
  /\ accProtected acc'
     = accProtected acc
       ++ map (fun p => (p, reasonText (verdict p)))
              (List.filter (fun p => rejectedForProtection (verdict p)) paths)
  /\ alike c (accCache acc').
Proof.
  revert acc. induction paths as [|p paths IH]; intros acc Hc; simpl.
  - rewrite !app_nil_r. now repeat split.
  - destruct (validatePath_alike minimatch path_relative config _ _ p Hc) as [_ Hc'].
    rewrite (validateBatchStep_eq c acc p Hc).
    match goal with |- context [foldl _ ?a paths] => specialize (IH a Hc') end.
    simpl in IH. destruct IH as (H1 & H2 & H3 & H4).
    rewrite H1, H2, H3. repeat split; try exact H4.
    + rewrite <- app_assoc. f_equal.
      now destruct (ValidationResult.valid (validated c p).1).
    + rewrite <- app_assoc. f_equal.
      now destruct (rejectedOtherwise (validated c p).1).
    + rewrite <- app_assoc. f_equal.
      now destruct (rejectedForProtection (validated c p).1).
Qed.

Lemma validateBatch_spec (c : gmap string bool) (paths : list string) :
  let verdict p := (validated c p).1 in
  let r := (validateBatch minimatch path_relative config c paths).1 in
  BatchValidationResult.validPaths r
  = List.filter (fun p => ValidationResult.valid (verdict p)) paths
  /\ BatchValidationResult.invalidPaths r
     = map (fun p => (p, reasonText (verdict p)))
           (List.filter (fun p => rejectedOtherwise (verdict p)) paths)
  /\ BatchValidationResult.protectedPaths r
     = map (fun p => (p, reasonText (verdict p)))
           (List.filter (fun p => rejectedForProtection (verdict p)) paths)
  /\ alike c (validateBatch minimatch path_relative config c paths).2.
Proof.
  unfold validateBatch. simpl.
  exact (validateBatch_fold c paths
           {| accValid := []; accInvalid := []; accProtected := []; accCache := c |}
           (alike_refl minimatch path_relative config c)).
Qed.

Lemma validateBatch_valid_flag (c : gmap string bool) (paths : list string) :
  let r := (validateBatch minimatch path_relative config c paths).1 in
  BatchValidationResult.valid r = true <->
  BatchValidationResult.invalidPaths r = [] /\ BatchValidationResult.protectedPaths r = [].
Proof.
  unfold validateBatch. simpl.
  rewrite andb_true_iff, !Nat.eqb_eq, !length_zero_iff_nil. tauto.
Qed.

(** Every verdict falls in exactly one class. *)
Lemma verdict_classes (c : gmap string bool) (p : string) :
  let v := (validated c p).1 in
  (ValidationResult.valid v = true
   /\ rejectedOtherwise v = false /\ rejectedForProtection v = false)
  \/ (ValidationResult.valid v = false
      /\ rejectedOtherwise v = true /\ rejectedForProtection v = false)
  \/ (ValidationResult.valid v = false
      /\ rejectedOtherwise v = false /\ rejectedForProtection v = true).
Proof.
  simpl.
  destruct (validatePath_cases minimatch path_relative config c p)
    as [E|[E|[E|[d E]]]]; rewrite E.
  - right; left. now repeat split.
  - right; left. now repeat split.
  - right; right. now repeat split.
  - left. now repeat split.
Qed.

(** A fully valid batch keeps all its paths, in order. *)
Lemma validateBatch_all_valid (c : gmap string bool) (paths : list string) :
  BatchValidationResult.valid (validateBatch minimatch path_relative config c paths).1 = true ->
  BatchValidationResult.validPaths (validateBatch minimatch path_relative config c paths).1
  = paths
  /\ forall p, In p paths -> ValidationResult.valid (validated c p).1 = true.
Proof.
  intros Hv. apply validateBatch_valid_flag in Hv as [Hi Hp].
  destruct (validateBatch_spec c paths) as (H1 & H2 & H3 & _).
  rewrite H2 in Hi. rewrite H3 in Hp. apply map_eq_nil in Hi, Hp.
  assert (Hall : forall p, In p paths -> ValidationResult.valid (validated c p).1 = true).
  { intros p Hin. destruct (verdict_classes c p) as [(Hok & _)|[(_ & Hb & _)|(_ & _ & Hb)]].
    - exact Hok.
    - assert (Hf : In p (List.filter (fun p => rejectedOtherwise (validated c p).1) paths))
        by now apply filter_In.
      rewrite Hi in Hf. destruct Hf.
    - assert (Hf : In p (List.filter (fun p => rejectedForProtection (validated c p).1) paths))
        by now apply filter_In.
      rewrite Hp in Hf. destruct Hf. }
  split; [|exact Hall]. rewrite H1.
  clear -Hall. induction paths as [|p paths IH]; simpl; [reflexivity|].
  rewrite (Hall p) by now left. f_equal. apply IH. intros q Hq. apply Hall. now right.
Qed.

End BatchValidationFacts.

(** C5.  [validateBatch] sorts the paths by the verdict of [validatePath]:
    the valid ones into [validPaths], the failures whose reason is protection
    into [protectedPaths], all other failures into [invalidPaths], each list
    in the order of the input and every path in exactly one class; [valid]
    is true exactly when [invalidPaths] and [protectedPaths] are empty. *)
Theorem validateBatch_partition (minimatch : string -> string -> bool -> bool)
    (path_relative : string -> string -> string) (config : Configuration)
    (cache : gmap string bool) (paths : list string) :
  let verdict p := (validatePath minimatch path_relative config cache p).1 in
  let r := (validateBatch minimatch path_relative config cache paths).1 in
  BatchValidationResult.validPaths r
  = List.filter (fun p => ValidationResult.valid (verdict p)) paths
  /\ BatchValidationResult.protectedPaths r
     = map (fun p => (p, reasonText (verdict p)))
           (List.filter (fun p => rejectedForProtection (verdict p)) paths)
  /\ BatchValidationResult.invalidPaths r
     = map (fun p => (p, reasonText (verdict p)))
           (List.filter (fun p => rejectedOtherwise (verdict p)) paths)
  /\ (forall p,
        (ValidationResult.valid (verdict p) = true
         /\ rejectedOtherwise (verdict p) = false
         /\ rejectedForProtection (verdict p) = false)
        \/ (ValidationResult.valid (verdict p) = false
            /\ rejectedOtherwise (verdict p) = true
            /\ rejectedForProtection (verdict p) = false)
        \/ (ValidationResult.valid (verdict p) = false
            /\ rejectedOtherwise (verdict p) = false
            /\ rejectedForProtection (verdict p) = true))
  /\ (BatchValidationResult.valid r = true <->
      BatchValidationResult.invalidPaths r = []
      /\ BatchValidationResult.protectedPaths r = []).
Proof.
  intros verdict r.
  destruct (validateBatch_spec minimatch path_relative config cache paths)
    as (H1 & H2 & H3 & _).
  split; [exact H1|]. split; [exact H3|]. split; [exact H2|]. split.
  - intros p. apply verdict_classes.
  - apply validateBatch_valid_flag.
Qed.

(** ** Deletion service: batches *)

(** C3.  A batch longer than the configured maximum is cancelled at once,
    whatever its paths are: every path is reported in [rejected] with a text
    saying that the batch size exceeds the limit, [cancelled] is true, the
    reason of the batch is ["Batch size limit exceeded"], [deleted] and
    [failed] are empty, and neither the disk nor the cache nor the logger is
    touched. *)
Theorem deleteBatch_size_limit (minimatch : string -> string -> bool -> bool)
    (path_relative : string -> string -> string) (config : Configuration)
    (w : World) (paths : list string) :
  maxBatchSize config < length paths ->
  deleteBatch minimatch path_relative config w paths
  = ({| BatchDeletionResult.deleted := [];
        BatchDeletionResult.failed := [];
        BatchDeletionResult.rejected :=
          map (fun p => (p, "Batch size exceeds limit ("
                            +:+ JS.showNumber (maxBatchSize config) +:+ ")")) paths;
        BatchDeletionResult.cancelled := Some true;
        BatchDeletionResult.reason := Some "Batch size limit exceeded" |}, w).
Proof.
  intros Hlen. unfold deleteBatch.
  destruct (Nat.ltb_spec (maxBatchSize config) (length paths)) as [_|Hge]; [reflexivity|lia].
Qed.

Lemma deleteBatch_size_limit_witness :
  deleteBatch literalMinimatch relativeBelow demoConfig
    {| patternCache := ∅; disk := plainDisk {[ "/tmp/proj/a" := RegularFile ]}; loggerCalls := [] |}
    ["/tmp/proj/a"; "/tmp/proj/.git"; "relative"]
  = ({| BatchDeletionResult.deleted := [];
        BatchDeletionResult.failed := [];
        BatchDeletionResult.rejected :=
          [("/tmp/proj/a", "Batch size exceeds limit (2)");
           ("/tmp/proj/.git", "Batch size exceeds limit (2)");
           ("relative", "Batch size exceeds limit (2)")];
        BatchDeletionResult.cancelled := Some true;
        BatchDeletionResult.reason := Some "Batch size limit exceeded" |},
     {| patternCache := ∅; disk := plainDisk {[ "/tmp/proj/a" := RegularFile ]}; loggerCalls := [] |}).
Proof.
  apply (deleteBatch_size_limit literalMinimatch relativeBelow demoConfig). simpl. lia.
Defined.

(** C2.  A batch within the size limit that does not pass [validateBatch] is
    cancelled as a whole: nothing is deleted or failed, [rejected] is
    [invalidPaths] followed by [protectedPaths], [cancelled] is true with the
    reason that the batch contains protected or invalid paths, and the disk
    and the logger are as before.  So the disk changes only when every path
    of the batch passed validation. *)
Theorem deleteBatch_cancels_invalid (minimatch : string -> string -> bool -> bool)
    (path_relative : string -> string -> string) (config : Configuration)
    (w : World) (paths : list string) :
  let validation := (validateBatch minimatch path_relative config (patternCache w) paths).1 in
  let out := deleteBatch minimatch path_relative config w paths in
  (length paths <= maxBatchSize config ->
   BatchValidationResult.valid validation = false ->
   out.1 = {| BatchDeletionResult.deleted := [];
              BatchDeletionResult.failed := [];
              BatchDeletionResult.rejected :=
                BatchValidationResult.invalidPaths validation
                ++ BatchValidationResult.protectedPaths validation;
              BatchDeletionResult.cancelled := Some true;
              BatchDeletionResult.reason := Some "Batch contains protected or invalid paths" |}
   /\ disk out.2 = disk w
   /\ loggerCalls out.2 = loggerCalls w)
  /\ (disk out.2 <> disk w ->
      length paths <= maxBatchSize config
      /\ BatchValidationResult.valid validation = true).
Proof.
  intros validation out. subst out validation. unfold deleteBatch.
  destruct (Nat.ltb_spec (maxBatchSize config) (length paths)) as [Hlt|Hle].
  - split; [lia|]. simpl. intros Hne. now destruct Hne.
  - destruct (validateBatch minimatch path_relative config (patternCache w) paths)
      as [validation cache']. simpl.
    destruct (BatchValidationResult.valid validation); simpl.
    + split; [discriminate|]. now intros _.
    + split; [now repeat split|]. intros Hne. now destruct Hne.
Qed.

Lemma deleteBatch_cancels_invalid_witness :
  (deleteBatch literalMinimatch relativeBelow demoConfig
     {| patternCache := ∅; disk := plainDisk {[ "/tmp/proj/a" := RegularFile ]}; loggerCalls := [] |}
     ["/tmp/proj/a"; "/tmp/proj/.git"]).1
  = {| BatchDeletionResult.deleted := [];
       BatchDeletionResult.failed := [];
       BatchDeletionResult.rejected := [("/tmp/proj/.git", "Path matches protected pattern")];
       BatchDeletionResult.cancelled := Some true;
       BatchDeletionResult.reason := Some "Batch contains protected or invalid paths" |}
  /\ disk (deleteBatch literalMinimatch relativeBelow demoConfig
             {| patternCache := ∅; disk := plainDisk {[ "/tmp/proj/a" := RegularFile ]};
                loggerCalls := [] |}
             ["/tmp/proj/a"; "/tmp/proj/.git"]).2
     = plainDisk {[ "/tmp/proj/a" := RegularFile ]}
  /\ loggerCalls (deleteBatch literalMinimatch relativeBelow demoConfig
             {| patternCache := ∅; disk := plainDisk {[ "/tmp/proj/a" := RegularFile ]};
                loggerCalls := [] |}
             ["/tmp/proj/a"; "/tmp/proj/.git"]).2
     = [].
Proof.
  exact (proj1 (deleteBatch_cancels_invalid literalMinimatch relativeBelow demoConfig
                  {| patternCache := ∅; disk := plainDisk {[ "/tmp/proj/a" := RegularFile ]};
                     loggerCalls := [] |}
                  ["/tmp/proj/a"; "/tmp/proj/.git"])
           ltac:(simpl; lia) ltac:(vm_compute; reflexivity)).
Defined.

Section DeletionFacts.

Variable minimatch : string -> string -> bool -> bool.
Variable path_relative : string -> string -> string.
Variable config : Configuration.

Local Abbreviation validated := (validatePath minimatch path_relative config).
Local Abbreviation alike := (sameVerdicts minimatch path_relative config).
Local Abbreviation deleting := (deleteWith minimatch path_relative config).
Local Abbreviation outcomes := (deletionResults minimatch path_relative config).

Lemma deleteWith_rejected remove (notFound context : string) (w : World) (p : string) :
  ValidationResult.valid (validated (patternCache w) p).1 = false ->
  deleting remove notFound context w p
  = ({| DeletionResult.success := false;
        DeletionResult.path := Some p;
        DeletionResult.error := None;
        DeletionResult.reason := ValidationResult.reason (validated (patternCache w) p).1 |},
     logged (withCache w (validated (patternCache w) p).2) (LogDeletion p Rejected)).
Proof.
  intros Hv. unfold deleteWith.
  destruct (validated (patternCache w) p) as [v c']. simpl in *. now rewrite Hv.
Qed.

Lemma deleteWith_missing remove (notFound context : string) (w : World) (p : string) :
  ValidationResult.valid (validated (patternCache w) p).1 = true ->
  existsSync (disk w) p = false ->
  deleting remove notFound context w p
  = (notFoundResult p notFound,
     logged (withCache w (validated (patternCache w) p).2) (LogDeletion p Failed)).
Proof.
  intros Hv Hm. unfold deleteWith.
  destruct (validated (patternCache w) p) as [v c']. simpl in *. now rewrite Hv, Hm.
Qed.

(** The disk once the entry a path leads to is removed. *)
Lemma lookup_withEntries (d : Disk) (held : gmap string Node) (p : string) :
  withEntries d held !! p = held !! realpath d p.
Proof. reflexivity. Qed.

Lemma lookup_removed (d : Disk) (p q : string) :
  removeEntry d q !! p
  = if decide (realpath d q = realpath d p) then None else d !! p.
Proof.
  unfold removeEntry. rewrite lookup_withEntries. destruct (decide (realpath d q = realpath d p)) as [E|Hne].
  - rewrite E. apply lookup_delete_eq.
  - now apply lookup_delete_ne.
Qed.

Lemma lookup_removed_same (d : Disk) (p : string) :
  removeEntry d p !! p = None.
Proof. rewrite lookup_removed. now destruct (decide _). Qed.

Lemma existsSync_delete (d : Disk) (p q : string) :
  existsSync d p = false ->
  existsSync (removeEntry d q) p = false.
Proof.
  unfold existsSync. rewrite lookup_removed.
  now destruct (decide (realpath d q = realpath d p)).
Qed.

(** A deletion leaves the verdicts as they are and brings no file into being. *)
Lemma deleteFile_keeps (c : gmap string bool) (w : World) (p q : string) :
  alike c (patternCache w) ->
  existsSync (disk w) p = false ->
  let w1 := (deleteFile minimatch path_relative config w q).2 in
  alike c (patternCache w1) /\ existsSync (disk w1) p = false.
Proof.
  intros Hc Hm. unfold deleteFile, deleteWith.
  destruct (validatePath_alike minimatch path_relative config _ _ q Hc) as [_ Hc'].
  destruct (validated (patternCache w) q) as [v c']. simpl in Hc'.
  destruct (ValidationResult.valid v); simpl; [|now split].
  destruct (existsSync (disk w) q); simpl; [|now split].
  unfold unlink. destruct (disk w !! q) as [[|]|]; simpl; try now split.
  destruct (refuses (disk w) (realpath (disk w) q)); simpl; [now split|].
  split; [exact Hc'|]. now apply existsSync_delete.
Qed.

Lemma runDeletions_results (w : World) (validPaths : list string) :
  (runDeletions minimatch path_relative config w validPaths).1
  = map Fulfilled (outcomes w validPaths).
Proof.
  revert w. induction validPaths as [|q rest IH]; intros w; simpl; [reflexivity|].
  specialize (IH (deleteFile minimatch path_relative config w q).2).
  destruct (deleteFile minimatch path_relative config w q) as [r w1]. simpl in *.
  destruct (runDeletions minimatch path_relative config w1 rest) as [rs w2]. simpl in *.
  now rewrite IH.
Qed.

Lemma outcomes_paths (w : World) (validPaths : list string) :
  map fst (outcomes w validPaths) = validPaths.
Proof.
  revert w. induction validPaths as [|q rest IH]; intros w; simpl; [reflexivity|].
  now rewrite IH.
Qed.

Lemma outcomes_missing (c : gmap string bool) (p : string) (validPaths : list string)
    (w : World) (r : DeletionResult.t) :
  alike c (patternCache w) ->
  ValidationResult.valid (validated c p).1 = true ->
  existsSync (disk w) p = false ->
  In (p, r) (outcomes w validPaths) ->
  r = notFoundResult p "File not found".
Proof.
  intros Hc Hv Hm. revert w Hc Hm.
  induction validPaths as [|q rest IH]; intros w Hc Hm; simpl; [intros []|].
  intros [[= -> <-]|Hin].
  - unfold deleteFile. rewrite deleteWith_missing; [reflexivity| |exact Hm].
    now rewrite (proj1 (validatePath_alike minimatch path_relative config _ _ p Hc)).
  - destruct (deleteFile_keeps c w p q Hc Hm) as [Hc' Hm'].
    exact (IH _ Hc' Hm' Hin).
Qed.

Lemma classify_from (prs : list (string * DeletionResult.t)) (pre : list string)
    (acc : list string * list (string * string)) :
  foldl (classifyStep (pre ++ map fst prs)) acc
        (imap (fun i x => (length pre + i, x)) (map Fulfilled prs))
  = (acc.1 ++ map fst (List.filter (fun pr => DeletionResult.success pr.2) prs),
     acc.2 ++ map (fun pr => (pr.1, firstDefined (DeletionResult.error pr.2)
                                                 (DeletionResult.reason pr.2)))
                  (List.filter (fun pr => negb (DeletionResult.success pr.2)) prs)).
Proof.
  revert pre acc. induction prs as [|pr prs IH]; intros pre acc; simpl.
  - rewrite !app_nil_r. now destruct acc.
  - unfold classifyStep at 2. simpl.
    rewrite Nat.add_0_r, list_lookup_middle by reflexivity.
    rewrite (imap_ext _ (fun i x => (length (pre ++ [pr.1]) + i, x))).
    2:{ intros i x _. simpl. rewrite length_app. simpl. f_equal. lia. }
    rewrite (cons_middle pr.1 pre (map fst prs)), app_assoc, IH.
    destruct (DeletionResult.success pr.2); simpl; now rewrite <- app_assoc.
Qed.

Lemma classify_results (prs : list (string * DeletionResult.t)) :
  classify (map fst prs) (map Fulfilled prs)
  = (map fst (List.filter (fun pr => DeletionResult.success pr.2) prs),
     map (fun pr => (pr.1, firstDefined (DeletionResult.error pr.2)
                                        (DeletionResult.reason pr.2)))
         (List.filter (fun pr => negb (DeletionResult.success pr.2)) prs)).
Proof. exact (classify_from prs [] ([], [])). Qed.

(** A fully valid batch within the limit: what [deleteBatch] returns. *)
Lemma deleteBatch_executes (w : World) (paths : list string) :
  length paths <= maxBatchSize config ->
  BatchValidationResult.valid
    (validateBatch minimatch path_relative config (patternCache w) paths).1 = true ->
  let w1 := withCache w (validateBatch minimatch path_relative config (patternCache w) paths).2 in
  let prs := outcomes w1 paths in
  (deleteBatch minimatch path_relative config w paths).1
  = {| BatchDeletionResult.deleted :=
         map fst (List.filter (fun pr => DeletionResult.success pr.2) prs);
       BatchDeletionResult.failed :=
         map (fun pr => (pr.1, firstDefined (DeletionResult.error pr.2)
                                            (DeletionResult.reason pr.2)))
             (List.filter (fun pr => negb (DeletionResult.success pr.2)) prs);
       BatchDeletionResult.rejected := [];
       BatchDeletionResult.cancelled := None;
       BatchDeletionResult.reason := None |}.
Proof.
  intros Hlen Hvalid w1 prs. subst prs w1.
  destruct (validateBatch_all_valid minimatch path_relative config _ _ Hvalid) as [Hvp _].
  unfold deleteBatch.
  destruct (Nat.ltb_spec (maxBatchSize config) (length paths)) as [Hlt|_]; [lia|].
  destruct (validateBatch minimatch path_relative config (patternCache w) paths)
    as [validation cache']. simpl in *. rewrite Hvalid, Hvp. simpl.
  pose proof (runDeletions_results (withCache w cache') paths) as Hr.
  destruct (runDeletions minimatch path_relative config (withCache w cache') paths)
    as [results w2]. simpl in Hr. rewrite Hr.
  rewrite <- (outcomes_paths (withCache w cache') paths) at 1.
  now rewrite classify_results.
Qed.

End DeletionFacts.

(** C7.  A path that passes validation and is not on the disk: [deleteFile]
    and [deleteDirectory] return [success: false] with an [error] text and no
    [reason], and log the outcome [failed]; in the execution stage of
    [deleteBatch] the path is reported in [failed], neither in [deleted] nor
    in [rejected].  A path that fails validation is returned with a [reason]
    and no [error], and logged as [rejected]. *)
Theorem missing_target_is_failed (minimatch : string -> string -> bool -> bool)
    (path_relative : string -> string -> string) (config : Configuration)
    (w : World) (p : string) :
  ValidationResult.valid
    (validatePath minimatch path_relative config (patternCache w) p).1 = true ->
  existsSync (disk w) p = false ->
  let w' := logged (withCache w (validatePath minimatch path_relative config
                                   (patternCache w) p).2)
                   (LogDeletion p Failed) in
  deleteFile minimatch path_relative config w p
  = ({| DeletionResult.success := false;
        DeletionResult.path := Some p;
        DeletionResult.error := Some "File not found";
        DeletionResult.reason := None |}, w')
  /\ deleteDirectory minimatch path_relative config w p
     = ({| DeletionResult.success := false;
           DeletionResult.path := Some p;
           DeletionResult.error := Some "Directory not found";
           DeletionResult.reason := None |}, w')
  /\ (forall paths,
        length paths <= maxBatchSize config ->
        BatchValidationResult.valid
          (validateBatch minimatch path_relative config (patternCache w) paths).1 = true ->
        In p paths ->
        let r := (deleteBatch minimatch path_relative config w paths).1 in
        In (p, "File not found") (BatchDeletionResult.failed r)
        /\ ~ In p (BatchDeletionResult.deleted r)
        /\ BatchDeletionResult.rejected r = [])
  /\ (forall p',
        ValidationResult.valid
          (validatePath minimatch path_relative config (patternCache w) p').1 = false ->
        deleteFile minimatch path_relative config w p'
        = ({| DeletionResult.success := false;
              DeletionResult.path := Some p';
              DeletionResult.error := None;
              DeletionResult.reason :=
                ValidationResult.reason
                  (validatePath minimatch path_relative config (patternCache w) p').1 |},
           logged (withCache w (validatePath minimatch path_relative config
                                  (patternCache w) p').2)
                  (LogDeletion p' Rejected))).
Proof.
  intros Hv Hm w'. subst w'.
  split; [now apply deleteWith_missing|]. split; [now apply deleteWith_missing|].
  split; [|intros p' Hv'; now apply deleteWith_rejected].
  intros paths Hlen Hvalid Hin r. subst r.
  rewrite (deleteBatch_executes _ _ _ _ _ Hlen Hvalid). simpl.
  set (w1 := withCache w _).
  assert (Hmiss : forall r, In (p, r) (deletionResults minimatch path_relative config w1 paths) ->
                            r = notFoundResult p "File not found").
  { intros r. apply (outcomes_missing minimatch path_relative config (patternCache w)).
    - apply validateBatch_spec.
    - exact Hv.
    - exact Hm. }
  split; [|split; [|reflexivity]].
  - rewrite <- (outcomes_paths minimatch path_relative config w1 paths) in Hin.
    apply in_map_iff in Hin as [[q r] [Hq Hin]]. simpl in Hq. subst q.
    pose proof (Hmiss r Hin) as ->.
    apply in_map_iff. exists (p, notFoundResult p "File not found").
    split; [reflexivity|]. apply filter_In. now split.
  - intros Hd. apply in_map_iff in Hd as [[q r] [Hq Hd]]. simpl in Hq. subst q.
    apply filter_In in Hd as [Hd Hs]. rewrite (Hmiss r Hd) in Hs. discriminate Hs.
Qed.

Lemma missing_target_is_failed_witness :
  deleteFile literalMinimatch relativeBelow demoConfig
    {| patternCache := ∅; disk := plainDisk {[ "/tmp/proj/a" := RegularFile ]}; loggerCalls := [] |}
    "/tmp/proj/gone"
  = ({| DeletionResult.success := false;
        DeletionResult.path := Some "/tmp/proj/gone";
        DeletionResult.error := Some "File not found";
        DeletionResult.reason := None |},
     {| patternCache := {[ "/tmp/proj/gone" := false ]};
        disk := plainDisk {[ "/tmp/proj/a" := RegularFile ]};
        loggerCalls := [LogDeletion "/tmp/proj/gone" Failed] |})
  /\ In ("/tmp/proj/gone", "File not found")
        (BatchDeletionResult.failed
           (deleteBatch literalMinimatch relativeBelow demoConfig
              {| patternCache := ∅; disk := plainDisk {[ "/tmp/proj/a" := RegularFile ]};
                 loggerCalls := [] |}
              ["/tmp/proj/a"; "/tmp/proj/gone"]).1).
Proof.
  set (w := {| patternCache := ∅; disk := plainDisk {[ "/tmp/proj/a" := RegularFile ]};
               loggerCalls := [] |}).
  assert (Hv : ValidationResult.valid
                 (validatePath literalMinimatch relativeBelow demoConfig
                    (patternCache w) "/tmp/proj/gone").1 = true)
    by (vm_compute; reflexivity).
  assert (Hm : existsSync (disk w) "/tmp/proj/gone" = false)
    by (vm_compute; reflexivity).
  destruct (missing_target_is_failed literalMinimatch relativeBelow demoConfig
              w "/tmp/proj/gone" Hv Hm) as [Hfile [_ [Hbatch _]]].
  split.
  - exact Hfile.
  - apply (Hbatch ["/tmp/proj/a"; "/tmp/proj/gone"]).
    + simpl. lia.
    + vm_compute. reflexivity.
    + right. left. reflexivity.
Defined.

(** ** Audit logger: files *)

Lemma logFileName_nonempty (timestamp random : string) :
  String.eqb (logFileName timestamp random) "" = false.
Proof. reflexivity. Qed.

Lemma findFile_None (files : list LogFile) (name : string) :
  findFile files name = None <-> forall f, In f files -> fileName f <> name.
Proof.
  unfold findFile. induction files as [|g files IH]; simpl.
  - split; [intros _ f [] | reflexivity].
  - destruct (String.eqb_spec (fileName g) name) as [E|E].
    + split; [discriminate|]. intros H. now destruct (H g (or_introl eq_refl)).
    + rewrite IH. split.
      * intros H f [<-|Hf]; [exact E | now apply H].
      * intros H f Hf. apply H. now right.
Qed.

Lemma findFile_created (files : list LogFile) (name data : string) (clock : nat) :
  findFile files name = None ->
  findFile (files ++ [createdFile name data clock]) name = Some (createdFile name data clock).
Proof.
  unfold findFile. induction files as [|g files IH]; simpl.
  - intros _. now rewrite String.eqb_refl.
  - destruct (String.eqb (fileName g) name); [discriminate | exact IH].
Qed.

Lemma findFile_appended (files : list LogFile) (name data : string) (clock : nat)
    (f : LogFile) :
  findFile files name = Some f ->
  findFile (map (fun g => if String.eqb (fileName g) name
                          then {| fileName := fileName g; mtime := clock;
                                  content := content g +:+ data;
                                  unlinkable := unlinkable g |}
                          else g) files) name
  = Some {| fileName := fileName f; mtime := clock;
            content := content f +:+ data; unlinkable := unlinkable f |}.
Proof.
  unfold findFile. induction files as [|g files IH]; simpl; [discriminate|].
  destruct (String.eqb (fileName g) name) eqn:E; simpl; rewrite E.
  - now intros [= ->].
  - exact IH.
Qed.

(** An append to an existing directory under a proper name succeeds, and the
    data end the file. *)
Lemma appendFile_Some (files : list LogFile) (name data : string) (clock : nat) :
  String.eqb name "" = false ->
  exists files' f before,
    appendFile (Some files) name data clock = Some (Some files')
    /\ findFile files' name = Some f
    /\ content f = before +:+ data.
Proof.
  intros Hn. unfold appendFile. rewrite Hn.
  destruct (findFile files name) as [f|] eqn:E.
  - eexists _, _, (content f). split; [reflexivity|].
    split; [apply findFile_appended, E | reflexivity].
  - exists (files ++ [createdFile name data clock]), (createdFile name data clock), "".
    split; [reflexivity|]. split; [now apply findFile_created | reflexivity].
Qed.

Lemma last_kept {A : Type} (l : list A) (x : A) (k : nat) :
  k <= length l -> last (drop k (l ++ [x])) = Some x.
Proof. intros Hk. now rewrite drop_app_le, last_snoc. Qed.

Section LoggerFacts.

Variable JSON_stringify : AuditLog.t -> string.
Variable config : Configuration.

Local Abbreviation writing := (writeToFile JSON_stringify config).

Lemma cleanupOldLogFiles_Some (files : list LogFile) :
  exists kept, cleanupOldLogFiles config (Some files) = Some kept.
Proof.
  unfold cleanupOldLogFiles.
  destruct (Nat.leb _ _); eexists; reflexivity.
Qed.

(** [writeToFile] leaves the in-memory tail alone. *)
Lemma writeToFile_memory (env : Env) (st : LoggingService * option (list LogFile))
    (logEntry : AuditLog.t) :
  inMemoryLogs (writing env st logEntry).1 = inMemoryLogs st.1.
Proof.
  unfold writeToFile.
  set (st1 := if String.eqb (currentLogFile st.1) "" then _ else _).
  assert (H1 : inMemoryLogs st1.1 = inMemoryLogs st.1).
  { subst st1. now destruct (String.eqb (currentLogFile st.1) ""). }
  clearbody st1.
  set (st2 := if shouldRotateLog config st1.1 _ then _ else _).
  assert (H2 : inMemoryLogs st2.1 = inMemoryLogs st.1).
  { subst st2. destruct (shouldRotateLog config st1.1 _); [|exact H1].
    unfold rotateLogFile. now destruct (String.eqb (currentLogFile st1.1) ""). }
  clearbody st2. now destruct (appendFile _ _ _ _).
Qed.

(** [writeToFile] on a usable state: the line ends the active file. *)
Lemma writeToFile_written (env : Env) (st : LoggingService * option (list LogFile))
    (logEntry : AuditLog.t) :
  usable st -> writtenToFile JSON_stringify (writing env st logEntry) logEntry.
Proof.
  intros Hu. unfold writtenToFile, writeToFile.
  set (line := JSON_stringify logEntry +:+ JS.newline).
  set (st1 := if String.eqb (currentLogFile st.1) "" then _ else _).
  assert (H1 : String.eqb (currentLogFile st1.1) "" = false
               /\ exists files, st1.2 = Some files).
  { subst st1. destruct (String.eqb_spec (currentLogFile st.1) "") as [E|E]; simpl.
    - split; [reflexivity|]. eexists; reflexivity.
    - split; [now apply String.eqb_neq|].
      destruct Hu as [Hu|Hu]; [contradiction|].
      destruct st.2 as [files|]; [now exists files | contradiction]. }
  clearbody st1. destruct H1 as (Hn1 & files1 & Hd1).
  set (st2 := if shouldRotateLog config st1.1 _ then _ else _).
  assert (H2 : String.eqb (currentLogFile st2.1) "" = false
               /\ exists files, st2.2 = Some files).
  { subst st2. destruct (shouldRotateLog config st1.1 _).
    - unfold rotateLogFile. rewrite Hn1. simpl. rewrite Hd1.
      split; [reflexivity | apply cleanupOldLogFiles_Some].
    - split; [exact Hn1 | now exists files1]. }
  clearbody st2. destruct H2 as (Hn2 & files2 & Hd2).
  rewrite Hd2.
  destruct (appendFile_Some files2 (currentLogFile st2.1) line (now env) Hn2)
    as (files' & f & before & Ha & Hf & Hc).
  rewrite Ha. simpl. now exists files', f, before.
Qed.

End LoggerFacts.

(** C8.  The level of an entry is error for the result [failed], warn for
    [rejected], debug for a reason that starts with ["DEBUG:"], and info
    otherwise.  Under a configured level other than ["none"], an entry below
    that level leaves the memory and the files as they were, and any other
    entry becomes the newest in memory and its line ends the active file;
    under ["none"] no entry is recorded and the
    constructor does not initialise the log directory. *)
Theorem log_level_filter (JSON_stringify : AuditLog.t -> string) (config : Configuration)
    (env : Env) (st : LoggingService * option (list LogFile)) (logEntry : AuditLog.t) :
  (entryLevelIndex logEntry
   = match AuditLog.result logEntry, AuditLog.reason logEntry with
     | Failed, _ => levelIndex LevelError
     | Rejected, _ => levelIndex LevelWarn
     | Success, Some r =>
         if JS.startsWith r "DEBUG:" then levelIndex LevelDebug else levelIndex LevelInfo
     | Success, None => levelIndex LevelInfo
     end)
  /\ (logLevel config <> LevelNone ->
      (entryLevelIndex logEntry < levelIndex (logLevel config))%Z ->
      writeLogEntry JSON_stringify config env st logEntry = st)
  /\ (logLevel config <> LevelNone ->
      (levelIndex (logLevel config) <= entryLevelIndex logEntry)%Z ->
      last (inMemoryLogs (writeLogEntry JSON_stringify config env st logEntry).1)
      = Some logEntry
      /\ (usable st ->
          writtenToFile JSON_stringify
            (writeLogEntry JSON_stringify config env st logEntry) logEntry))
  /\ (logLevel config = LevelNone ->
      writeLogEntry JSON_stringify config env st logEntry = st
      /\ newLoggingService config env st.2
         = ({| inMemoryLogs := []; currentLogFile := ""; currentLogFileSize := 0 |}, st.2)).
Proof.
  split; [|split; [|split]].
  - unfold entryLevelIndex. now destruct (AuditLog.result logEntry).
  - intros Hnone Hlt. unfold writeLogEntry, shouldLog.
    destruct (Z.leb_spec (levelIndex (logLevel config)) (entryLevelIndex logEntry));
      [lia|].
    now destruct (logLevel config).
  - intros Hnone Hle. unfold writeLogEntry, shouldLog.
    destruct (Z.leb_spec (levelIndex (logLevel config)) (entryLevelIndex logEntry)) as [_|];
      [|lia].
    simpl negb. cbv iota.
    set (kept := if Nat.ltb 1000 _ then _ else _).
    set (st0 := ({| inMemoryLogs := kept; currentLogFile := currentLogFile st.1;
                    currentLogFileSize := currentLogFileSize st.1 |}, st.2)).
    assert (Hrec : last (inMemoryLogs
                           (writeToFile JSON_stringify config env st0 logEntry).1)
                   = Some logEntry
                   /\ (usable st ->
                       writtenToFile JSON_stringify
                         (writeToFile JSON_stringify config env st0 logEntry) logEntry)).
    { split.
      - rewrite writeToFile_memory. subst st0 kept. simpl.
        destruct (Nat.ltb_spec 1000 (length (inMemoryLogs st.1 ++ [logEntry]))) as [Hlt|_].
        + apply last_kept. rewrite length_app in *. simpl in *. lia.
        + apply last_snoc.
      - intros Hu. now apply writeToFile_written. }
    now destruct (logLevel config).
  - intros Hnone. unfold writeLogEntry, newLoggingService. now rewrite Hnone.
Qed.

(** ** Audit logger: retention *)

Lemma filter_twice {A : Type} (P Q : A -> bool) (l : list A) :
  List.filter P (List.filter Q l) = List.filter (fun x => Q x && P x) l.
Proof.
  induction l as [|x l IH]; simpl; [reflexivity|].
  destruct (Q x); simpl; [|exact IH]. destruct (P x); now rewrite IH.
Qed.

Lemma filter_swap {A : Type} (P Q : A -> bool) (l : list A) :
  List.filter P (List.filter Q l) = List.filter Q (List.filter P l).
Proof.
  rewrite !filter_twice. apply List.filter_ext. intros x. apply andb_comm.
Qed.

Lemma filter_none {A : Type} (P : A -> bool) (l : list A) :
  (forall x, In x l -> P x = false) -> List.filter P l = [].
Proof.
  induction l as [|x l IH]; intros H; simpl; [reflexivity|].
  rewrite (H x) by now left. apply IH. intros y Hy. apply H. now right.
Qed.

Lemma filter_all {A : Type} (P : A -> bool) (l : list A) :
  (forall x, In x l -> P x = true) -> List.filter P l = l.
Proof.
  induction l as [|x l IH]; intros H; simpl; [reflexivity|].
  rewrite (H x) by now left. f_equal. apply IH. intros y Hy. apply H. now right.
Qed.

Lemma filter_perm_length {A : Type} (P : A -> bool) (l l' : list A) :
  l ≡ₚ l' -> length (List.filter P l) = length (List.filter P l').
Proof.
  induction 1 as [|x l l' _ IH|x y l|l l' l'' _ IH1 _ IH2]; simpl.
  - reflexivity.
  - destruct (P x); simpl; now rewrite IH.
  - now destruct (P x), (P y).
  - now rewrite IH1.
Qed.

Lemma filter_NoDup {A : Type} (P : A -> bool) (l : list A) :
  NoDup l -> NoDup (List.filter P l).
Proof.
  induction 1 as [|x l Hx Hl IH]; simpl; [constructor|].
  destruct (P x); [|exact IH]. constructor; [|exact IH].
  intros Hin. apply Hx. apply list_elem_of_In in Hin. apply filter_In in Hin as [Hin _].
  now apply list_elem_of_In.
Qed.

Lemma fileName_inj (files : list LogFile) (f g : LogFile) :
  NoDup (map fileName files) -> In f files -> In g files ->
  fileName f = fileName g -> f = g.
Proof.
  induction files as [|h files IH]; simpl; [intros _ []|].
  intros Hnd. apply NoDup_cons in Hnd as [Hh Hnd]. intros [<-|Hf] [<-|Hg] E.
  - reflexivity.
  - destruct Hh. rewrite E. apply list_elem_of_In, in_map, Hg.
  - destruct Hh. rewrite <- E. apply list_elem_of_In, in_map, Hf.
  - now apply IH.
Qed.

Lemma foldl_unlinkLog (removing files : list LogFile) :
  foldl unlinkLog files removing
  = List.filter (fun f => negb (removedBy removing f)) files.
Proof.
  revert files. induction removing as [|r removing IH]; intros files; simpl.
  - symmetry. now apply filter_all.
  - rewrite IH. unfold unlinkLog. destruct (unlinkable r); simpl.
    + rewrite filter_twice. apply List.filter_ext. intros f.
      now rewrite negb_orb.
    + reflexivity.
Qed.

Section RetentionFacts.

Variable config : Configuration.
Variable files : list LogFile.
Hypothesis distinct_names : NoDup (map fileName files).

Let maxFiles : nat := default 5 (maxLogFiles config).
Let logFiles : list LogFile := List.filter (fun f => isLogFileName (fileName f)) files.
Let fileStats : list LogFile := jsSort olderFirst logFiles.
Let filesToRemove : list LogFile := take (length fileStats - maxFiles) fileStats.

Lemma fileStats_perm : fileStats ≡ₚ logFiles.
Proof. apply (jsSort_perm olderFirst). Qed.

Lemma fileStats_in (f : LogFile) : In f fileStats <-> In f files /\ isLogFile f = true.
Proof.
  rewrite <- list_elem_of_In, fileStats_perm, list_elem_of_In.
  apply filter_In.
Qed.

Lemma filesToRemove_in (r : LogFile) : In r filesToRemove -> In r fileStats.
Proof.
  intros H. apply list_elem_of_In. apply list_elem_of_In in H.
  eapply subseteq_take, H.
Qed.

Lemma fileStats_NoDup : NoDup fileStats.
Proof.
  rewrite fileStats_perm. apply filter_NoDup.
  eapply NoDup_fmap_1, distinct_names.
Qed.

(** A file the loop removes is one of the files picked for removal. *)
Lemma removedBy_in (f : LogFile) :
  In f files -> removedBy filesToRemove f = true ->
  In f filesToRemove /\ unlinkable f = true.
Proof.
  intros Hf H. apply existsb_exists in H as [r [Hr H]].
  apply andb_true_iff in H as [Hu E]. apply String.eqb_eq in E.
  assert (f = r) as ->; [|now split].
  apply (fileName_inj files); try assumption.
  now apply fileStats_in, filesToRemove_in.
Qed.

Lemma cleanup_eq :
  cleanupOldLogFiles config (Some files)
  = Some (if Nat.leb (length logFiles) maxFiles then files
          else List.filter (fun f => negb (removedBy filesToRemove f)) files).
Proof.
  unfold cleanupOldLogFiles. fold maxFiles logFiles.
  destruct (Nat.leb (length logFiles) maxFiles); [reflexivity|].
  now rewrite foldl_unlinkLog.
Qed.

(** What the cleanup leaves is part of what was there; a file that is no log
    file, or that cannot be unlinked, stays. *)
Lemma cleanup_keeps (kept : list LogFile) :
  cleanupOldLogFiles config (Some files) = Some kept ->
  (forall f, In f kept -> In f files)
  /\ (forall f, In f files -> isLogFile f = false \/ unlinkable f = false -> In f kept).
Proof.
  rewrite cleanup_eq. intros [= <-].
  destruct (Nat.leb (length logFiles) maxFiles); [now split|].
  split.
  - intros f Hf. now apply filter_In in Hf.
  - intros f Hf Hor. apply filter_In. split; [exact Hf|].
    apply negb_true_iff, not_true_is_false. intros Hr.
    destruct (removedBy_in f Hf Hr) as [Hin Hu].
    apply filesToRemove_in, fileStats_in in Hin as [_ Hlog].
    destruct Hor; congruence.
Qed.

(** When every log file can be unlinked, the cleanup leaves the newest
    [maxFiles] log files. *)
Lemma cleanup_newest (kept : list LogFile) :
  cleanupOldLogFiles config (Some files) = Some kept ->
  (forall f, In f files -> isLogFile f = true -> unlinkable f = true) ->
  length (List.filter isLogFile kept) = Nat.min (length (List.filter isLogFile files)) maxFiles
  /\ (forall r f, In r files -> ~ In r kept -> In f kept -> isLogFile f = true ->
                  mtime r <= mtime f).
Proof.
  rewrite cleanup_eq. intros [= <-] Hall.
  change (List.filter isLogFile files) with logFiles.
  destruct (Nat.leb_spec (length logFiles) maxFiles) as [Hle|Hgt].
  - split; [change (List.filter isLogFile files) with logFiles; lia|].
    intros r f Hr Hnr. contradiction.
  - assert (Hrem : forall r, In r filesToRemove -> removedBy filesToRemove r = true).
    { intros r Hr. apply existsb_exists. exists r. split; [exact Hr|].
      rewrite String.eqb_refl, andb_true_r.
      apply filesToRemove_in, fileStats_in in Hr as [Hr Hlog]. now apply Hall. }
    assert (Hkeep : forall f, In f (drop (length fileStats - maxFiles) fileStats) ->
                              removedBy filesToRemove f = false).
    { intros f Hf. apply not_true_is_false. intros Hr.
      assert (Hfs : In f fileStats).
      { apply list_elem_of_In. apply list_elem_of_In in Hf. eapply subseteq_drop, Hf. }
      destruct (removedBy_in f (proj1 (proj1 (fileStats_in f) Hfs)) Hr) as [Hin _].
      pose proof fileStats_NoDup as Hnd.
      rewrite <- (take_drop (length fileStats - maxFiles) fileStats) in Hnd.
      apply NoDup_app in Hnd as (_ & Hdis & _).
      apply (Hdis f); now apply list_elem_of_In. }
    split.
    + rewrite filter_swap. fold logFiles.
      rewrite (filter_perm_length _ logFiles fileStats) by (symmetry; apply fileStats_perm).
      rewrite <- (take_drop (length fileStats - maxFiles) fileStats) at 1.
      rewrite List.filter_app. fold filesToRemove.
      rewrite (filter_none _ filesToRemove), (filter_all _ (drop _ _)).
      * simpl. rewrite length_drop.
        pose proof (Permutation_length fileStats_perm). lia.
      * intros f Hf. now rewrite (Hkeep f Hf).
      * intros r Hr. now rewrite (Hrem r Hr).
    + intros r f Hr Hnr Hf Hlog.
      apply filter_In in Hf as [Hf Hkf]. apply negb_true_iff in Hkf.
      assert (Hrr : removedBy filesToRemove r = true).
      { destruct (removedBy filesToRemove r) eqn:E; [reflexivity|].
        destruct Hnr. apply filter_In. now rewrite E. }
      destruct (removedBy_in r Hr Hrr) as [Hrin _].
      assert (Hfd : In f (drop (length fileStats - maxFiles) fileStats)).
      { assert (Hfs : In f fileStats) by now apply fileStats_in.
        rewrite <- (take_drop (length fileStats - maxFiles) fileStats) in Hfs.
        apply in_app_or in Hfs as [Hft|Hfd]; [|exact Hfd].
        fold filesToRemove in Hft. rewrite (Hrem f Hft) in Hkf. discriminate. }
      enough (Z.of_nat (mtime r) <= Z.of_nat (mtime f))%Z by lia.
      apply (jsSort_take_drop olderFirst (fun f => Z.of_nat (mtime f)) olderFirst_key
               logFiles (length fileStats - maxFiles)); now apply list_elem_of_In.
Qed.

End RetentionFacts.

(** ** Audit logger: rotation *)

Local Arguments cleanupOldLogFiles : simpl never.
Local Arguments appendFile : simpl never.

Lemma rev_app_acc (s acc : string) : String.rev_app s acc = String.rev_app s "" +:+ acc.
Proof.
  revert acc. induction s as [|c s IH]; intros acc; simpl; [reflexivity|].
  rewrite (IH (String c acc)), (IH (String c "")). now rewrite string_app_assoc.
Qed.

Lemma rev_app_app (a b acc : string) :
  String.rev_app (a +:+ b) acc = String.rev_app b (String.rev_app a acc).
Proof.
  revert acc. induction a as [|c a IH]; intros acc; [reflexivity|].
  rewrite string_app_cons. simpl. apply IH.
Qed.

Lemma endsWith_app (s suf : string) : JS.endsWith (s +:+ suf) suf = true.
Proof.
  unfold JS.endsWith, String.rev. rewrite rev_app_app, rev_app_acc.
  apply startsWith_spec. now eexists.
Qed.

Lemma isLogFileName_logFileName (timestamp random : string) :
  isLogFileName (logFileName timestamp random) = true.
Proof.
  unfold isLogFileName, logFileName. apply andb_true_iff. split.
  - apply startsWith_spec. now eexists.
  - rewrite <- !string_app_assoc. apply endsWith_app.
Qed.

Lemma findFile_kept (files kept : list LogFile) (name : string) :
  (forall f, In f kept -> In f files) ->
  findFile files name = None -> findFile kept name = None.
Proof.
  rewrite !findFile_None. intros Hsub H f Hf. apply H, Hsub, Hf.
Qed.

Lemma countLogFiles_created (kept : list LogFile) (timestamp random data : string)
    (clock : nat) :
  countLogFiles (Some (kept ++ [createdFile (logFileName timestamp random) data clock]))
  = length (List.filter isLogFile kept) + 1.
Proof.
  unfold countLogFiles. simpl. rewrite List.filter_app, length_app. simpl.
  now rewrite isLogFileName_logFileName.
Qed.

Lemma log_level_filter_witness :
  writeLogEntry runStringify runConfig (runEnv 9 "T9")
    (fullService, Some fullDirectory) debugEntry
  = (fullService, Some fullDirectory)
  /\ last (inMemoryLogs
             (writeLogEntry runStringify runConfig (runEnv 9 "T9")
                (fullService, Some fullDirectory) (runEntry "r-09")).1)
     = Some (runEntry "r-09")
  /\ writtenToFile runStringify
       (writeLogEntry runStringify runConfig (runEnv 9 "T9")
          (fullService, Some fullDirectory) (runEntry "r-09"))
       (runEntry "r-09").
Proof.
  split.
  - destruct (log_level_filter runStringify runConfig (runEnv 9 "T9")
                (fullService, Some fullDirectory) debugEntry)
      as (_ & Hdrop & _ & _).
    apply Hdrop.
    + simpl. discriminate.
    + vm_compute. reflexivity.
  - destruct (log_level_filter runStringify runConfig (runEnv 9 "T9")
                (fullService, Some fullDirectory) (runEntry "r-09"))
      as (_ & _ & Hkept & _).
    destruct Hkept as [Hmem Hfile].
    + simpl. discriminate.
    + vm_compute. discriminate.
    + split; [exact Hmem|]. apply Hfile. right. discriminate.
Defined.

(** ** The scenarios of the specification, evaluated *)

Example basename_trailing_slash : NodePath.basename "/tmp/proj/.git/" = ".git".
Proof. reflexivity. Qed.

Example split_keeps_empty_fields : JS.split_slash "/a//b" = [""; "a"; ""; "b"].
Proof. reflexivity. Qed.

Example strip_one_slash : JS.stripTrailingSlash "/a/b//" = "/a/b/".
Proof. reflexivity. Qed.

Example protected_directory_with_slash :
  (isProtected literalMinimatch relativeBelow demoConfig ∅ "/tmp/proj/.git/").1 = true.
Proof. reflexivity. Qed.

Example invalidate_drops_entries_below :
  invalidateCache
    {[ "/tmp/proj/a/x" := false; "/tmp/proj/b" := false ]} "/tmp/proj/a"
  = {[ "/tmp/proj/b" := false ]}.
Proof. vm_compute. reflexivity. Qed.

Example batch_of_three_files :
  (deleteBatch literalMinimatch relativeBelow (scenarioConfig LevelInfo 50 None None)
     {| patternCache := ∅;
        disk := plainDisk {[ "/tmp/proj/a" := RegularFile; "/tmp/proj/b" := RegularFile;
                   "/tmp/proj/c" := RegularFile ]};
        loggerCalls := [] |}
     ["/tmp/proj/a"; "/tmp/proj/b"; "/tmp/proj/c"]).1
  = {| BatchDeletionResult.deleted := ["/tmp/proj/a"; "/tmp/proj/b"; "/tmp/proj/c"];
       BatchDeletionResult.failed := [];
       BatchDeletionResult.rejected := [];
       BatchDeletionResult.cancelled := None;
       BatchDeletionResult.reason := None |}.
Proof. vm_compute. reflexivity. Qed.

Example batch_with_protected_member :
  (deleteBatch literalMinimatch relativeBelow (scenarioConfig LevelInfo 50 None None)
     {| patternCache := ∅;
        disk := plainDisk {[ "/tmp/proj/a.txt" := RegularFile; "/tmp/proj/.git/HEAD" := RegularFile ]};
        loggerCalls := [] |}
     ["/tmp/proj/a.txt"; "/tmp/proj/.git/HEAD"])
  = ({| BatchDeletionResult.deleted := [];
        BatchDeletionResult.failed := [];
        BatchDeletionResult.rejected :=
          [("/tmp/proj/.git/HEAD", "Path matches protected pattern")];
        BatchDeletionResult.cancelled := Some true;
        BatchDeletionResult.reason := Some "Batch contains protected or invalid paths" |},
     {| patternCache := {[ "/tmp/proj/a.txt" := false; "/tmp/proj/.git/HEAD" := true ]};
        disk := plainDisk {[ "/tmp/proj/a.txt" := RegularFile; "/tmp/proj/.git/HEAD" := RegularFile ]};
        loggerCalls := [] |}).
Proof. vm_compute. reflexivity. Qed.

Example batch_of_fifty_one :
  BatchDeletionResult.reason
    (deleteBatch literalMinimatch relativeBelow (scenarioConfig LevelInfo 50 None None)
       {| patternCache := ∅; disk := plainDisk ∅; loggerCalls := [] |}
       (repeat "/tmp/proj/a" 51)).1
  = Some "Batch size limit exceeded"
  /\ (deleteBatch literalMinimatch relativeBelow (scenarioConfig LevelInfo 50 None None)
        {| patternCache := ∅; disk := plainDisk ∅; loggerCalls := [] |}
        (repeat "/tmp/proj/a" 51)).2
     = {| patternCache := ∅; disk := plainDisk ∅; loggerCalls := [] |}.
Proof. split; reflexivity. Qed.

Example directory_with_children_is_failed :
  (deleteDirectory literalMinimatch relativeBelow demoConfig
     {| patternCache := ∅;
        disk := plainDisk {[ "/tmp/proj/d" := Directory; "/tmp/proj/d/x" := RegularFile ]};
        loggerCalls := [] |}
     "/tmp/proj/d").1
  = {| DeletionResult.success := false;
       DeletionResult.path := Some "/tmp/proj/d";
       DeletionResult.error := Some "ENOTEMPTY: directory not empty, rmdir '/tmp/proj/d'";
       DeletionResult.reason := None |}.
Proof. vm_compute. reflexivity. Qed.

Example debug_message_below_info :
  logDebug runStringify runConfig (runEnv 9 "T9") "2026-01-01T00:00:00.000Z" "r-10"
    (fullService, Some fullDirectory) "cache cleared"
  = (fullService, Some fullDirectory).
Proof. reflexivity. Qed.

Example rejected_deletion_is_logged :
  getRecentLogs
    (logDeletion runStringify runConfig (runEnv 9 "T9") "2026-01-01T00:00:00.000Z" "r-11"
       (logDeletion runStringify runConfig (runEnv 8 "T8") "2026-01-01T00:00:00.000Z" "r-10"
          (fullService, Some fullDirectory) "/tmp/proj/a" Success None)
       "/etc/passwd" Rejected None).1 1
  = [ {| AuditLog.timestamp := "2026-01-01T00:00:00.000Z";
         AuditLog.operation := OpDelete;
         AuditLog.paths := Some ["/etc/passwd"];
         AuditLog.result := Rejected;
         AuditLog.reason := None;
         AuditLog.requestId := "r-11" |} ].
Proof. vm_compute. reflexivity. Qed.

(* ===================================================================== *)
(** * Further properties of the same code *)
(* ===================================================================== *)

(** ** Protection engine *)

Lemma includes_unfold (s sub : string) :
  JS.includes s sub
  = JS.startsWith s sub
    || match s with EmptyString => false | String _ s' => JS.includes s' sub end.
Proof. now destruct s. Qed.

Lemma includes_spec (s sub : string) :
  JS.includes s sub = true <-> exists before after, s = before +:+ sub +:+ after.
Proof.
  split.
  - induction s as [|c s IH]; rewrite includes_unfold, orb_true_iff.
    + intros [H|H]; [|discriminate]. apply startsWith_spec in H as [rest ->].
      now exists "", rest.
    + intros [H|H].
      * apply startsWith_spec in H as [rest ->]. now exists "", rest.
      * destruct (IH H) as (before & after & ->). now exists (String c before), after.
  - intros (before & after & ->). induction before as [|c before IH].
    + rewrite includes_unfold. apply orb_true_iff. left.
      apply startsWith_spec. now exists after.
    + rewrite string_app_cons, includes_unfold, IH. apply orb_true_r.
Qed.

Lemma string_app_nil_r (s : string) : s +:+ "" = s.
Proof.
  induction s as [|c s IH]; [reflexivity|]. now rewrite string_app_cons, IH.
Qed.

Lemma includes_refl (s : string) : JS.includes s s = true.
Proof. apply includes_spec. exists "", "". now rewrite string_app_nil_r. Qed.

Lemma includes_empty (s : string) : JS.includes s "" = true.
Proof. apply includes_spec. now exists "", s. Qed.

(** X1.  A second call of [isProtected] on the same path gives the answer of
    the first and leaves the cache as the first left it, whatever the cache
    held before; a call on a path within the allowed directories leaves its
    answer in the cache under that path; no other key is touched. *)
Theorem isProtected_repeat (minimatch : string -> string -> bool -> bool)
    (path_relative : string -> string -> string) (config : Configuration)
    (cache : gmap string bool) (p : string) :
  let first := isProtected minimatch path_relative config cache p in
  isProtected minimatch path_relative config first.2 p = first
  /\ (isWithinAllowedDirectories config p = true -> first.2 !! p = Some first.1)
  /\ (forall q, q <> p -> first.2 !! q = cache !! q).
Proof.
  unfold isProtected.
  destruct (isWithinAllowedDirectories config p) eqn:Hw; simpl.
  - destruct (cache !! p) as [v|] eqn:Ep; simpl.
    + rewrite ?Hw, ?Ep. simpl. now repeat split.
    + rewrite ?Hw. simpl. rewrite lookup_insert_eq. split; [reflexivity|].
      split; [reflexivity|]. intros q Hq. now rewrite lookup_insert_ne.
  - rewrite ?Hw. simpl. split; [reflexivity|]. split; [discriminate|reflexivity].
Qed.

Lemma isProtected_repeat_witness :
  (isProtected literalMinimatch relativeBelow demoConfig
     (isProtected literalMinimatch relativeBelow demoConfig ∅ "/tmp/proj/.git").2
     "/tmp/proj/.git").2 !! "/tmp/proj/.git"
  = Some true.
Proof.
  destruct (isProtected_repeat literalMinimatch relativeBelow demoConfig ∅ "/tmp/proj/.git")
    as (Hsame & Hkept & _).
  rewrite Hsame. apply Hkept. reflexivity.
Defined.

(** X2.  [invalidateCache changed] deletes exactly the entries whose key
    holds [changed] as a piece of text or is itself a piece of [changed], and
    leaves every other entry as it was.  So the entry of [changed] goes and
    so does the entry of every path that continues it; an empty [changed]
    empties the cache. *)
Theorem invalidateCache_removes (cache : gmap string bool) (changed : string) :
  (forall key,
      invalidateCache cache changed !! key
      = if JS.includes key changed || JS.includes changed key then None
        else cache !! key)
  /\ (forall key,
        (exists before after, key = before +:+ changed +:+ after)
        \/ (exists before after, changed = before +:+ key +:+ after) ->
        invalidateCache cache changed !! key = None)
  /\ invalidateCache cache changed !! changed = None
  /\ (forall rest, invalidateCache cache changed !! (changed +:+ rest) = None)
  /\ invalidateCache cache "" = ∅.
Proof.
  assert (Hlookup : forall c ch key,
             invalidateCache c ch !! key
             = if JS.includes key ch || JS.includes ch key then None else c !! key).
  { intros c ch key. unfold invalidateCache, staleKey.
    destruct (JS.includes key ch || JS.includes ch key) eqn:E.
    - apply map_lookup_filter_None. right. intros v _. simpl. now rewrite E.
    - destruct (c !! key) as [v|] eqn:Ek.
      + apply map_lookup_filter_Some. now split.
      + apply map_lookup_filter_None. now left. }
  split; [apply Hlookup|]. split; [|split; [|split]].
  - intros key H. rewrite Hlookup.
    destruct H as [H|H]; apply includes_spec in H; rewrite H; [reflexivity|].
    now rewrite orb_true_r.
  - now rewrite Hlookup, includes_refl.
  - intros rest. rewrite Hlookup.
    assert (H : JS.includes (changed +:+ rest) changed = true).
    { apply includes_spec. now exists "", rest. }
    now rewrite H.
  - apply map_eq. intros key. now rewrite Hlookup, includes_empty, lookup_empty.
Qed.

Lemma invalidateCache_removes_witness :
  invalidateCache {[ "/tmp/proj/a/x" := false; "/tmp/proj/b" := false ]} "/tmp/proj/a"
    !! "/tmp/proj/a/x" = None.
Proof.
  destruct (invalidateCache_removes
              {[ "/tmp/proj/a/x" := false; "/tmp/proj/b" := false ]} "/tmp/proj/a")
    as (_ & Hpiece & _).
  apply Hpiece. left. now exists "", "/x".
Defined.

Lemma validateAllowedDirectories_fold (disk : Disk) (dirs acc : list string) :
  foldl (fun validDirectories dir =>
           if existsSync disk dir then validDirectories ++ [dir] else validDirectories)
        acc dirs
  = acc ++ List.filter (existsSync disk) dirs.
Proof.
  revert acc. induction dirs as [|d dirs IH]; intros acc; simpl.
  - now rewrite app_nil_r.
  - rewrite IH. destruct (existsSync disk d); [|reflexivity].
    now rewrite <- app_assoc.
Qed.

(** X3.  [validateAllowedDirectories] returns the configured directories
    that are on the disk and no others, in the configured order; each of
    them is within the allowed directories.  The scope check itself does not
    look at the disk: a configured directory that is missing is left out of
    the list and is still within scope. *)
Theorem validateAllowedDirectories_spec (config : Configuration)
    (disk : Disk) :
  validateAllowedDirectories config disk
  = List.filter (existsSync disk) (allowedDirectories config)
  /\ (forall d, In d (validateAllowedDirectories config disk) <->
                In d (allowedDirectories config) /\ existsSync disk d = true)
  /\ (forall d, In d (validateAllowedDirectories config disk) ->
                isWithinAllowedDirectories config d = true)
  /\ (forall d, In d (allowedDirectories config) -> existsSync disk d = false ->
                ~ In d (validateAllowedDirectories config disk)
                /\ isWithinAllowedDirectories config d = true).
Proof.
  assert (E : validateAllowedDirectories config disk
              = List.filter (existsSync disk) (allowedDirectories config)).
  { unfold validateAllowedDirectories. now rewrite validateAllowedDirectories_fold. }
  assert (Hscope : forall d, In d (allowedDirectories config) ->
                             isWithinAllowedDirectories config d = true).
  { intros d Hd. apply isWithin_spec. exists d. split; [exact Hd | now left]. }
  split; [exact E|]. rewrite E. split; [|split].
  - intros d. apply filter_In.
  - intros d Hd. apply filter_In in Hd as [Hd _]. now apply Hscope.
  - intros d Hd Hmiss. split; [|now apply Hscope].
    intros Hin. apply filter_In in Hin as [_ Hex]. congruence.
Qed.

(** ** Deletion service: single deletions *)

Lemma unlink_inl (d d' : Disk) (p : string) :
  unlink d p = inl d' ->
  d' = removeEntry d p /\ d !! p = Some RegularFile
  /\ refuses d (realpath d p) = None.
Proof.
  unfold unlink. destruct (d !! p) as [[|]|]; try discriminate.
  destruct (refuses d (realpath d p)); [discriminate|]. now intros [= <-].
Qed.

(** A regular file the disk does not let go. *)
Lemma unlink_refused (d : Disk) (p message : string) :
  d !! p = Some RegularFile -> refuses d (realpath d p) = Some message ->
  unlink d p = inr message.
Proof. unfold unlink. now intros -> ->. Qed.

Lemma hasChildren_false (d : Disk) (p : string) :
  hasChildren d p = false <->
  forall k v, entries d !! k = Some v -> JS.startsWith k (realpath d p +:+ "/") = false.
Proof.
  unfold hasChildren. split.
  - intros H k v Hk. apply not_true_is_false. intros Hs.
    apply not_true_iff_false in H. apply H, existsb_exists.
    exists (k, v). split; [|exact Hs].
    now apply list_elem_of_In, elem_of_map_to_list.
  - intros H. apply not_true_is_false. intros He.
    apply existsb_exists in He as [[k v] [Hin Hs]].
    apply list_elem_of_In, elem_of_map_to_list in Hin. simpl in Hs.
    rewrite (H k v Hin) in Hs. discriminate.
Qed.

Lemma rmdir_inl (d d' : Disk) (p : string) :
  rmdir d p = inl d' ->
  d' = removeEntry d p /\ d !! p = Some Directory /\ hasChildren d p = false
  /\ refuses d (realpath d p) = None.
Proof.
  unfold rmdir. destruct (d !! p) as [[|]|]; try discriminate.
  destruct (hasChildren d p); [discriminate|].
  destruct (refuses d (realpath d p)); [discriminate|]. now intros [= <-].
Qed.

(** Removing an entry leaves every other entry, and the way paths resolve,
    as they were. *)
Lemma removeEntry_entries (d : Disk) (p key : string) :
  key <> realpath d p -> entries (removeEntry d p) !! key = entries d !! key.
Proof. intros Hne. simpl. now apply lookup_delete_ne. Qed.

Lemma removeEntry_gone (d : Disk) (p : string) :
  entries (removeEntry d p) !! realpath d p = None.
Proof. simpl. apply lookup_delete_eq. Qed.

Section SingleDeletionFacts.

Variable minimatch : string -> string -> bool -> bool.
Variable path_relative : string -> string -> string.
Variable config : Configuration.

Local Abbreviation validated := (validatePath minimatch path_relative config).
Local Abbreviation deleting := (deleteWith minimatch path_relative config).

Lemma valid_verdict (cache : gmap string bool) (p : string) :
  ValidationResult.valid (validated cache p).1 = true ->
  NodePath.isAbsolute p = true
  /\ isWithinAllowedDirectories config p = true
  /\ (isProtected minimatch path_relative config cache p).1 = false.
Proof.
  rewrite validatePath_eq.
  destruct (NodePath.isAbsolute p); simpl; [|discriminate].
  destruct (getMatchingAllowedDirectory config p) as [d|] eqn:Em; simpl; [|discriminate].
  destruct (isProtected minimatch path_relative config cache p).1; simpl; [discriminate|].
  intros _. split; [reflexivity|]. split; [|reflexivity].
  destruct (isWithinAllowedDirectories config p) eqn:E; [reflexivity|].
  apply getMatching_None in E. congruence.
Qed.

(** The four ways a deletion ends. *)
Lemma deleteWith_cases remove (notFound context : string) (w : World) (p : string) :
  let v := validated (patternCache w) p in
  let w1 := withCache w v.2 in
  (ValidationResult.valid v.1 = false
   /\ deleting remove notFound context w p
      = ({| DeletionResult.success := false; DeletionResult.path := Some p;
            DeletionResult.error := None;
            DeletionResult.reason := ValidationResult.reason v.1 |},
         logged w1 (LogDeletion p Rejected)))
  \/ (ValidationResult.valid v.1 = true /\ existsSync (disk w) p = false
      /\ deleting remove notFound context w p
         = (notFoundResult p notFound, logged w1 (LogDeletion p Failed)))
  \/ (ValidationResult.valid v.1 = true /\ existsSync (disk w) p = true
      /\ exists disk', remove (disk w) p = inl disk'
         /\ deleting remove notFound context w p
            = ({| DeletionResult.success := true; DeletionResult.path := Some p;
                  DeletionResult.error := None; DeletionResult.reason := None |},
               logged (withDisk w1 disk') (LogDeletion p Success)))
  \/ (ValidationResult.valid v.1 = true /\ existsSync (disk w) p = true
      /\ exists message, remove (disk w) p = inr message
         /\ deleting remove notFound context w p
            = ({| DeletionResult.success := false; DeletionResult.path := Some p;
                  DeletionResult.error := Some message; DeletionResult.reason := None |},
               logged w1 (LogError message (context +:+ p)))).
Proof.
  simpl. unfold deleteWith.
  destruct (validated (patternCache w) p) as [v c']. simpl.
  destruct (ValidationResult.valid v); simpl; [|now left].
  destruct (existsSync (disk w) p); simpl; [|right; left; now repeat split].
  destruct (remove (disk w) p) as [disk'|message].
  - right; right; left. repeat split. now exists disk'.
  - right; right; right. repeat split. now exists message.
Qed.

End SingleDeletionFacts.

(** X4.  Whatever the removal call does, a single deletion returns its
    target as [path] and one of three shapes: success with neither [error]
    nor [reason]; failure with an [error] and no [reason]; rejection with a
    [reason] and no [error].  Each adds exactly one call to the logger:
    [success], [failed] or the error itself, or [rejected]. *)
Theorem deletion_result_shape (minimatch : string -> string -> bool -> bool)
    (path_relative : string -> string -> string) (config : Configuration)
    (remove : Disk -> string -> Disk + string)
    (notFound context : string) (w : World) (p : string) :
  let out := deleteWith minimatch path_relative config remove notFound context w p in
  DeletionResult.path out.1 = Some p
  /\ ((DeletionResult.success out.1 = true
       /\ DeletionResult.error out.1 = None /\ DeletionResult.reason out.1 = None
       /\ loggerCalls out.2 = loggerCalls w ++ [LogDeletion p Success])
      \/ (DeletionResult.success out.1 = false
          /\ DeletionResult.reason out.1 = None
          /\ exists message,
               DeletionResult.error out.1 = Some message
               /\ (loggerCalls out.2 = loggerCalls w ++ [LogDeletion p Failed]
                   \/ loggerCalls out.2
                      = loggerCalls w ++ [LogError message (context +:+ p)]))
      \/ (DeletionResult.success out.1 = false
          /\ DeletionResult.error out.1 = None
          /\ (exists text, DeletionResult.reason out.1 = Some text)
          /\ loggerCalls out.2 = loggerCalls w ++ [LogDeletion p Rejected])).
Proof.
  simpl.
  destruct (deleteWith_cases minimatch path_relative config remove notFound context w p)
    as [(Hv & ->)|[(_ & _ & ->)|[(_ & _ & d' & _ & ->)|(_ & _ & m & _ & ->)]]]; simpl.
  - split; [reflexivity|]. right; right. repeat split.
    destruct (validatePath_cases minimatch path_relative config (patternCache w) p)
      as [E|[E|[E|[d E]]]]; simpl in E; rewrite E in *; simpl; try (eexists; reflexivity).
    discriminate Hv.
  - split; [reflexivity|]. right; left. repeat split. exists notFound. now split; [|left].
  - split; [reflexivity|]. left. now repeat split.
  - split; [reflexivity|]. right; left. repeat split. exists m. now split; [|right].
Qed.

(** What [deleteFile] does to the disk. *)
Lemma deleteFile_outcome (minimatch : string -> string -> bool -> bool)
    (path_relative : string -> string -> string) (config : Configuration)
    (w : World) (p : string) :
  let out := deleteFile minimatch path_relative config w p in
  (DeletionResult.success out.1 = false /\ disk out.2 = disk w)
  \/ (DeletionResult.success out.1 = true
      /\ disk out.2 = removeEntry (disk w) p
      /\ disk w !! p = Some RegularFile
      /\ refuses (disk w) (realpath (disk w) p) = None
      /\ NodePath.isAbsolute p = true
      /\ isWithinAllowedDirectories config p = true
      /\ (isProtected minimatch path_relative config (patternCache w) p).1 = false).
Proof.
  intros out. subst out. unfold deleteFile.
  destruct (deleteWith_cases minimatch path_relative config unlink
              "File not found" "deleteFile: " w p)
    as [(_ & ->)|[(_ & _ & ->)|[(Hv & _ & d' & Hu & ->)|(_ & _ & m & _ & ->)]]]; simpl;
    try (left; now split).
  right. apply unlink_inl in Hu as (-> & Hfile & Hfree).
  destruct (valid_verdict minimatch path_relative config _ _ Hv) as (Ha & Hs & Hp).
  now repeat split.
Qed.

(** X5.  [deleteFile] changes the disk only when it reports success, and
    then by removing one entry: the regular file its target leads to, which
    the disk let go.  It reports success only for a target that is absolute,
    lies as written within the allowed directories and is not protected; a
    call whose path is, as written, outside the allowed directories changes
    nothing, and a file the disk refuses to let go stays.  The checks read
    the text of the path, the entry removed is where the file system takes
    that text, and no other entry changes; a valid path that leads to a
    regular file the disk lets go is removed, wherever it leads (see
    [deleteFile_follows_resolution]).  Under a coherent cache no pattern
    matches the text of a path that is removed. *)
Theorem deleteFile_touches_only_target (minimatch : string -> string -> bool -> bool)
    (path_relative : string -> string -> string) (config : Configuration)
    (w : World) (p : string) :
  let out := deleteFile minimatch path_relative config w p in
  let target := realpath (disk w) p in
  ((DeletionResult.success out.1 = false /\ disk out.2 = disk w)
   \/ (DeletionResult.success out.1 = true
       /\ disk out.2 = removeEntry (disk w) p
       /\ entries (disk w) !! target = Some RegularFile
       /\ entries (disk out.2) !! target = None
       /\ refuses (disk w) target = None
       /\ NodePath.isAbsolute p = true
       /\ isWithinAllowedDirectories config p = true
       /\ (isProtected minimatch path_relative config (patternCache w) p).1 = false))
  /\ (forall key, key <> target -> entries (disk out.2) !! key = entries (disk w) !! key)
  /\ (isWithinAllowedDirectories config p = false -> disk out.2 = disk w)
  /\ (forall message,
        refuses (disk w) target = Some message ->
        DeletionResult.success out.1 = false /\ disk out.2 = disk w)
  /\ (ValidationResult.valid
        (validatePath minimatch path_relative config (patternCache w) p).1 = true ->
      entries (disk w) !! target = Some RegularFile ->
      refuses (disk w) target = None ->
      DeletionResult.success out.1 = true)
  /\ (cacheCoherent minimatch path_relative config (patternCache w) ->
      DeletionResult.success out.1 = true ->
      evaluatePatterns minimatch path_relative config p = false).
Proof.
  intros out target.
  pose proof (deleteFile_outcome minimatch path_relative config w p) as Hmain.
  cbv zeta in Hmain. fold out in Hmain.
  split; [|split; [|split; [|split; [|split]]]].
  - destruct Hmain as [H|(Hs & Hd & Hf & Hfree & Ha & Hin & Hp)]; [now left|].
    right. split; [exact Hs|]. split; [exact Hd|]. split; [exact Hf|].
    split; [|now repeat split]. rewrite Hd. apply removeEntry_gone.
  - intros key Hkey. destruct Hmain as [[_ ->]|(_ & -> & _)]; [reflexivity|].
    now apply removeEntry_entries.
  - intros Hout. destruct Hmain as [[_ ->]|(_ & _ & _ & _ & _ & Hs & _)];
      [reflexivity | congruence].
  - intros message Hm. destruct Hmain as [H|(_ & _ & _ & Hfree & _)]; [exact H|].
    subst target. congruence.
  - intros Hv Hfile Hfree. subst out target. unfold deleteFile.
    destruct (deleteWith_cases minimatch path_relative config unlink
                "File not found" "deleteFile: " w p)
      as [(Hv' & _)|[(_ & He & _)|[(_ & _ & d' & _ & ->)|(_ & _ & m & Hu & _)]]].
    + congruence.
    + unfold existsSync in He. change (disk w !! p) with
        (entries (disk w) !! realpath (disk w) p) in He. now rewrite Hfile in He.
    + reflexivity.
    + unfold unlink in Hu. change (disk w !! p) with
        (entries (disk w) !! realpath (disk w) p) in Hu.
      rewrite Hfile, Hfree in Hu. discriminate.
  - intros Hc Hs. destruct Hmain as [[Hf _]|(_ & _ & _ & _ & _ & Hin & Hp)]; [congruence|].
    destruct (isProtected_coherent minimatch path_relative config _ p Hc) as [_ Hfresh].
    rewrite Hfresh, isProtected_fresh, Hin in Hp. exact Hp.
Qed.

Lemma deleteFile_touches_only_target_witness :
  evaluatePatterns literalMinimatch relativeBelow demoConfig "/tmp/proj/a" = false.
Proof.
  set (w := {| patternCache := ∅; disk := plainDisk {[ "/tmp/proj/a" := RegularFile ]};
               loggerCalls := [] |}).
  destruct (deleteFile_touches_only_target literalMinimatch relativeBelow demoConfig
              w "/tmp/proj/a") as (_ & _ & _ & _ & _ & Hpat).
  apply Hpat.
  - intros k v H. subst w. simpl in H. now rewrite lookup_empty in H.
  - vm_compute. reflexivity.
Defined.

(** X6.  [deleteDirectory] changes the disk only when it reports success,
    and then by removing one entry: the directory its target leads to, which
    had no entry below it and which the disk let go; the target passed the
    same checks as a file does.  A directory with an entry below it is left
    alone, and no other entry is ever changed. *)
Theorem deleteDirectory_only_empty (minimatch : string -> string -> bool -> bool)
    (path_relative : string -> string -> string) (config : Configuration)
    (w : World) (p : string) :
  let out := deleteDirectory minimatch path_relative config w p in
  let target := realpath (disk w) p in
  ((DeletionResult.success out.1 = false /\ disk out.2 = disk w)
   \/ (DeletionResult.success out.1 = true
       /\ disk out.2 = removeEntry (disk w) p
       /\ entries (disk w) !! target = Some Directory
       /\ entries (disk out.2) !! target = None
       /\ (forall key v, entries (disk w) !! key = Some v ->
                         JS.startsWith key (target +:+ "/") = false)
       /\ refuses (disk w) target = None
       /\ NodePath.isAbsolute p = true
       /\ isWithinAllowedDirectories config p = true
       /\ (isProtected minimatch path_relative config (patternCache w) p).1 = false))
  /\ (forall key, key <> target -> entries (disk out.2) !! key = entries (disk w) !! key)
  /\ (forall child v, entries (disk w) !! (target +:+ "/" +:+ child) = Some v ->
                      DeletionResult.success out.1 = false /\ disk out.2 = disk w).
Proof.
  intros out target.
  assert (Hmain : (DeletionResult.success out.1 = false /\ disk out.2 = disk w)
     \/ (DeletionResult.success out.1 = true
         /\ disk out.2 = removeEntry (disk w) p
         /\ entries (disk w) !! target = Some Directory
         /\ entries (disk out.2) !! target = None
         /\ (forall key v, entries (disk w) !! key = Some v ->
                           JS.startsWith key (target +:+ "/") = false)
         /\ refuses (disk w) target = None
         /\ NodePath.isAbsolute p = true
         /\ isWithinAllowedDirectories config p = true
         /\ (isProtected minimatch path_relative config (patternCache w) p).1 = false)).
  { subst out. unfold deleteDirectory.
    destruct (deleteWith_cases minimatch path_relative config rmdir
                "Directory not found" "deleteDirectory: " w p)
      as [(_ & ->)|[(_ & _ & ->)|[(Hv & _ & d' & Hu & ->)|(_ & _ & m & _ & ->)]]]; simpl;
      try (left; now split).
    right. apply rmdir_inl in Hu as (-> & Hdir & Hch & Hfree).
    destruct (valid_verdict minimatch path_relative config _ _ Hv) as (Ha & Hs & Hp).
    split; [reflexivity|]. split; [reflexivity|]. split; [exact Hdir|].
    split; [apply lookup_delete_eq|]. split; [now apply hasChildren_false|].
    now repeat split. }
  split; [exact Hmain|]. split.
  - intros key Hkey. destruct Hmain as [[_ ->]|(_ & -> & _)]; [reflexivity|].
    now apply removeEntry_entries.
  - intros child v Hchild. destruct Hmain as [H|(_ & _ & _ & _ & Hnone & _)]; [exact H|].
    specialize (Hnone _ _ Hchild).
    assert (Hs : JS.startsWith (target +:+ "/" +:+ child) (target +:+ "/") = true).
    { apply startsWith_spec. exists child. now rewrite string_app_assoc. }
    congruence.
Qed.

(** ** Deletion service: what a batch does to the disk *)

Lemma filter_split_perm {A : Type} (f : A -> bool) (l : list A) :
  List.filter f l ++ List.filter (fun x => negb (f x)) l ≡ₚ l.
Proof.
  induction l as [|x l IH]; simpl; [done|].
  destruct (f x); simpl.
  - now rewrite IH.
  - rewrite <- Permutation_middle. now rewrite IH.
Qed.

Section BatchFacts.

Variable minimatch : string -> string -> bool -> bool.
Variable path_relative : string -> string -> string.
Variable config : Configuration.

Local Abbreviation running := (runDeletions minimatch path_relative config).
Local Abbreviation outcomes := (deletionResults minimatch path_relative config).
Local Abbreviation removing := (deleteFile minimatch path_relative config).

Lemma runDeletions_cons (w : World) (q : string) (rest : list string) :
  running w (q :: rest)
  = (Fulfilled (q, (removing w q).1) :: (running (removing w q).2 rest).1,
     (running (removing w q).2 rest).2).
Proof.
  simpl. destruct (removing w q) as [r w1]. simpl.
  now destruct (running w1 rest).
Qed.

(** One deletion: the disk is as before, or the entry the target leads to,
    a regular file, is gone and the deletion succeeded. *)
Lemma deleteFile_disk (w : World) (q : string) :
  (DeletionResult.success (removing w q).1 = false /\ disk (removing w q).2 = disk w)
  \/ (DeletionResult.success (removing w q).1 = true
      /\ disk (removing w q).2 = removeEntry (disk w) q
      /\ disk w !! q = Some RegularFile).
Proof.
  destruct (deleteFile_outcome minimatch path_relative config w q)
    as [H|(Hs & Hd & Hf & _)]; [now left | now right].
Qed.

(** Deletions leave the way paths resolve as it was. *)
Lemma deleteFile_realpath (w : World) (q : string) :
  realpath (disk (removing w q).2) = realpath (disk w).
Proof.
  destruct (deleteFile_disk w q) as [[_ ->]|(_ & -> & _)]; reflexivity.
Qed.

Lemma runDeletions_realpath (validPaths : list string) (w : World) :
  realpath (disk (running w validPaths).2) = realpath (disk w).
Proof.
  revert w. induction validPaths as [|p rest IH]; intros w; [reflexivity|].
  rewrite runDeletions_cons. simpl. now rewrite IH, deleteFile_realpath.
Qed.

(** After the deletions of a list, an entry is on the disk as before, or it
    was a regular file, is gone, and one of the deletions that succeeded was
    of a path that leads to it. *)
Lemma runDeletions_entries (validPaths : list string) (w : World) (key : string) :
  entries (disk (running w validPaths).2) !! key = entries (disk w) !! key
  \/ (entries (disk (running w validPaths).2) !! key = None
      /\ entries (disk w) !! key = Some RegularFile
      /\ exists p r, In (p, r) (outcomes w validPaths)
                     /\ realpath (disk w) p = key
                     /\ DeletionResult.success r = true).
Proof.
  revert w. induction validPaths as [|p rest IH]; intros w; [now left|].
  rewrite runDeletions_cons. simpl.
  pose proof (deleteFile_realpath w p) as Hre.
  destruct (deleteFile_disk w p) as [[Hs Hd]|(Hs & Hd & Hf)];
    destruct (IH (removing w p).2) as [Heq|(Hnone & Hwas & p' & r & Hin & Hkey & Hr)].
  - left. now rewrite Heq, Hd.
  - right. split; [exact Hnone|]. rewrite Hd in Hwas. split; [exact Hwas|].
    exists p', r. split; [now right|]. split; [|exact Hr]. now rewrite <- Hre.
  - destruct (decide (key = realpath (disk w) p)) as [->|Hne].
    + right. rewrite Heq, Hd, removeEntry_gone. split; [reflexivity|].
      split; [exact Hf|]. exists p, (removing w p).1.
      split; [now left|]. split; [reflexivity | exact Hs].
    + left. rewrite Heq, Hd. now apply removeEntry_entries.
  - right. split; [exact Hnone|]. rewrite Hd in Hwas.
    assert (Hne : key <> realpath (disk w) p).
    { intros ->. rewrite removeEntry_gone in Hwas. discriminate. }
    rewrite removeEntry_entries in Hwas by exact Hne. split; [exact Hwas|].
    exists p', r. split; [now right|]. split; [|exact Hr]. now rewrite <- Hre.
Qed.

(** A deletion that succeeded: the path led to a regular file and leads to
    nothing at the end. *)
Lemma outcomes_success (validPaths : list string) (w : World) (p : string)
    (r : DeletionResult.t) :
  In (p, r) (outcomes w validPaths) -> DeletionResult.success r = true ->
  disk w !! p = Some RegularFile /\ disk (running w validPaths).2 !! p = None.
Proof.
  revert w. induction validPaths as [|q rest IH]; intros w; [intros []|].
  rewrite runDeletions_cons. simpl.
  intros [[= -> <-]|Hin] Hs.
  - destruct (deleteFile_disk w p) as [[Hf _]|(_ & Hd & Hfile)]; [congruence|].
    split; [exact Hfile|].
    unfold lookup, Disk_lookup.
    rewrite runDeletions_realpath, deleteFile_realpath.
    destruct (runDeletions_entries rest (removing w p).2 (realpath (disk w) p))
      as [Heq|[Hnone _]]; [|exact Hnone].
    rewrite Heq, Hd. apply removeEntry_gone.
  - destruct (IH _ Hin Hs) as [Hwas Hgone]. split; [|exact Hgone].
    destruct (deleteFile_disk w q) as [[_ Hd]|(_ & Hd & _)]; rewrite Hd in Hwas;
      [exact Hwas|].
    rewrite lookup_removed in Hwas.
    now destruct (decide (realpath (disk w) q = realpath (disk w) p)).
Qed.

Lemma deleted_NoDup (validPaths : list string) (w : World) :
  NoDup (map fst (List.filter (fun pr => DeletionResult.success pr.2)
                              (outcomes w validPaths))).
Proof.
  revert w. induction validPaths as [|q rest IH]; intros w; simpl; [constructor|].
  destruct (DeletionResult.success (removing w q).1) eqn:Hs; [|apply IH].
  simpl. constructor; [|apply IH].
  intros Hin. apply list_elem_of_In, in_map_iff in Hin as [[p r] [Hp Hin]].
  simpl in Hp. subst p. apply filter_In in Hin as [Hin Hr]. simpl in Hr.
  destruct (outcomes_success rest _ q r Hin Hr) as [Hwas _].
  destruct (deleteFile_disk w q) as [[Hf _]|(_ & Hd & _)]; [congruence|].
  rewrite Hd, lookup_removed_same in Hwas. discriminate.
Qed.

(** The three ways [deleteBatch] ends. *)
Lemma deleteBatch_cases (w : World) (paths : list string) :
  let v := validateBatch minimatch path_relative config (patternCache w) paths in
  let w1 := withCache w v.2 in
  let prs := outcomes w1 paths in
  (maxBatchSize config < length paths
   /\ deleteBatch minimatch path_relative config w paths
      = ({| BatchDeletionResult.deleted := [];
            BatchDeletionResult.failed := [];
            BatchDeletionResult.rejected :=
              map (fun p => (p, batchSizeReason config)) paths;
            BatchDeletionResult.cancelled := Some true;
            BatchDeletionResult.reason := Some "Batch size limit exceeded" |}, w))
  \/ (length paths <= maxBatchSize config
      /\ BatchValidationResult.valid v.1 = false
      /\ deleteBatch minimatch path_relative config w paths
         = ({| BatchDeletionResult.deleted := [];
               BatchDeletionResult.failed := [];
               BatchDeletionResult.rejected :=
                 BatchValidationResult.invalidPaths v.1
                 ++ BatchValidationResult.protectedPaths v.1;
               BatchDeletionResult.cancelled := Some true;
               BatchDeletionResult.reason :=
                 Some "Batch contains protected or invalid paths" |}, w1))
  \/ (length paths <= maxBatchSize config
      /\ BatchValidationResult.valid v.1 = true
      /\ deleteBatch minimatch path_relative config w paths
         = ({| BatchDeletionResult.deleted :=
                 map fst (List.filter (fun pr => DeletionResult.success pr.2) prs);
               BatchDeletionResult.failed :=
                 map (fun pr => (pr.1, firstDefined (DeletionResult.error pr.2)
                                                    (DeletionResult.reason pr.2)))
                     (List.filter (fun pr => negb (DeletionResult.success pr.2)) prs);
               BatchDeletionResult.rejected := [];
               BatchDeletionResult.cancelled := None;
               BatchDeletionResult.reason := None |},
            (running w1 paths).2)).
Proof.
  intros v w1 prs. subst prs w1 v.
  destruct (Nat.ltb_spec (maxBatchSize config) (length paths)) as [Hlt|Hle].
  - left. split; [exact Hlt|]. unfold deleteBatch.
    destruct (Nat.ltb_spec (maxBatchSize config) (length paths)); [reflexivity|lia].
  - right.
    destruct (BatchValidationResult.valid
                (validateBatch minimatch path_relative config (patternCache w) paths).1)
      eqn:Hv.
    + right. split; [exact Hle|]. split; [reflexivity|].
      pose proof (deleteBatch_executes minimatch path_relative config w paths Hle Hv) as He.
      cbv zeta in He.
      assert (H2 : (deleteBatch minimatch path_relative config w paths).2
                   = (running (withCache w
                                 (validateBatch minimatch path_relative config
                                    (patternCache w) paths).2) paths).2).
      { destruct (validateBatch_all_valid minimatch path_relative config _ _ Hv)
          as [Hvp _].
        unfold deleteBatch.
        destruct (Nat.ltb_spec (maxBatchSize config) (length paths)); [lia|].
        destruct (validateBatch minimatch path_relative config (patternCache w) paths)
          as [validation cache']. cbn [fst snd] in *. rewrite Hv, Hvp. cbn [negb].
        destruct (runDeletions minimatch path_relative config (withCache w cache') paths)
          as [results w2]. cbn [fst snd].
        now destruct (classify paths results). }
      destruct (deleteBatch minimatch path_relative config w paths) as [r w'].
      cbn [fst snd] in He, H2. now rewrite He, H2.
    + left. split; [exact Hle|]. split; [reflexivity|]. unfold deleteBatch.
      destruct (Nat.ltb_spec (maxBatchSize config) (length paths)); [lia|].
      destruct (validateBatch minimatch path_relative config (patternCache w) paths)
        as [validation cache']. simpl in *. now rewrite Hv.
Qed.

End BatchFacts.

(** X7.  Whatever the batch, the cache and the disk are, [deleteBatch]
    leaves every entry of the disk as it was, except entries that were
    regular files and to which a member of the batch that is reported in
    [deleted] leads; and it removes anything only when the batch is within
    the size limit and every one of its members is absolute, lies as written
    within the allowed directories and is not protected.  The entry need not
    be a member itself: it is where the file system takes the member. *)
Theorem deleteBatch_removes_only_validated
    (minimatch : string -> string -> bool -> bool)
    (path_relative : string -> string -> string) (config : Configuration)
    (w : World) (paths : list string) (key : string) :
  let out := deleteBatch minimatch path_relative config w paths in
  entries (disk out.2) !! key = entries (disk w) !! key
  \/ (entries (disk out.2) !! key = None
      /\ entries (disk w) !! key = Some RegularFile
      /\ (exists p, In p paths
                    /\ realpath (disk w) p = key
                    /\ In p (BatchDeletionResult.deleted out.1))
      /\ length paths <= maxBatchSize config
      /\ forall p, In p paths ->
                   NodePath.isAbsolute p = true
                   /\ isWithinAllowedDirectories config p = true
                   /\ (isProtected minimatch path_relative config (patternCache w) p).1
                      = false).
Proof.
  intros out. subst out.
  destruct (deleteBatch_cases minimatch path_relative config w paths)
    as [(_ & ->)|[(_ & _ & ->)|(Hle & Hv & ->)]]; simpl; try now left.
  set (w1 := withCache w (validateBatch minimatch path_relative config
                            (patternCache w) paths).2).
  destruct (runDeletions_entries minimatch path_relative config paths w1 key)
    as [Heq|(Hnone & Hwas & p & r & Hin & Hkey & Hr)]; [now left|].
  right. split; [exact Hnone|]. split; [exact Hwas|]. split; [|split].
  - exists p. split; [|split; [exact Hkey|]].
    + rewrite <- (outcomes_paths minimatch path_relative config w1 paths).
      apply in_map_iff. now exists (p, r).
    + apply in_map_iff. exists (p, r). split; [reflexivity|]. now apply filter_In.
  - exact Hle.
  - intros p' Hp. apply valid_verdict.
    now apply (validateBatch_all_valid minimatch path_relative config _ _ Hv).
Qed.

(** X8.  In a batch that is within the limit and fully valid, every member
    is reported once, in [deleted] or in [failed], and none in [rejected];
    the batch is not marked cancelled.  No path is reported deleted twice,
    and a path reported deleted was a regular file and is gone from the disk
    when the batch ends. *)
Theorem deleteBatch_accounting (minimatch : string -> string -> bool -> bool)
    (path_relative : string -> string -> string) (config : Configuration)
    (w : World) (paths : list string) :
  length paths <= maxBatchSize config ->
  BatchValidationResult.valid
    (validateBatch minimatch path_relative config (patternCache w) paths).1 = true ->
  let out := deleteBatch minimatch path_relative config w paths in
  BatchDeletionResult.rejected out.1 = []
  /\ BatchDeletionResult.cancelled out.1 = None
  /\ BatchDeletionResult.reason out.1 = None
  /\ BatchDeletionResult.deleted out.1 ++ map fst (BatchDeletionResult.failed out.1)
     ≡ₚ paths
  /\ NoDup (BatchDeletionResult.deleted out.1)
  /\ (forall p, In p (BatchDeletionResult.deleted out.1) ->
                disk w !! p = Some RegularFile /\ disk out.2 !! p = None).
Proof.
  intros Hle Hv out. subst out.
  destruct (deleteBatch_cases minimatch path_relative config w paths)
    as [(Hlt & _)|[(_ & Hf & _)|(_ & _ & ->)]]; [lia|congruence|].
  cbn [fst snd BatchDeletionResult.rejected BatchDeletionResult.cancelled
       BatchDeletionResult.reason BatchDeletionResult.deleted
       BatchDeletionResult.failed].
  set (w1 := withCache w (validateBatch minimatch path_relative config
                            (patternCache w) paths).2).
  set (prs := deletionResults minimatch path_relative config w1 paths).
  split; [reflexivity|]. split; [reflexivity|]. split; [reflexivity|].
  split; [|split].
  - assert (E : forall l : list (string * DeletionResult.t),
               map fst (map (fun pr => (pr.1, firstDefined (DeletionResult.error pr.2)
                                                          (DeletionResult.reason pr.2))) l)
               = map fst l).
    { intros l. rewrite map_map. now apply map_ext. }
    rewrite E, <- map_app.
    transitivity (map fst prs).
    + apply Permutation_map, filter_split_perm.
    + subst prs. now rewrite outcomes_paths.
  - apply deleted_NoDup.
  - intros p Hp. apply in_map_iff in Hp as [[p' r] [E Hin]]. simpl in E. subst p'.
    apply filter_In in Hin as [Hin Hr].
    exact (outcomes_success minimatch path_relative config paths _ p r Hin Hr).
Qed.

Lemma deleteBatch_accounting_witness :
  BatchDeletionResult.deleted
    (deleteBatch literalMinimatch relativeBelow demoConfig
       {| patternCache := ∅; disk := plainDisk {[ "/tmp/proj/a" := RegularFile ]};
          loggerCalls := [] |}
       ["/tmp/proj/a"; "/tmp/proj/a"]).1
  ++ map fst
       (BatchDeletionResult.failed
          (deleteBatch literalMinimatch relativeBelow demoConfig
             {| patternCache := ∅; disk := plainDisk {[ "/tmp/proj/a" := RegularFile ]};
                loggerCalls := [] |}
             ["/tmp/proj/a"; "/tmp/proj/a"]).1)
  ≡ₚ ["/tmp/proj/a"; "/tmp/proj/a"].
Proof.
  set (w := {| patternCache := ∅; disk := plainDisk {[ "/tmp/proj/a" := RegularFile ]};
               loggerCalls := [] |}).
  assert (Hle : length ["/tmp/proj/a"; "/tmp/proj/a"] <= maxBatchSize demoConfig)
    by (simpl; lia).
  assert (Hv : BatchValidationResult.valid
                 (validateBatch literalMinimatch relativeBelow demoConfig
                    (patternCache w) ["/tmp/proj/a"; "/tmp/proj/a"]).1 = true)
    by (vm_compute; reflexivity).
  exact (proj1 (proj2 (proj2 (proj2
           (deleteBatch_accounting literalMinimatch relativeBelow demoConfig w
              ["/tmp/proj/a"; "/tmp/proj/a"] Hle Hv))))).
Defined.

(** X9.  The result of [deleteBatch] is of one of two kinds.  Cancelled: the
    flag is true, a reason is given, nothing is deleted or failed, at least
    one path is rejected, and the disk and the logger are untouched.
    Executed: no flag, no reason, nothing rejected.  Every rejected path is a
    member of the batch. *)
Theorem deleteBatch_result_invariant (minimatch : string -> string -> bool -> bool)
    (path_relative : string -> string -> string) (config : Configuration)
    (w : World) (paths : list string) :
  let out := deleteBatch minimatch path_relative config w paths in
  ((BatchDeletionResult.cancelled out.1 = Some true
    /\ (exists text, BatchDeletionResult.reason out.1 = Some text)
    /\ BatchDeletionResult.deleted out.1 = []
    /\ BatchDeletionResult.failed out.1 = []
    /\ BatchDeletionResult.rejected out.1 <> []
    /\ disk out.2 = disk w
    /\ loggerCalls out.2 = loggerCalls w)
   \/ (BatchDeletionResult.cancelled out.1 = None
       /\ BatchDeletionResult.reason out.1 = None
       /\ BatchDeletionResult.rejected out.1 = []))
  /\ (forall p text, In (p, text) (BatchDeletionResult.rejected out.1) -> In p paths).
Proof.
  intros out. subst out.
  destruct (deleteBatch_cases minimatch path_relative config w paths)
    as [(Hlt & ->)|[(_ & Hf & ->)|(_ & _ & ->)]];
    cbn [fst snd BatchDeletionResult.rejected BatchDeletionResult.cancelled
         BatchDeletionResult.reason BatchDeletionResult.deleted
         BatchDeletionResult.failed disk loggerCalls withCache].
  - split.
    + left. split; [reflexivity|]. split; [now eexists|]. repeat split.
      destruct paths; [simpl in Hlt; lia | discriminate].
    + intros p text Hin. apply in_map_iff in Hin as [p' [[= -> _] Hin]]. exact Hin.
  - destruct (validateBatch_spec minimatch path_relative config (patternCache w) paths)
      as (_ & Hinv & Hprot & _).
    split.
    + left. split; [reflexivity|]. split; [now eexists|]. repeat split.
      intros Hnil. apply app_eq_nil in Hnil as [Hi Hp].
      apply not_true_iff_false in Hf. apply Hf.
      now apply validateBatch_valid_flag.
    + intros p text Hin. rewrite Hinv, Hprot in Hin.
      apply in_app_or in Hin as [Hin|Hin];
        apply in_map_iff in Hin as [p' [[= -> _] Hin]];
        now apply filter_In in Hin.
  - split; [now right|]. intros p text [].
Qed.

(** ** Audit logger: the in-memory tail *)

Section LoggerMore.

Variable JSON_stringify : AuditLog.t -> string.
Variable config : Configuration.

Local Abbreviation entering := (writeLogEntry JSON_stringify config).
Local Abbreviation writing := (writeToFile JSON_stringify config).

Lemma writeLogEntry_dropped (env : Env) (st : LoggingService * option (list LogFile))
    (logEntry : AuditLog.t) :
  logLevel config = LevelNone
  \/ (entryLevelIndex logEntry < levelIndex (logLevel config))%Z ->
  entering env st logEntry = st.
Proof.
  intros [H|H]; unfold writeLogEntry.
  - now rewrite H.
  - unfold shouldLog.
    destruct (Z.leb_spec (levelIndex (logLevel config)) (entryLevelIndex logEntry));
      [lia|].
    now destruct (logLevel config).
Qed.

Lemma writeLogEntry_kept (env : Env) (st : LoggingService * option (list LogFile))
    (logEntry : AuditLog.t) :
  logLevel config <> LevelNone ->
  (levelIndex (logLevel config) <= entryLevelIndex logEntry)%Z ->
  entering env st logEntry = writing env (remember st.1 logEntry, st.2) logEntry.
Proof.
  intros Hn Hle. unfold writeLogEntry, shouldLog.
  destruct (Z.leb_spec (levelIndex (logLevel config)) (entryLevelIndex logEntry));
    [|lia].
  now destruct (logLevel config).
Qed.

Lemma remember_logs (svc : LoggingService) (logEntry : AuditLog.t) :
  inMemoryLogs (remember svc logEntry)
  = drop (length (inMemoryLogs svc) + 1 - 1000) (inMemoryLogs svc ++ [logEntry]).
Proof.
  unfold remember. simpl. rewrite length_app. simpl.
  destruct (Nat.ltb_spec 1000 (length (inMemoryLogs svc) + 1)) as [H|H].
  - reflexivity.
  - replace (length (inMemoryLogs svc) + 1 - 1000) with 0 by lia. reflexivity.
Qed.

End LoggerMore.

(** X10.  An entry that passes the level filter is put at the end of the
    in-memory list, from whose front entries are dropped so that at most 1000
    are left: the list becomes the last 1000 of the old entries followed by
    the new one, in order.  No call of [writeLogEntry] makes a list of at
    most 1000 entries longer than 1000. *)
Theorem in_memory_tail (JSON_stringify : AuditLog.t -> string) (config : Configuration)
    (env : Env) (st : LoggingService * option (list LogFile)) (logEntry : AuditLog.t) :
  let st' := writeLogEntry JSON_stringify config env st logEntry in
  (logLevel config <> LevelNone ->
   (levelIndex (logLevel config) <= entryLevelIndex logEntry)%Z ->
   inMemoryLogs st'.1
   = drop (length (inMemoryLogs st.1) + 1 - 1000) (inMemoryLogs st.1 ++ [logEntry])
   /\ length (inMemoryLogs st'.1) = Nat.min (length (inMemoryLogs st.1) + 1) 1000)
  /\ (length (inMemoryLogs st.1) <= 1000 -> length (inMemoryLogs st'.1) <= 1000).
Proof.
  intros st'. subst st'.
  assert (Hkept : logLevel config <> LevelNone ->
            (levelIndex (logLevel config) <= entryLevelIndex logEntry)%Z ->
            inMemoryLogs (writeLogEntry JSON_stringify config env st logEntry).1
            = drop (length (inMemoryLogs st.1) + 1 - 1000)
                   (inMemoryLogs st.1 ++ [logEntry])).
  { intros Hn Hle. rewrite (writeLogEntry_kept _ _ _ _ _ Hn Hle), writeToFile_memory.
    apply remember_logs. }
  split.
  - intros Hn Hle. split; [now apply Hkept|].
    rewrite (Hkept Hn Hle), length_drop, length_app. simpl. lia.
  - intros Hlen.
    assert (Hdec : logLevel config = LevelNone \/ logLevel config <> LevelNone)
      by (destruct (logLevel config); (now left) || (now right)).
    destruct Hdec as [E|E].
    + rewrite writeLogEntry_dropped by now left. exact Hlen.
    + destruct (Z.leb_spec (levelIndex (logLevel config)) (entryLevelIndex logEntry))
        as [Hle|Hlt].
      * rewrite (Hkept E Hle), length_drop, length_app. simpl. lia.
      * rewrite writeLogEntry_dropped by now right. exact Hlen.
Qed.

Lemma in_memory_tail_witness :
  length (inMemoryLogs
            (writeLogEntry runStringify runConfig (runEnv 9 "T9")
               (fullService, Some fullDirectory) (runEntry "r-09")).1) <= 1000.
Proof.
  apply (in_memory_tail runStringify runConfig (runEnv 9 "T9")
           (fullService, Some fullDirectory) (runEntry "r-09")).
  simpl. lia.
Defined.

(** X11.  [getRecentLogs(limit)] with a positive limit returns the newest
    [limit] entries, newest first, all of them when there are fewer;
    [getRecentLogs(0)] returns every entry, newest first.  Right after an
    entry has passed the level filter it is the first entry returned. *)
Theorem getRecentLogs_newest_first (JSON_stringify : AuditLog.t -> string)
    (config : Configuration) (env : Env) (st : LoggingService * option (list LogFile))
    (logEntry : AuditLog.t) (limit : nat) :
  (0 < limit ->
   getRecentLogs st.1 limit = take limit (reverse (inMemoryLogs st.1))
   /\ length (getRecentLogs st.1 limit) = Nat.min limit (length (inMemoryLogs st.1)))
  /\ getRecentLogs st.1 0 = reverse (inMemoryLogs st.1)
  /\ (0 < limit ->
      logLevel config <> LevelNone ->
      (levelIndex (logLevel config) <= entryLevelIndex logEntry)%Z ->
      head (getRecentLogs (writeLogEntry JSON_stringify config env st logEntry).1 limit)
      = Some logEntry).
Proof.
  assert (Hpos : forall svc n, 0 < n ->
            getRecentLogs svc n = take n (reverse (inMemoryLogs svc))).
  { intros svc n Hn. destruct n as [|n]; [lia|]. unfold getRecentLogs.
    now rewrite take_reverse. }
  split; [|split; [reflexivity|]].
  - intros Hl. split; [now apply Hpos|].
    now rewrite (Hpos _ _ Hl), length_take, length_reverse.
  - intros Hl Hn Hle. rewrite (Hpos _ _ Hl).
    rewrite (writeLogEntry_kept _ _ _ _ _ Hn Hle), writeToFile_memory.
    cbn [fst]. rewrite remember_logs.
    destruct limit as [|n]; [lia|].
    rewrite drop_app_le by lia. rewrite reverse_snoc. reflexivity.
Qed.

Lemma getRecentLogs_newest_first_witness :
  head (getRecentLogs
          (writeLogEntry runStringify runConfig (runEnv 9 "T9")
             (fullService, Some fullDirectory) (runEntry "r-09")).1 5)
  = Some (runEntry "r-09").
Proof.
  apply (getRecentLogs_newest_first runStringify runConfig (runEnv 9 "T9")
           (fullService, Some fullDirectory) (runEntry "r-09") 5).
  - lia.
  - simpl. discriminate.
  - vm_compute. discriminate.
Defined.

(** ** Audit logger: the files *)

Lemma cleanup_subset (config : Configuration) (files kept : list LogFile) (f : LogFile) :
  cleanupOldLogFiles config (Some files) = Some kept -> In f kept -> In f files.
Proof.
  rewrite cleanup_eq. intros [= <-].
  destruct (Nat.leb _ _); [easy|]. intros H. now apply filter_In in H.
Qed.

Lemma cleanup_removed_is_log (config : Configuration) (files kept : list LogFile)
    (f : LogFile) :
  cleanupOldLogFiles config (Some files) = Some kept ->
  In f files -> In f kept \/ isLogFile f = true.
Proof.
  rewrite cleanup_eq. intros [= <-] Hf.
  destruct (Nat.leb _ _); [now left|].
  match goal with
  | |- In f (List.filter (fun g => negb (removedBy ?rem g)) _) \/ _ =>
      destruct (removedBy rem f) eqn:E
  end.
  - right. apply existsb_exists in E as [r [Hr E]].
    apply andb_true_iff in E as [_ E]. apply String.eqb_eq in E.
    apply filesToRemove_in, fileStats_in in Hr as [_ Hlog].
    unfold isLogFile in *. now rewrite E.
  - left. apply filter_In. split; [exact Hf|]. now rewrite E.
Qed.

Lemma appendFile_inv (dir dir' : option (list LogFile)) (name data : string)
    (clock : nat) :
  appendFile dir name data clock = Some dir' ->
  exists files,
    dir = Some files /\ String.eqb name "" = false
    /\ ((exists f, findFile files name = Some f
                   /\ dir' = Some (map (fun g =>
                        if String.eqb (fileName g) name
                        then {| fileName := fileName g; mtime := clock;
                                content := content g +:+ data;
                                unlinkable := unlinkable g |}
                        else g) files))
        \/ (findFile files name = None
            /\ dir' = Some (files ++ [createdFile name data clock]))).
Proof.
  unfold appendFile. destruct (String.eqb name ""); [discriminate|].
  destruct dir as [files|]; [|discriminate]. intros H. exists files.
  split; [reflexivity|]. split; [reflexivity|].
  destruct (findFile files name) as [f|]; injection H as <-.
  - left. now exists f.
  - now right.
Qed.

Section LogFileFacts.

Variable JSON_stringify : AuditLog.t -> string.
Variable config : Configuration.
Variable env : Env.

Local Abbreviation writing := (writeToFile JSON_stringify config env).
Local Abbreviation initialised := (afterInit config env).
Local Abbreviation rotated := (afterRotation config env).
Local Abbreviation line := (lineOf JSON_stringify).
Local Abbreviation size := (sizeOf JSON_stringify).

Lemma writeToFile_eq (st : LoggingService * option (list LogFile))
    (logEntry : AuditLog.t) :
  writing st logEntry
  = let st2 := rotated st (size logEntry) in
    match appendFile st2.2 (currentLogFile st2.1) (line logEntry) (now env) with
    | Some dir' =>
        ({| inMemoryLogs := inMemoryLogs st2.1;
            currentLogFile := currentLogFile st2.1;
            currentLogFileSize := (currentLogFileSize st2.1 + size logEntry)%N |}, dir')
    | None => st2
    end.
Proof. reflexivity. Qed.

Lemma afterInit_files (st : LoggingService * option (list LogFile)) :
  default [] (initialised st).2 = default [] st.2.
Proof. unfold afterInit. now destruct (String.eqb (currentLogFile st.1) ""). Qed.

Lemma afterInit_usable (st : LoggingService * option (list LogFile)) :
  usable st ->
  String.eqb (currentLogFile (initialised st).1) "" = false
  /\ (initialised st).2 = Some (default [] st.2).
Proof.
  intros Hu. unfold afterInit.
  destruct (String.eqb_spec (currentLogFile st.1) "") as [E|E]; simpl.
  - now split.
  - split; [now apply String.eqb_neq|].
    destruct Hu as [Hu|Hu]; [contradiction|].
    now destruct st.2.
Qed.

Lemma afterInit_agrees (st : LoggingService * option (list LogFile)) :
  counterAgrees st -> counterAgrees (initialised st).
Proof.
  intros Ha. unfold afterInit.
  destruct (String.eqb (currentLogFile st.1) ""); [|exact Ha].
  unfold counterAgrees, initializeLogDirectory. simpl.
  now destruct (findFile (default [] st.2) _).
Qed.

(** The state after the rotation step: either nothing was rotated, or the
    counter is zero and the directory is what the cleanup left. *)
Lemma afterRotation_cases (st : LoggingService * option (list LogFile)) (entrySize : N) :
  usable st ->
  let maxSize := default (10 * 1024 * 1024)%N (maxLogFileSize config) in
  (shouldRotateLog config (initialised st).1 entrySize = false
   /\ (currentLogFileSize (initialised st).1 + entrySize <= maxSize)%N
   /\ rotated st entrySize = initialised st)
  \/ (shouldRotateLog config (initialised st).1 entrySize = true
      /\ exists kept,
           cleanupOldLogFiles config (Some (default [] st.2)) = Some kept
           /\ rotated st entrySize
              = ({| inMemoryLogs := inMemoryLogs (initialised st).1;
                    currentLogFile := logFileName (rotateTimestamp env) (rotateRandom env);
                    currentLogFileSize := 0 |}, Some kept)).
Proof.
  intros Hu maxSize. destruct (afterInit_usable st Hu) as [Hn Hd].
  unfold afterRotation.
  destruct (shouldRotateLog config (initialised st).1 entrySize) eqn:E.
  - right. split; [reflexivity|].
    destruct (cleanupOldLogFiles_Some config (default [] st.2)) as [kept Hk].
    exists kept. split; [exact Hk|].
    unfold rotateLogFile. rewrite Hn, Hd, Hk. reflexivity.
  - left. split; [reflexivity|]. split; [|reflexivity].
    unfold shouldRotateLog in E. now apply N.ltb_ge in E.
Qed.

End LogFileFacts.

(** ** Audit logger: a call that runs alone *)


Lemma findFile_unique (files : list LogFile) (f : LogFile) :
  NoDup (map fileName files) -> In f files -> findFile files (fileName f) = Some f.
Proof.
  unfold findFile. induction files as [|g files IH]; simpl; [intros _ []|].
  intros Hnd Hin. apply NoDup_cons in Hnd as [Hg Hnd].
  destruct (String.eqb_spec (fileName g) (fileName f)) as [E|Hne].
  - destruct Hin as [->|Hin]; [reflexivity|].
    destruct Hg. rewrite E. now apply list_elem_of_In, in_map.
  - destruct Hin as [->|Hin]; [congruence|]. now apply IH.
Qed.

Lemma statAll_present (files stats : list LogFile) :
  NoDup (map fileName files) -> (forall f, In f stats -> In f files) ->
  statAll files (map fileName stats) = Some stats.
Proof.
  intros Hnd. induction stats as [|f stats IH]; intros Hsub; simpl; [reflexivity|].
  rewrite (findFile_unique files f Hnd) by (apply Hsub; now left).
  rewrite IH; [reflexivity|]. intros g Hg. apply Hsub. now right.
Qed.

Section AloneFacts.

Variable JSON_stringify : AuditLog.t -> string.
Variable config : Configuration.
Variable env : Env.

Local Abbreviation finishing := (complete JSON_stringify config).

(** The loop of unlinks, run to the append. *)
Lemma complete_unlinks (fuel : nat) (svc : LoggingService) (logEntry : AuditLog.t)
    (rest files : list LogFile) (file : LogFile) :
  finishing (S (length rest) + fuel) env (svc, Some files) logEntry (AwaitUnlink file rest)
  = finishing fuel env (svc, Some (foldl unlinkLog files (file :: rest))) logEntry
              (AwaitAppend (currentLogFile svc)).
Proof.
  revert files file. induction rest as [|next rest IH]; intros files file.
  - reflexivity.
  - change (S (length (next :: rest)) + fuel) with (S (S (length rest) + fuel)).
    cbn [complete resume fst snd option_map]. rewrite IH. reflexivity.
Qed.

(** The append, which ends the call. *)
Lemma complete_append (fuel : nat) (st : LoggingService * option (list LogFile))
    (logEntry : AuditLog.t) (file : string) :
  finishing (S fuel) env st logEntry (AwaitAppend file)
  = Some (match appendFile st.2 file (JSON_stringify logEntry +:+ JS.newline) (now env) with
          | Some dir' =>
              ({| inMemoryLogs := inMemoryLogs st.1;
                  currentLogFile := currentLogFile st.1;
                  currentLogFileSize :=
                    (currentLogFileSize st.1
                     + N.of_nat (String.length (JSON_stringify logEntry +:+ JS.newline)))%N |},
               dir')
          | None => st
          end).
Proof.
  cbn [complete resume].
  destruct (appendFile st.2 file (JSON_stringify logEntry +:+ JS.newline) (now env));
    cbn [fst snd]; now destruct fuel.
Qed.

(** The cleanup, from its [readdir] to the append. *)
Lemma complete_cleanup (fuel : nat) (svc : LoggingService) (dir : option (list LogFile))
    (logEntry : AuditLog.t) :
  NoDup (map fileName (default [] dir)) ->
  3 + length (default [] dir) <= fuel ->
  exists fuel',
    0 < fuel'
    /\ finishing fuel env (svc, dir) logEntry AwaitReaddir
       = finishing fuel' env (svc, cleanupOldLogFiles config dir) logEntry
                   (AwaitAppend (currentLogFile svc)).
Proof.
  intros Hnd Hfuel. destruct fuel as [|fuel]; [lia|].
  destruct dir as [files|]; cbn [default from_option id] in *.
  - cbn [complete resume fst snd]. unfold cleanupOldLogFiles.
    set (logFiles := List.filter (fun f => isLogFileName (fileName f)) files).
    destruct (Nat.leb_spec (length logFiles) (default 5 (maxLogFiles config))) as [Hle|Hgt].
    + exists fuel. split; [lia|reflexivity].
    + cbn [fst snd]. destruct fuel as [|fuel]; [simpl in Hfuel; lia|].
      cbn [complete resume fst snd default from_option id].
      rewrite (statAll_present files logFiles Hnd)
        by (intros f Hf; now apply filter_In in Hf).
      set (fileStats := jsSort olderFirst logFiles).
      assert (Hlen : length fileStats = length logFiles)
        by apply Permutation_length, (jsSort_perm olderFirst).
      assert (Hsub : length (List.filter (fun f => isLogFileName (fileName f)) files)
                     <= length files).
      { clear. induction files as [|f files IH]; simpl; [lia|].
        destruct (isLogFileName (fileName f)); simpl; lia. }
      fold logFiles in Hsub.
      destruct (take (length fileStats - default 5 (maxLogFiles config)) fileStats)
        as [|file rest] eqn:Et.
      * exfalso. apply (f_equal length) in Et. rewrite length_take in Et. simpl in Et. lia.
      * cbn [fst snd].
        assert (Hrest : S (length rest) <= length fileStats).
        { apply (f_equal length) in Et. rewrite length_take in Et. simpl in Et. lia. }
        exists (fuel - S (length rest)). split; [lia|].
        replace fuel with (S (length rest) + (fuel - S (length rest))) at 1 by lia.
        now rewrite complete_unlinks.
  - exists fuel. split; [lia|reflexivity].
Qed.

End AloneFacts.

(** A call that runs alone computes [writeToFile]. *)
Lemma writeAlone_eq (JSON_stringify : AuditLog.t -> string) (config : Configuration)
    (env : Env) (st : LoggingService * option (list LogFile)) (logEntry : AuditLog.t)
    (fuel : nat) :
  NoDup (map fileName (default [] st.2)) ->
  5 + length (default [] st.2) <= fuel ->
  writeAlone JSON_stringify config fuel env st logEntry
  = Some (writeToFile JSON_stringify config env st logEntry).
Proof.
  intros Hnd Hfuel. unfold writeAlone, begin, writeToFile.
  set (line := JSON_stringify logEntry +:+ JS.newline).
  assert (Hgo : forall fuel1 (st1 : LoggingService * option (list LogFile)),
            NoDup (map fileName (default [] st1.2)) ->
            3 + length (default [] st1.2) <= fuel1 ->
            complete JSON_stringify config fuel1 env
              (proceed JSON_stringify config env st1 logEntry).1 logEntry
              (proceed JSON_stringify config env st1 logEntry).2
            = Some (let st2 := if shouldRotateLog config st1.1 (N.of_nat (String.length line))
                               then rotateLogFile config env st1 else st1 in
                    match appendFile st2.2 (currentLogFile st2.1) line (now env) with
                    | Some dir' =>
                        ({| inMemoryLogs := inMemoryLogs st2.1;
                            currentLogFile := currentLogFile st2.1;
                            currentLogFileSize :=
                              (currentLogFileSize st2.1 + N.of_nat (String.length line))%N |},
                         dir')
                    | None => st2
                    end)).
  { intros fuel1 [svc dir] Hnd1 Hf1. unfold proceed. fold line. cbn [fst snd] in *.
    destruct (shouldRotateLog config svc (N.of_nat (String.length line))).
    - unfold rotateLogFile. cbn [fst snd].
      destruct (String.eqb (currentLogFile svc) "") eqn:En.
      + cbn [fst snd]. destruct fuel1 as [|fuel1]; [lia|].
        now rewrite complete_append.
      + cbn [fst snd].
        destruct (complete_cleanup JSON_stringify config env fuel1
                    {| inMemoryLogs := inMemoryLogs svc;
                       currentLogFile :=
                         logFileName (rotateTimestamp env) (rotateRandom env);
                       currentLogFileSize := 0%N |} dir logEntry Hnd1)
          as (fuel' & Hpos & ->); [lia|].
        destruct fuel' as [|fuel']; [lia|]. now rewrite complete_append.
    - cbn [fst snd]. destruct fuel1 as [|fuel1]; [lia|]. now rewrite complete_append. }
  destruct (String.eqb (currentLogFile st.1) "") eqn:En.
  - cbn [fst snd]. destruct fuel as [|[|fuel]]; try lia.
    cbn [complete resume fst snd]. rewrite Hgo.
    + reflexivity.
    + exact Hnd.
    + cbn [fst snd default from_option id]. lia.
  - apply Hgo; [exact Hnd | lia].
Qed.

(** ** Audit logger: the bound on the log files *)

Lemma filter_names_NoDup (P : LogFile -> bool) (files : list LogFile) :
  NoDup (map fileName files) -> NoDup (map fileName (List.filter P files)).
Proof.
  induction files as [|f files IH]; simpl; [constructor|].
  intros Hnd. apply NoDup_cons in Hnd as [Hf Hnd].
  destruct (P f); [|now apply IH]. simpl. apply NoDup_cons. split; [|now apply IH].
  intros Hin. apply Hf. apply list_elem_of_In, in_map_iff in Hin as [g [E Hg]].
  apply filter_In in Hg as [Hg _]. rewrite <- E. now apply list_elem_of_In, in_map.
Qed.

Lemma countLogFiles_appended (files : list LogFile) (name data : string) (clock : nat) :
  countLogFiles
    (Some (map (fun g => if String.eqb (fileName g) name
                         then {| fileName := fileName g; mtime := clock;
                                 content := content g +:+ data;
                                 unlinkable := unlinkable g |}
                         else g) files))
  = countLogFiles (Some files).
Proof.
  unfold countLogFiles. cbn [default from_option id].
  induction files as [|g files IH]; simpl; [reflexivity|].
  destruct (String.eqb (fileName g) name); simpl;
    destruct (isLogFileName (fileName g)); simpl; now rewrite IH.
Qed.

Lemma orderly_appended (files : list LogFile) (name data : string) (clock : nat) :
  orderly (Some files) ->
  orderly (Some (map (fun g => if String.eqb (fileName g) name
                               then {| fileName := fileName g; mtime := clock;
                                       content := content g +:+ data;
                                       unlinkable := unlinkable g |}
                               else g) files)).
Proof.
  intros [Hnd Hun]. unfold orderly in *. cbn [default from_option id] in *. split.
  - rewrite map_map.
    erewrite map_ext; [exact Hnd|]. intros g. simpl.
    now destruct (String.eqb (fileName g) name).
  - intros f Hf Hlog. apply in_map_iff in Hf as [g [E Hg]].
    destruct (String.eqb (fileName g) name); subst f; [|now apply Hun].
    simpl. apply (Hun g Hg). exact Hlog.
Qed.

Lemma orderly_created (files : list LogFile) (name data : string) (clock : nat) :
  orderly (Some files) -> findFile files name = None ->
  orderly (Some (files ++ [createdFile name data clock])).
Proof.
  intros [Hnd Hun] Hnone. unfold orderly in *. cbn [default from_option id] in *. split.
  - rewrite map_app. simpl. apply NoDup_app. split; [exact Hnd|]. split.
    + intros x Hx Hin. apply list_elem_of_In in Hx, Hin.
      destruct Hin as [<-|[]]. apply in_map_iff in Hx as [g [E Hg]].
      now apply (proj1 (findFile_None files name) Hnone g Hg).
    + apply NoDup_singleton.
  - intros f Hf Hlog. apply in_app_or in Hf as [Hf|[<-|[]]]; [now apply Hun|reflexivity].
Qed.

Lemma orderly_cleanup (config : Configuration) (files kept : list LogFile) :
  orderly (Some files) -> cleanupOldLogFiles config (Some files) = Some kept ->
  orderly (Some kept).
Proof.
  intros [Hnd Hun] Hk. unfold orderly in *. cbn [default from_option id] in *.
  pose proof (cleanup_eq config files) as E. rewrite Hk in E. injection E as ->.
  destruct (Nat.leb _ _); [now split|]. split.
  - now apply filter_names_NoDup.
  - intros f Hf. apply filter_In in Hf as [Hf _]. now apply Hun.
Qed.

Section BoundFacts.

Variable JSON_stringify : AuditLog.t -> string.
Variable config : Configuration.

Local Abbreviation maxFiles := (default 5 (maxLogFiles config)).

(** One write keeps the bound. *)
Lemma writeToFile_retained (env : Env) (st : LoggingService * option (list LogFile))
    (logEntry : AuditLog.t) :
  orderly st.2 -> retained config st ->
  orderly (writeToFile JSON_stringify config env st logEntry).2
  /\ retained config (writeToFile JSON_stringify config env st logEntry).
Proof.
  intros Hord Hret. rewrite writeToFile_eq. cbv zeta.
  set (st1 := afterInit config env st).
  assert (Hfiles : default [] st1.2 = default [] st.2) by apply afterInit_files.
  assert (Hord1 : orderly st1.2) by (unfold orderly; now rewrite Hfiles).
  assert (Hcount1 : countLogFiles st1.2 = countLogFiles st.2)
    by (unfold countLogFiles; now rewrite Hfiles).
  assert (Hret1 : retained config st1).
  { subst st1. unfold afterInit in *.
    destruct (String.eqb (currentLogFile st.1) "") eqn:En; [|exact Hret].
    unfold retained, activePresent in *. rewrite En in Hret. cbn [negb andb] in Hret.
    rewrite Hcount1. destruct (negb _ && _); lia. }
  assert (Hname1 : st1.2 = None \/ String.eqb (currentLogFile st1.1) "" = false).
  { subst st1. unfold afterInit.
    destruct (String.eqb (currentLogFile st.1) "") eqn:En; [|now right].
    right. apply logFileName_nonempty. }
  unfold afterRotation. fold st1.
  destruct st1 as [svc1 dir1]. cbn [fst snd] in *.
  destruct dir1 as [files|].
  - (* the directory is there *)
    destruct Hname1 as [|Hn1]; [discriminate|].
    cbn [default from_option id] in Hfiles. subst files.
    destruct (shouldRotateLog config svc1 (sizeOf JSON_stringify logEntry)).
    + unfold rotateLogFile. cbn [fst snd]. rewrite Hn1.
      destruct (cleanupOldLogFiles_Some config (default [] st.2)) as [kept Hk].
      rewrite Hk. cbn [fst snd currentLogFile].
      destruct Hord1 as [Hnd Hun]. cbn [default from_option id] in Hnd, Hun.
      destruct (cleanup_newest config _ Hnd kept Hk Hun) as [Hcount _].
      assert (Hkept : orderly (Some kept))
        by (apply (orderly_cleanup config (default [] st.2)); [now split | exact Hk]).
      destruct (findFile kept (logFileName (rotateTimestamp env) (rotateRandom env)))
        as [g|] eqn:Hnone.
      { (* the name drawn is in use: the line goes to the file that has it *)
        unfold appendFile. rewrite logFileName_nonempty, Hnone. cbn [fst snd].
        split; [now apply orderly_appended|].
        unfold retained, activePresent. cbn [fst snd currentLogFile default from_option id].
        rewrite (findFile_appended _ _ _ _ g Hnone), logFileName_nonempty.
        cbn [negb andb]. rewrite countLogFiles_appended.
        change (countLogFiles (Some kept)) with (length (List.filter isLogFile kept)).
        rewrite Hcount. lia. }
      unfold appendFile. rewrite logFileName_nonempty, Hnone. cbn [fst snd].
      split.
      * now apply orderly_created.
      * unfold retained, activePresent. cbn [fst snd currentLogFile default from_option id].
        pose proof (findFile_created kept _ (lineOf JSON_stringify logEntry) (now env) Hnone)
          as Hc.
        pose proof (countLogFiles_created kept (rotateTimestamp env) (rotateRandom env)
                      (lineOf JSON_stringify logEntry) (now env)) as Hn.
        unfold createdFile in Hc, Hn. rewrite Hc, Hn, logFileName_nonempty.
        cbn [negb andb]. rewrite Hcount. lia.
    + cbn [fst snd]. unfold appendFile. rewrite Hn1.
      destruct (findFile (default [] st.2) (currentLogFile svc1)) as [f|] eqn:Ef;
        cbn [fst snd].
      * split; [now apply orderly_appended|].
        unfold retained, activePresent in *.
        cbn [fst snd currentLogFile default from_option id] in *.
        rewrite (findFile_appended _ _ _ _ f Ef), Hn1. cbn [negb andb].
        rewrite countLogFiles_appended. rewrite Ef, Hn1 in Hret1. cbn [negb andb] in Hret1.
        exact Hret1.
      * split; [now apply orderly_created|].
        unfold retained, activePresent in *.
        cbn [fst snd currentLogFile default from_option id] in *.
        pose proof (findFile_created _ _ (lineOf JSON_stringify logEntry) (now env) Ef) as Hc.
        unfold createdFile in Hc. rewrite Hc, Hn1. cbn [negb andb].
        rewrite Ef, Hn1 in Hret1. cbn [negb andb] in Hret1.
        unfold countLogFiles in *. cbn [default from_option id] in *.
        rewrite List.filter_app, length_app. simpl.
        destruct (isLogFileName (currentLogFile svc1)); simpl; lia.
  - (* there is no directory *)
    assert (Hnone : forall name data clock, appendFile None name data clock = None).
    { intros name data clock. unfold appendFile. now destruct (String.eqb name ""). }
    destruct (shouldRotateLog config svc1 (sizeOf JSON_stringify logEntry)).
    + unfold rotateLogFile. cbn [fst snd].
      destruct (String.eqb (currentLogFile svc1) "") eqn:En; cbn [fst snd].
      * rewrite Hnone. now split.
      * change (cleanupOldLogFiles config None) with (@None (list LogFile)).
        rewrite Hnone. split; [exact Hord1|].
        unfold retained, activePresent, countLogFiles. simpl. lia.
    + cbn [fst snd]. rewrite Hnone. now split.
Qed.

(** Every write of a run keeps it. *)
Lemma appendAll_retained (writes : list (Env * AuditLog.t))
    (st : LoggingService * option (list LogFile)) :
  orderly st.2 -> retained config st ->
  orderly (appendAll JSON_stringify config st writes).2
  /\ retained config (appendAll JSON_stringify config st writes).
Proof.
  revert st. induction writes as [|[env logEntry] writes IH]; intros st Hord Hret.
  - now split.
  - destruct (writeToFile_retained env st logEntry Hord Hret) as [Hord' Hret'].
    unfold appendAll. cbn [foldl fst snd]. now apply IH.
Qed.

(** A service that starts on no more log files than are to be kept. *)
Lemma newLoggingService_retained (env : Env) (dir : option (list LogFile)) :
  orderly dir -> countLogFiles dir <= maxFiles ->
  orderly (newLoggingService config env dir).2
  /\ retained config (newLoggingService config env dir).
Proof.
  intros Hord Hcount. unfold newLoggingService.
  assert (Hinit : orderly (initializeLogDirectory env
                             ({| inMemoryLogs := []; currentLogFile := "";
                                 currentLogFileSize := 0%N |}, dir)).2
                  /\ retained config
                       (initializeLogDirectory env
                          ({| inMemoryLogs := []; currentLogFile := "";
                              currentLogFileSize := 0%N |}, dir))).
  { unfold initializeLogDirectory. cbn [fst snd]. split; [exact Hord|].
    unfold retained, countLogFiles in *. cbn [fst snd default from_option id].
    destruct (activePresent _); lia. }
  destruct (logLevel config); try exact Hinit.
  split; [exact Hord|]. unfold retained, activePresent. simpl. lia.
Qed.

End BoundFacts.




(** What a write, run as [writeToFile] computes it, does to the counter. *)
Lemma writeToFile_agrees (JSON_stringify : AuditLog.t -> string) (config : Configuration)
    (env : Env) (st : LoggingService * option (list LogFile)) (logEntry : AuditLog.t) :
  usable st ->
  counterAgrees st ->
  findFile (default [] st.2) (logFileName (rotateTimestamp env) (rotateRandom env)) = None ->
  let st' := writeToFile JSON_stringify config env st logEntry in
  let maxSize := default (10 * 1024 * 1024)%N (maxLogFileSize config) in
  counterAgrees st'
  /\ exists f,
       findFile (default [] st'.2) (currentLogFile st'.1) = Some f
       /\ currentLogFileSize st'.1 = N.of_nat (String.length (content f))
       /\ ((currentLogFileSize st'.1 <= maxSize)%N
           \/ content f = lineOf JSON_stringify logEntry).
Proof.
  intros Hu Ha Hfresh st' maxSize.
  assert (Hmain : exists f,
       findFile (default [] st'.2) (currentLogFile st'.1) = Some f
       /\ currentLogFileSize st'.1 = N.of_nat (String.length (content f))
       /\ ((currentLogFileSize st'.1 <= maxSize)%N
           \/ content f = lineOf JSON_stringify logEntry)).
  { subst st'. rewrite writeToFile_eq. cbv zeta.
    destruct (afterInit_usable config env st Hu) as [Hn Hd].
    pose proof (afterInit_agrees config env st Ha) as Ha1.
    destruct (afterRotation_cases config env st (sizeOf JSON_stringify logEntry) Hu)
      as [(_ & Hfit & ->)|(_ & kept & Hk & ->)].
    - rewrite Hd. unfold counterAgrees in Ha1. rewrite Hd in Ha1. simpl in Ha1.
      unfold appendFile. rewrite Hn.
      destruct (findFile (default [] st.2) (currentLogFile (afterInit config env st).1))
        as [f|] eqn:Ef; cbn [fst snd default from_option id currentLogFile currentLogFileSize].
      + rewrite (findFile_appended _ _ _ _ f Ef). eexists. split; [reflexivity|].
        cbn [content]. split.
        * rewrite string_app_length, Nat2N.inj_add, Ha1. reflexivity.
        * left. exact Hfit.
      + pose proof (findFile_created _ _ (lineOf JSON_stringify logEntry) (now env) Ef)
          as Hc.
        unfold createdFile in Hc. rewrite Hc. eexists. split; [reflexivity|].
        cbn [content]. split; [rewrite Ha1; reflexivity | now right].
    - cbn [fst snd currentLogFile currentLogFileSize].
      assert (Hnone : findFile kept
                        (logFileName (rotateTimestamp env) (rotateRandom env)) = None).
      { apply (findFile_kept (default [] st.2)); [|exact Hfresh].
        intros f. now apply cleanup_subset with (config := config). }
      unfold appendFile. rewrite logFileName_nonempty, Hnone.
      cbn [fst snd default from_option id currentLogFile currentLogFileSize].
      pose proof (findFile_created _ _ (lineOf JSON_stringify logEntry) (now env) Hnone)
        as Hc.
      unfold createdFile in Hc. rewrite Hc. eexists. split; [reflexivity|].
      cbn [content]. split; [reflexivity | now right]. }
  split; [|exact Hmain].
  destruct Hmain as (f & Hf & Hc & _). unfold counterAgrees. now rewrite Hf.
Qed.



Section AppendOnlyFacts.

Variable JSON_stringify : AuditLog.t -> string.
Variable config : Configuration.
Variable env : Env.

Lemma afterRotation_files (st : LoggingService * option (list LogFile)) (entrySize : N) :
  (forall f, In f (default [] (afterRotation config env st entrySize).2) ->
             In f (default [] st.2))
  /\ (forall f, In f (default [] st.2) ->
                In f (default [] (afterRotation config env st entrySize).2)
                \/ (isLogFile f = true
                    /\ shouldRotateLog config (afterInit config env st).1 entrySize = true)).
Proof.
  unfold afterRotation.
  destruct (shouldRotateLog config (afterInit config env st).1 entrySize).
  - unfold rotateLogFile.
    destruct (String.eqb (currentLogFile (afterInit config env st).1) "").
    + rewrite afterInit_files. split; [easy | now left].
    + cbn [snd]. rewrite <- (afterInit_files config env st).
      destruct (afterInit config env st).2 as [files|]; cbn [default from_option id].
      * destruct (cleanupOldLogFiles_Some config files) as [kept Hk]. rewrite Hk.
        cbn [default from_option id]. split.
        -- intros f. now apply cleanup_subset with (config := config).
        -- intros f Hf.
           destruct (cleanup_removed_is_log config files kept f Hk Hf);
             [now left | now right].
      * split; [easy | intros f []].
  - rewrite afterInit_files. split; [easy | now left].
Qed.

End AppendOnlyFacts.

(** X13.  A write never rewrites what the log directory holds.  Every file
    there afterwards is either the file just created, holding the line, or a
    file that was there before, unchanged or, if it is the active file, with
    the line added at its end.  Every file that was there before is still
    there under its name, unless it is a log file and this write rotated. *)
Theorem log_files_append_only (JSON_stringify : AuditLog.t -> string)
    (config : Configuration) (env : Env) (st : LoggingService * option (list LogFile))
    (logEntry : AuditLog.t) :
  let st' := writeToFile JSON_stringify config env st logEntry in
  let line := lineOf JSON_stringify logEntry in
  (forall f', In f' (default [] st'.2) ->
     f' = createdFile (currentLogFile st'.1) line (now env)
     \/ exists f,
          In f (default [] st.2)
          /\ fileName f' = fileName f
          /\ (f' = f
              \/ (fileName f = currentLogFile st'.1
                  /\ content f' = content f +:+ line)))
  /\ (forall f, In f (default [] st.2) ->
        (exists f', In f' (default [] st'.2) /\ fileName f' = fileName f)
        \/ (isLogFile f = true
            /\ shouldRotateLog config (afterInit config env st).1
                 (sizeOf JSON_stringify logEntry) = true)).
Proof.
  intros st' line. subst st'. rewrite writeToFile_eq. cbv zeta.
  destruct (afterRotation_files config env st (sizeOf JSON_stringify logEntry))
    as [Hsub Hstay].
  set (st2 := afterRotation config env st (sizeOf JSON_stringify logEntry)) in *.
  destruct (appendFile st2.2 (currentLogFile st2.1) (lineOf JSON_stringify logEntry)
              (now env)) as [dir'|] eqn:Ea.
  - apply appendFile_inv in Ea as (files & Hd & Hn & [(g & Hg & ->)|(Hnone & ->)]);
      rewrite Hd in Hsub, Hstay; cbn [fst snd default from_option id currentLogFile] in *.
    + split.
      * intros f' Hf'. apply in_map_iff in Hf' as (f & <- & Hf). right.
        exists f. split; [now apply Hsub|].
        destruct (String.eqb_spec (fileName f) (currentLogFile st2.1)) as [E|E].
        -- split; [reflexivity|]. right. now split.
        -- split; [reflexivity | now left].
      * intros f Hf. destruct (Hstay f Hf) as [Hin|H]; [left | now right].
        eexists. split; [apply in_map, Hin|].
        now destruct (String.eqb (fileName f) (currentLogFile st2.1)).
    + split.
      * intros f' Hf'. apply in_app_or in Hf' as [Hf'|[<-|[]]]; [right | now left].
        exists f'. split; [now apply Hsub|]. split; [reflexivity | now left].
      * intros f Hf. destruct (Hstay f Hf) as [Hin|H]; [left | now right].
        exists f. split; [apply in_or_app; now left | reflexivity].
  - split.
    + intros f' Hf'. right. exists f'. split; [now apply Hsub|].
      split; [reflexivity | now left].
    + intros f Hf. destruct (Hstay f Hf) as [Hin|H]; [left | now right].
      now exists f.
Qed.

(** X14.  What the logging methods let through.  [logError] writes an entry
    of result [failed], kept at every level but ["none"]; its reason carries
    the stack only at level debug.  A [rejected] deletion is kept at debug,
    info and warn and dropped at error.  A successful deletion is kept at
    debug and info only, and when its reason starts with ["DEBUG:"] at debug
    only.  [logDebug] writes at level debug and does nothing at any other
    level.  [logServerStart] is kept at debug and info.  An entry that is
    dropped leaves memory and files as they were. *)
Theorem logging_methods_levels (JSON_stringify : AuditLog.t -> string)
    (config : Configuration) (env : Env) (timestamp requestId : string)
    (st : LoggingService * option (list LogFile)) :
  (forall error context,
      logLevel config <> LevelNone ->
      last (inMemoryLogs
              (logError JSON_stringify config env timestamp requestId st error context).1)
      = Some (auditEntry timestamp requestId OpDelete None Failed
                (Some (errorReason config error context))))
  /\ (forall error context,
        logLevel config <> LevelDebug ->
        errorReason config error context = context +:+ ": " +:+ errorMessage error)
  /\ (forall p reason,
        let kept := last (inMemoryLogs
                            (logDeletion JSON_stringify config env timestamp requestId st
                               p Rejected reason).1)
                    = Some (auditEntry timestamp requestId OpDelete (Some [p])
                              Rejected reason) in
        match logLevel config with
        | LevelDebug | LevelInfo | LevelWarn => kept
        | LevelError | LevelNone =>
            logDeletion JSON_stringify config env timestamp requestId st p Rejected reason
            = st
        end)
  /\ (forall p reason,
        let tagged := match reason with
                      | Some r => JS.startsWith r "DEBUG:"
                      | None => false
                      end in
        let kept := last (inMemoryLogs
                            (logDeletion JSON_stringify config env timestamp requestId st
                               p Success reason).1)
                    = Some (auditEntry timestamp requestId OpDelete (Some [p])
                              Success reason) in
        match logLevel config with
        | LevelDebug => kept
        | LevelInfo =>
            if tagged
            then logDeletion JSON_stringify config env timestamp requestId st
                   p Success reason = st
            else kept
        | _ => logDeletion JSON_stringify config env timestamp requestId st
                 p Success reason = st
        end)
  /\ (forall message,
        match logLevel config with
        | LevelDebug =>
            last (inMemoryLogs
                    (logDebug JSON_stringify config env timestamp requestId st message).1)
            = Some (auditEntry timestamp requestId OpGetAllowed None Success
                      (Some ("DEBUG: " +:+ message)))
        | _ => logDebug JSON_stringify config env timestamp requestId st message = st
        end)
  /\ (forall started,
        match logLevel config with
        | LevelDebug | LevelInfo =>
            last (inMemoryLogs
                    (logServerStart JSON_stringify config env timestamp requestId st
                       started).1)
            = Some (auditEntry timestamp requestId OpGetAllowed None Success
                      (Some (configDetails started)))
        | _ => logServerStart JSON_stringify config env timestamp requestId st started
               = st
        end).
Proof.
  assert (Hkeep : forall e,
            logLevel config <> LevelNone ->
            (levelIndex (logLevel config) <= entryLevelIndex e)%Z ->
            last (inMemoryLogs (writeLogEntry JSON_stringify config env st e).1) = Some e).
  { intros e Hn Hle.
    rewrite (writeLogEntry_kept _ _ _ _ _ Hn Hle), writeToFile_memory.
    cbn [fst]. rewrite remember_logs. apply last_kept. lia. }
  assert (Hdrop : forall e,
            logLevel config = LevelNone
            \/ (entryLevelIndex e < levelIndex (logLevel config))%Z ->
            writeLogEntry JSON_stringify config env st e = st).
  { intros e. apply writeLogEntry_dropped. }
  split; [|split; [|split; [|split; [|split]]]].
  - intros error context Hn. unfold logError. apply Hkeep; [exact Hn|].
    unfold entryLevelIndex. simpl. destruct (logLevel config); simpl; lia.
  - intros error context Hn. unfold errorReason.
    destruct (logLevel config); try contradiction; now destruct (errorStack error).
  - intros p reason kept. subst kept. unfold logDeletion, auditEntry.
    destruct (logLevel config) eqn:E.
    + apply Hdrop. now left.
    + apply Hkeep; [congruence|]. rewrite ?E. unfold entryLevelIndex. simpl. lia.
    + apply Hkeep; [congruence|]. rewrite ?E. unfold entryLevelIndex. simpl. lia.
    + apply Hkeep; [congruence|]. rewrite ?E. unfold entryLevelIndex. simpl. lia.
    + apply Hdrop. right. rewrite ?E. unfold entryLevelIndex. simpl. lia.
  - intros p reason tagged kept. subst kept tagged. unfold logDeletion, auditEntry.
    assert (Hlev : entryLevelIndex
                     {| AuditLog.timestamp := timestamp; AuditLog.operation := OpDelete;
                        AuditLog.paths := Some [p]; AuditLog.result := Success;
                        AuditLog.reason := reason; AuditLog.requestId := requestId |}
                   = if match reason with
                        | Some r => JS.startsWith r "DEBUG:"
                        | None => false
                        end then 0%Z else 1%Z).
    { unfold entryLevelIndex. simpl. destruct reason as [r|]; [|reflexivity].
      now destruct (JS.startsWith r "DEBUG:"). }
    destruct (logLevel config) eqn:E.
    + apply Hdrop. now left.
    + apply Hkeep; [congruence|]. rewrite ?E, Hlev. simpl.
      destruct (match reason with Some r => _ | None => _ end); lia.
    + destruct (match reason with Some r => _ | None => _ end) eqn:Et.
      * apply Hdrop. right. rewrite ?E, Hlev. simpl. lia.
      * apply Hkeep; [congruence|]. rewrite ?E, Hlev. simpl. lia.
    + apply Hdrop. right. rewrite ?E, Hlev. simpl.
      destruct (match reason with Some r => _ | None => _ end); lia.
    + apply Hdrop. right. rewrite ?E, Hlev. simpl.
      destruct (match reason with Some r => _ | None => _ end); lia.
  - intros message. unfold logDebug, auditEntry.
    destruct (logLevel config) eqn:E; try reflexivity.
    apply Hkeep; [congruence|]. rewrite ?E. unfold entryLevelIndex. simpl. lia.
  - intros started. unfold logServerStart.
    assert (Hlev : entryLevelIndex
                     (auditEntry timestamp requestId OpGetAllowed None Success
                        (Some (configDetails started))) = 1%Z) by reflexivity.
    destruct (logLevel config) eqn:E.
    + apply Hdrop. now left.
    + apply Hkeep; [congruence|]. rewrite ?E, Hlev. simpl. lia.
    + apply Hkeep; [congruence|]. rewrite ?E, Hlev. simpl. lia.
    + apply Hdrop. right. rewrite ?E, Hlev. simpl. lia.
    + apply Hdrop. right. rewrite ?E, Hlev. simpl. lia.
Qed.

(* ===================================================================== *)
(** ** The delete tool *)
(* ===================================================================== *)

(** A verdict that is not valid carries a reason. *)
Lemma invalid_has_reason (minimatch : string -> string -> bool -> bool)
    (path_relative : string -> string -> string) (config : Configuration)
    (cache : gmap string bool) (p : string) :
  let v := (validatePath minimatch path_relative config cache p).1 in
  ValidationResult.valid v = false ->
  exists text, ValidationResult.reason v = Some text.
Proof.
  intros v Hv. subst v.
  destruct (validatePath_cases minimatch path_relative config cache p)
    as [E|[E|[E|[d E]]]]; rewrite E in *; simpl in *; try discriminate; now eexists.
Qed.

(** X15.  The delete tool with one path.  Exactly one call is awaited on the
    logging service, about that path.  A path that validation refuses is
    logged as [rejected] with the reason of the verdict, never as [failed];
    a valid path that leads to a regular file which the disk lets go is
    removed and logged as [success] without a reason; any other valid path,
    one that leads to no regular file or to a file the disk refuses to let
    go, is logged as [failed] with the error, and the disk stays as it was.
    The text of the response names the path in each case. *)
Theorem delete_tool_single_path (minimatch : string -> string -> bool -> bool)
    (path_relative : string -> string -> string) (config : Configuration)
    (w : World) (p : string) :
  let out := DeleteToolHandler.handle minimatch path_relative config w [p] in
  let v := (validatePath minimatch path_relative config (patternCache w) p).1 in
  (ValidationResult.valid v = false
   /\ disk out.2 = disk w
   /\ exists text,
        ValidationResult.reason v = Some text
        /\ out.1.2 = [ {| loggedPath := p; loggedResult := Rejected;
                          loggedReason := Some text |} ]
        /\ out.1.1 = "Failed to delete " +:+ p +:+ ": " +:+ text)
  \/ (ValidationResult.valid v = true
      /\ disk w !! p = Some RegularFile
      /\ refuses (disk w) (realpath (disk w) p) = None
      /\ disk out.2 = removeEntry (disk w) p
      /\ out.1.2 = [ {| loggedPath := p; loggedResult := Success;
                        loggedReason := None |} ]
      /\ out.1.1 = "Successfully deleted: " +:+ p)
  \/ (ValidationResult.valid v = true
      /\ disk out.2 = disk w
      /\ exists message,
           (disk w !! p <> Some RegularFile
            \/ refuses (disk w) (realpath (disk w) p) = Some message)
           /\ out.1.2 = [ {| loggedPath := p; loggedResult := Failed;
                             loggedReason := Some message |} ]
           /\ out.1.1 = "Failed to delete " +:+ p +:+ ": " +:+ message).
Proof.
  intros out v. subst out v. unfold DeleteToolHandler.handle, deleteFile.
  destruct (deleteWith_cases minimatch path_relative config unlink
              "File not found" "deleteFile: " w p)
    as [(Hv & ->)|[(Hv & He & ->)|[(Hv & He & d' & Hu & ->)|(Hv & He & m & Hu & ->)]]];
    cbn [fst snd DeletionResult.success DeletionResult.path DeletionResult.error
         DeletionResult.reason notFoundResult interpolate default from_option id
         firstDefined disk logged withCache withDisk].
  - left. split; [exact Hv|]. split; [reflexivity|].
    destruct (invalid_has_reason minimatch path_relative config _ _ Hv) as [text Ht].
    exists text. rewrite Ht. now repeat split.
  - right; right. split; [exact Hv|]. split; [reflexivity|].
    exists "File not found". split; [|now split].
    left. unfold existsSync in He. destruct (disk w !! p); discriminate.
  - right; left. apply unlink_inl in Hu as (-> & Hfile & Hfree). now repeat split.
  - right; right. split; [exact Hv|]. split; [reflexivity|].
    exists m. split; [|now split].
    unfold unlink in Hu. destruct (disk w !! p) as [[|]|]; try (left; discriminate).
    right. destruct (refuses (disk w) (realpath (disk w) p)); [|discriminate].
    now injection Hu as ->.
Qed.

Lemma joinWith_app (separator : string) (l l' : list string) :
  l <> [] ->
  joinWith separator (l ++ l')
  = joinWith separator l
    +:+ match l' with [] => "" | _ => separator +:+ joinWith separator l' end.
Proof.
  induction l as [|x l IH]; [congruence|]. intros _.
  destruct l as [|y l].
  - simpl. destruct l' as [|z l']; [now rewrite string_app_nil_r|reflexivity].
  - change (joinWith separator ((x :: y :: l) ++ l'))
      with (x +:+ separator +:+ joinWith separator ((y :: l) ++ l')).
    rewrite IH by discriminate.
    change (joinWith separator (x :: y :: l))
      with (x +:+ separator +:+ joinWith separator (y :: l)).
    now rewrite !string_app_assoc.
Qed.

Lemma countLogged_app (outcome : Outcome) (l l' : list DeletionLog) :
  countLogged outcome (l ++ l') = countLogged outcome l + countLogged outcome l'.
Proof. unfold countLogged. now rewrite List.filter_app, length_app. Qed.

Lemma countLogged_map {A : Type} (outcome given : Outcome)
    (path : A -> string) (reason : A -> option string) (l : list A) :
  countLogged outcome
    (map (fun x => {| loggedPath := path x; loggedResult := given;
                      loggedReason := reason x |}) l)
  = if Outcome_eqb given outcome then length l else 0.
Proof.
  unfold countLogged. induction l as [|x l IH]; simpl.
  - now destruct (Outcome_eqb given outcome).
  - destruct (Outcome_eqb given outcome); simpl; now rewrite IH.
Qed.

Lemma countLogged_batchLogs (result : BatchDeletionResult.t) :
  countLogged Success (DeleteToolHandler.batchLogs result)
  = length (BatchDeletionResult.deleted result)
  /\ countLogged Failed (DeleteToolHandler.batchLogs result)
     = length (BatchDeletionResult.failed result)
  /\ countLogged Rejected (DeleteToolHandler.batchLogs result)
     = length (BatchDeletionResult.rejected result).
Proof.
  unfold DeleteToolHandler.batchLogs.
  rewrite !countLogged_app.
  rewrite !(countLogged_map _ _ (fun p : string => p) (fun _ => None)).
  rewrite !(countLogged_map _ _ (fun f : string * string => f.1) (fun f => Some f.2)).
  simpl. repeat split; lia.
Qed.

Section ToolFacts.

Variable minimatch : string -> string -> bool -> bool.
Variable path_relative : string -> string -> string.
Variable config : Configuration.

Local Abbreviation handling := (DeleteToolHandler.handle minimatch path_relative config).
Local Abbreviation batching := (deleteBatch minimatch path_relative config).

Lemma handle_batch (w : World) (paths : list string) :
  length paths <> 1 ->
  handling w paths
  = (joinWith JS.newline (DeleteToolHandler.summary (batching w paths).1)
       +:+ DeleteToolHandler.details (batching w paths).1,
     DeleteToolHandler.batchLogs (batching w paths).1,
     (batching w paths).2).
Proof.
  intros Hlen. unfold DeleteToolHandler.handle.
  destruct paths as [|p [|q rest]]; [|simpl in Hlen; lia|];
    now destruct (batching w _).
Qed.

(** The text of a batch begins with the four lines of the summary. *)
Lemma summary_counts (result : BatchDeletionResult.t) :
  exists rest,
    joinWith JS.newline (DeleteToolHandler.summary result)
      +:+ DeleteToolHandler.details result
    = joinWith JS.newline
        [ "Batch deletion completed:";
          "- Successfully deleted: "
            +:+ JS.showNumber (length (BatchDeletionResult.deleted result)) +:+ " files";
          "- Failed: "
            +:+ JS.showNumber (length (BatchDeletionResult.failed result)) +:+ " files";
          "- Rejected: "
            +:+ JS.showNumber (length (BatchDeletionResult.rejected result)) +:+ " files" ]
      +:+ rest.
Proof.
  unfold DeleteToolHandler.summary.
  rewrite joinWith_app by discriminate.
  rewrite string_app_assoc. now eexists.
Qed.

Lemma handle_batch_text (w : World) (paths : list string) :
  length paths <> 1 ->
  exists rest,
    (handling w paths).1.1
    = joinWith JS.newline
        [ "Batch deletion completed:";
          "- Successfully deleted: "
            +:+ JS.showNumber (countLogged Success (handling w paths).1.2) +:+ " files";
          "- Failed: "
            +:+ JS.showNumber (countLogged Failed (handling w paths).1.2) +:+ " files";
          "- Rejected: "
            +:+ JS.showNumber (countLogged Rejected (handling w paths).1.2) +:+ " files" ]
      +:+ rest.
Proof.
  intros Hlen. rewrite (handle_batch w paths Hlen). cbn [fst snd].
  destruct (countLogged_batchLogs (batching w paths).1) as (-> & -> & ->).
  apply summary_counts.
Qed.

(** The calls of a batch, in each of the three ways [deleteBatch] ends. *)
Lemma handle_batch_logs (w : World) (paths : list string) :
  length paths <> 1 ->
  let v := validateBatch minimatch path_relative config (patternCache w) paths in
  let verdict p := (validatePath minimatch path_relative config (patternCache w) p).1 in
  let w1 := withCache w v.2 in
  let prs := deletionResults minimatch path_relative config w1 paths in
  (maxBatchSize config < length paths
   /\ (handling w paths).1.2
      = map (fun p => {| loggedPath := p; loggedResult := Rejected;
                         loggedReason := Some (batchSizeReason config) |}) paths
   /\ (handling w paths).2 = w)
  \/ (length paths <= maxBatchSize config
      /\ BatchValidationResult.valid v.1 = false
      /\ (handling w paths).1.2
         = map (fun p => {| loggedPath := p; loggedResult := Rejected;
                            loggedReason := Some (reasonText (verdict p)) |})
               (List.filter (fun p => rejectedOtherwise (verdict p)) paths
                ++ List.filter (fun p => rejectedForProtection (verdict p)) paths)
      /\ (handling w paths).2 = w1)
  \/ (length paths <= maxBatchSize config
      /\ BatchValidationResult.valid v.1 = true
      /\ (handling w paths).1.2
         = map (fun pr => {| loggedPath := pr.1; loggedResult := Success;
                             loggedReason := None |})
               (List.filter (fun pr => DeletionResult.success pr.2) prs)
           ++ map (fun pr => {| loggedPath := pr.1; loggedResult := Failed;
                                loggedReason :=
                                  Some (firstDefined (DeletionResult.error pr.2)
                                                     (DeletionResult.reason pr.2)) |})
                  (List.filter (fun pr => negb (DeletionResult.success pr.2)) prs)
      /\ (handling w paths).2
         = (runDeletions minimatch path_relative config w1 paths).2).
Proof.
  intros Hlen v verdict w1 prs. subst v verdict w1 prs.
  rewrite (handle_batch w paths Hlen). cbn [fst snd].
  destruct (validateBatch_spec minimatch path_relative config (patternCache w) paths)
    as (_ & Hinv & Hprot & _). cbv zeta in Hinv, Hprot.
  destruct (deleteBatch_cases minimatch path_relative config w paths)
    as [(Hlt & ->)|[(Hle & Hf & ->)|(Hle & Hv & ->)]];
    unfold DeleteToolHandler.batchLogs;
    cbn [fst snd BatchDeletionResult.rejected BatchDeletionResult.deleted
         BatchDeletionResult.failed map app].
  - left. split; [exact Hlt|]. split; [|reflexivity]. now rewrite map_map.
  - right; left. split; [exact Hle|]. split; [exact Hf|]. split; [|reflexivity].
    rewrite Hinv, Hprot, <- map_app, map_map. reflexivity.
  - right; right. split; [exact Hle|]. split; [exact Hv|]. split; [|reflexivity].
    rewrite app_nil_r, !map_map. reflexivity.
Qed.

End ToolFacts.

Lemma refused_members (minimatch : string -> string -> bool -> bool)
    (path_relative : string -> string -> string) (config : Configuration)
    (c : gmap string bool) (paths : list string) :
  let verdict p := (validatePath minimatch path_relative config c p).1 in
  List.filter (fun p => rejectedOtherwise (verdict p)) paths
  ++ List.filter (fun p => rejectedForProtection (verdict p)) paths
  ≡ₚ List.filter (fun p => negb (ValidationResult.valid (verdict p))) paths.
Proof.
  intros verdict. induction paths as [|p paths IH]; simpl; [done|].
  subst verdict.
  destruct (verdict_classes minimatch path_relative config c p)
    as [(-> & -> & ->)|[(-> & -> & ->)|(-> & -> & ->)]]; simpl.
  - exact IH.
  - now rewrite IH.
  - rewrite <- Permutation_middle. now rewrite IH.
Qed.

(** X16.  The delete tool with no path or with several.  The world is the
    one [deleteBatch] leaves.  Every call awaited on the logging service is
    about a member of the batch; a call that reports [success] has no reason
    and is about a path that was a regular file and is gone.  A batch over
    the size limit logs every member as [rejected]; a batch with a refused
    member logs the refused members only, as [rejected], and the members that
    passed validation are not logged at all; otherwise every member is logged
    once.  The text begins with the summary, whose three numbers count the
    calls by outcome. *)
Theorem delete_tool_batch (minimatch : string -> string -> bool -> bool)
    (path_relative : string -> string -> string) (config : Configuration)
    (w : World) (paths : list string) :
  length paths <> 1 ->
  let out := DeleteToolHandler.handle minimatch path_relative config w paths in
  let verdict p := (validatePath minimatch path_relative config (patternCache w) p).1 in
  let allValid :=
    BatchValidationResult.valid
      (validateBatch minimatch path_relative config (patternCache w) paths).1 in
  out.2 = (deleteBatch minimatch path_relative config w paths).2
  /\ (forall call, In call out.1.2 -> In (loggedPath call) paths)
  /\ (forall call, In call out.1.2 -> loggedResult call = Success ->
        loggedReason call = None
        /\ disk w !! loggedPath call = Some RegularFile
        /\ disk out.2 !! loggedPath call = None)
  /\ (maxBatchSize config < length paths ->
        out.1.2 = map (fun p => {| loggedPath := p; loggedResult := Rejected;
                                   loggedReason := Some (batchSizeReason config) |})
                      paths)
  /\ (length paths <= maxBatchSize config -> allValid = false ->
        Forall (fun call => loggedResult call = Rejected) out.1.2
        /\ map loggedPath out.1.2
           ≡ₚ List.filter (fun p => negb (ValidationResult.valid (verdict p))) paths)
  /\ (length paths <= maxBatchSize config -> allValid = true ->
        Forall (fun call => loggedResult call <> Rejected) out.1.2
        /\ map loggedPath out.1.2 ≡ₚ paths)
  /\ exists rest,
       out.1.1
       = joinWith JS.newline
           [ "Batch deletion completed:";
             "- Successfully deleted: "
               +:+ JS.showNumber (countLogged Success out.1.2) +:+ " files";
             "- Failed: " +:+ JS.showNumber (countLogged Failed out.1.2) +:+ " files";
             "- Rejected: "
               +:+ JS.showNumber (countLogged Rejected out.1.2) +:+ " files" ]
         +:+ rest.
Proof.
  intros Hlen out verdict allValid. subst out allValid.
  pose proof (handle_batch_text minimatch path_relative config w paths Hlen) as Htext.
  pose proof (handle_batch minimatch path_relative config w paths Hlen) as Hout.
  pose proof (handle_batch_logs minimatch path_relative config w paths Hlen) as Hlogs.
  cbv zeta in Hlogs.
  set (w1 := withCache w (validateBatch minimatch path_relative config
                            (patternCache w) paths).2) in *.
  set (prs := deletionResults minimatch path_relative config w1 paths) in *.
  assert (Hrefused :
    map loggedPath
      (map (fun p => {| loggedPath := p; loggedResult := Rejected;
                        loggedReason := Some (reasonText (verdict p)) |})
         (List.filter (fun p => rejectedOtherwise (verdict p)) paths
          ++ List.filter (fun p => rejectedForProtection (verdict p)) paths))
    ≡ₚ List.filter (fun p => negb (ValidationResult.valid (verdict p))) paths).
  { rewrite map_map. cbn [loggedPath]. rewrite map_id. apply refused_members. }
  assert (Hpassed :
    map loggedPath
      (map (fun pr : string * DeletionResult.t =>
              {| loggedPath := pr.1; loggedResult := Success; loggedReason := None |})
         (List.filter (fun pr => DeletionResult.success pr.2) prs)
       ++ map (fun pr : string * DeletionResult.t =>
                 {| loggedPath := pr.1; loggedResult := Failed;
                    loggedReason :=
                      Some (firstDefined (DeletionResult.error pr.2)
                                         (DeletionResult.reason pr.2)) |})
            (List.filter (fun pr => negb (DeletionResult.success pr.2)) prs))
    ≡ₚ paths).
  { rewrite map_app, !map_map. cbn [loggedPath]. rewrite <- map_app.
    transitivity (map fst prs).
    - apply Permutation_map, filter_split_perm.
    - subst prs. now rewrite outcomes_paths. }
  split; [now rewrite Hout|].
  split; [|split; [|split; [|split; [|split; [|exact Htext]]]]].
  - intros call Hin.
    destruct Hlogs as [(_ & E & _)|[(_ & _ & E & _)|(_ & _ & E & _)]];
      rewrite E in Hin.
    + apply in_map_iff in Hin as [p [<- Hin]]. exact Hin.
    + assert (Hp : In (loggedPath call)
                (List.filter (fun p => negb (ValidationResult.valid (verdict p))) paths)).
      { apply list_elem_of_In. rewrite <- Hrefused. apply list_elem_of_In.
        now apply in_map. }
      now apply filter_In in Hp.
    + apply list_elem_of_In. rewrite <- Hpassed. apply list_elem_of_In.
      now apply in_map.
  - intros call Hin Hs.
    destruct Hlogs as [(_ & E & _)|[(_ & _ & E & _)|(_ & _ & E & Ew)]];
      rewrite E in Hin.
    + apply in_map_iff in Hin as [p [<- Hin]]. discriminate.
    + apply in_map_iff in Hin as [p [<- Hin]]. discriminate.
    + apply in_app_or in Hin as [Hin|Hin].
      * apply in_map_iff in Hin as [[p r] [<- Hin]]. cbn [loggedReason loggedPath fst].
        split; [reflexivity|].
        apply filter_In in Hin as [Hin Hr]. rewrite Ew.
        exact (outcomes_success minimatch path_relative config paths w1 p r Hin Hr).
      * apply in_map_iff in Hin as [f [<- Hin]]. discriminate.
  - intros Hlt.
    destruct Hlogs as [(_ & E & _)|[(Hle & _)|(Hle & _)]]; [exact E|lia|lia].
  - intros Hle Hf.
    destruct Hlogs as [(Hlt & _)|[(_ & _ & E & _)|(_ & Hv & _)]];
      [lia| |congruence].
    rewrite E. split; [|exact Hrefused].
    apply Forall_forall. intros call Hin.
    apply list_elem_of_In, in_map_iff in Hin as [r [<- Hin]]. reflexivity.
  - intros Hle Hv.
    destruct Hlogs as [(Hlt & _)|[(_ & Hf & _)|(_ & _ & E & _)]];
      [lia|congruence|].
    rewrite E. split; [|exact Hpassed].
    apply Forall_forall. intros call Hin.
    apply list_elem_of_In, in_app_or in Hin as [Hin|Hin];
      apply in_map_iff in Hin as [x [<- Hin]]; discriminate.
Qed.

Lemma delete_tool_batch_witness :
  map loggedPath
    (DeleteToolHandler.handle literalMinimatch relativeBelow demoConfig oneFileWorld
       ["/tmp/proj/a"; "/tmp/proj/b"]).1.2
  ≡ₚ ["/tmp/proj/a"; "/tmp/proj/b"].
Proof.
  assert (Hlen : length ["/tmp/proj/a"; "/tmp/proj/b"] <> 1) by (simpl; lia).
  assert (Hle : length ["/tmp/proj/a"; "/tmp/proj/b"] <= maxBatchSize demoConfig)
    by (simpl; lia).
  assert (Hv : BatchValidationResult.valid
                 (validateBatch literalMinimatch relativeBelow demoConfig
                    (patternCache oneFileWorld) ["/tmp/proj/a"; "/tmp/proj/b"]).1 = true)
    by (vm_compute; reflexivity).
  exact (proj2 (proj1 (proj2 (proj2 (proj2 (proj2 (proj2
           (delete_tool_batch literalMinimatch relativeBelow demoConfig oneFileWorld
              ["/tmp/proj/a"; "/tmp/proj/b"] Hlen)))))) Hle Hv)).
Defined.


(* ===================================================================== *)
(** ** Error classification, retries and batch summaries *)
(* ===================================================================== *)

(** X17.  [classifySystemError] always keeps the path and the error it was
    given, and gives one of three types, decided by what the message
    contains or the name equals, in this order: [ENOENT] gives
    [FILE_NOT_FOUND]; otherwise [EACCES] or [EPERM] gives
    [PERMISSION_DENIED]; otherwise [SYSTEM_ERROR].  The test reads the whole
    message, so a message that quotes a path with [ENOENT] in it is
    classified [FILE_NOT_FOUND] whatever the error was.  The user message of
    a classified error always names the path, never [Unknown path]. *)
Theorem classifySystemError_spec (error : JsError) (path : string) :
  let classified := classifySystemError error path in
  SafeDeletionError.path classified = Some path
  /\ SafeDeletionError.cause classified = Some error
  /\ (forall before after,
        errorMessage error = before +:+ "ENOENT" +:+ after ->
        SafeDeletionError.type classified = FILE_NOT_FOUND)
  /\ (SafeDeletionError.type classified = FILE_NOT_FOUND
      <-> mentions error "ENOENT" = true)
  /\ (SafeDeletionError.type classified = PERMISSION_DENIED
      <-> mentions error "ENOENT" = false
          /\ (mentions error "EACCES" = true \/ mentions error "EPERM" = true))
  /\ (SafeDeletionError.type classified = SYSTEM_ERROR
      <-> mentions error "ENOENT" = false /\ mentions error "EACCES" = false
          /\ mentions error "EPERM" = false)
  /\ generateUserMessage classified
     = match SafeDeletionError.type classified with
       | FILE_NOT_FOUND =>
           "File not found: " +:+ path +:+ " does not exist or cannot be located."
       | PERMISSION_DENIED =>
           "Access denied: " +:+ path
             +:+ " cannot be accessed due to insufficient permissions."
       | _ =>
           "System error: Operation failed"
             +:+ (if String.eqb path "" then "" else " on " +:+ path)
             +:+ ". System error during operation on " +:+ path +:+ ": "
             +:+ errorMessage error
       end.
Proof.
  intros classified. subst classified.
  assert (Hquoted : forall before after,
            errorMessage error = before +:+ "ENOENT" +:+ after ->
            mentions error "ENOENT" = true).
  { intros before after E. unfold mentions.
    assert (Hi : JS.includes (errorMessage error) "ENOENT" = true)
      by (apply includes_spec; now exists before, after).
    now rewrite Hi. }
  unfold classifySystemError.
  fold (mentions error "ENOENT"). fold (mentions error "EACCES").
  fold (mentions error "EPERM").
  destruct (mentions error "ENOENT");
    [|destruct (mentions error "EACCES"); [|destruct (mentions error "EPERM")]];
    unfold generateUserMessage, whenPath;
    cbn [SafeDeletionError.type SafeDeletionError.path SafeDeletionError.cause
         SafeDeletionError.message default from_option id].
  - repeat split; try congruence; try discriminate.
    + now intros [? _].
    + now intros [? _].
  - repeat split; try congruence; try discriminate.
    + intros before after E. now apply Hquoted in E.
    + now left.
    + now intros (_ & ? & _).
  - repeat split; try congruence; try discriminate.
    + intros before after E. now apply Hquoted in E.
    + now right.
    + now intros (_ & _ & ?).
  - repeat split; try congruence; try discriminate.
    + intros before after E. now apply Hquoted in E.
    + now intros [_ [?|?]].
    + now destruct (String.eqb path "").
Qed.

Section RetryFacts.

Context {T : Type}.
Variable operation : nat -> T + Thrown.
Variable path : string.
Variable options : RetryOptions.

Local Abbreviation looping := (retryLoop operation path options).

(** The test that ends the loop on a throw, in terms of [retryable]. *)
Lemma stops_eq (thrown : Thrown) (attempt : Z) :
  match codeOf thrown with
  | Some errorCode => negb (isTransientError errorCode)
  | None => false
  end || (maxRetries options <=? attempt)%Z
  = negb (retryable thrown) || (maxRetries options <=? attempt)%Z.
Proof. unfold retryable. now destruct (codeOf thrown). Qed.

(** The loop from its [k]-th turn on: it ends within the fuel, and what it
    has done by then. *)
Lemma retryLoop_from (fuel k : nat) (lastError : option JsError)
    (logs : list (JsError * string)) :
  (Z.of_nat k <= maxRetries options)%Z ->
  Z.to_nat (maxRetries options) - k < fuel ->
  length logs = k ->
  exists run,
    looping fuel (Z.of_nat k) lastError logs k = Some run
    /\ k + 1 <= calls run <= Z.to_nat (maxRetries options) + 1
    /\ length (retryLogs run) + 1 = calls run
    /\ (forall n, n < k -> retryLogs run !! n = logs !! n)
    /\ (forall n, k <= n -> n + 1 < calls run ->
          exists thrown,
            operation n = inr thrown /\ retryable thrown = true
            /\ retryLogs run !! n
               = Some (asError thrown,
                       retryContext path options (Z.of_nat n + 1)))
    /\ match operation (calls run - 1) with
       | inl value => returned run = succeeded value
       | inr thrown =>
           returned run = gaveUp (asError thrown) path
           /\ (retryable thrown = false
               \/ calls run = Z.to_nat (maxRetries options) + 1)
       end.
Proof.
  revert k lastError logs.
  induction fuel as [|fuel IH]; intros k lastError logs Hk Hfuel Hlen; [lia|].
  cbn [retryLoop].
  destruct (Z.leb_spec (Z.of_nat k) (maxRetries options)) as [_|]; [|lia].
  destruct (operation k) as [value|thrown] eqn:Hop.
  - eexists. split; [reflexivity|]. cbn [calls retryLogs returned].
    split; [lia|]. split; [lia|]. split; [reflexivity|].
    split; [intros n ? ?; lia|].
    replace (S k - 1) with k by lia. now rewrite Hop.
  - rewrite stops_eq.
    destruct (retryable thrown) eqn:Hr; cbn [negb orb].
    + destruct (Z.leb_spec (maxRetries options) (Z.of_nat k)) as [Hlast|Hmore].
      * eexists. split; [reflexivity|]. cbn [calls retryLogs returned exhausted].
        split; [lia|]. split; [lia|]. split; [reflexivity|].
        split; [intros n ? ?; lia|].
        replace (S k - 1) with k by lia. rewrite Hop.
        split; [reflexivity|]. right. lia.
      * replace (Z.of_nat k + 1)%Z with (Z.of_nat (S k)) by lia.
        destruct (IH (S k) (Some (asError thrown))
                    (logs ++ [(asError thrown, retryContext path options (Z.of_nat (S k)))]))
          as (run & Hrun & Hcalls & Hlogs & Hold & Hnew & Hend).
        { lia. } { lia. } { rewrite length_app. simpl. lia. }
        exists run. split; [exact Hrun|]. split; [lia|]. split; [exact Hlogs|].
        split; [|split; [|exact Hend]].
        -- intros n Hn. rewrite Hold by lia. apply lookup_app_l. lia.
        -- intros n Hkn Hn. destruct (decide (n = k)) as [->|Hne].
           ++ exists thrown. split; [exact Hop|]. split; [exact Hr|].
              rewrite Hold by lia. rewrite lookup_app_r by lia.
              rewrite Hlen, Nat.sub_diag. simpl.
              now replace (Z.of_nat k + 1)%Z with (Z.of_nat (S k)) by lia.
           ++ apply Hnew; lia.
    + eexists. split; [reflexivity|]. cbn [calls retryLogs returned exhausted].
      split; [lia|]. split; [lia|]. split; [reflexivity|].
      split; [intros n ? ?; lia|].
      replace (S k - 1) with k by lia. rewrite Hop.
      split; [reflexivity|]. now left.
Qed.

End RetryFacts.

(** X18.  [executeWithRetry] returns, given fuel for [maxRetries + 1] turns
    of its loop.  With a negative [maxRetries] the operation is never called
    and the result is the classified [Unknown error].  Otherwise the
    operation is called at least once and at most [maxRetries + 1] times;
    every call but the last threw something without a string code or with
    a transient one, and [logError] was awaited once for each of them, with
    the error thrown and the number of the retry that follows; the last
    call decides: its value is the result, or what it threw, classified, is
    the error, and then it was not retryable or the retries were used up. *)
Theorem executeWithRetry_spec {T : Type} (operation : nat -> T + Thrown)
    (path : string) (options : RetryOptions) (fuel : nat) :
  Z.to_nat (maxRetries options) < fuel ->
  exists run,
    executeWithRetry operation path options fuel = Some run
    /\ ((maxRetries options < 0)%Z
        /\ calls run = 0 /\ retryLogs run = []
        /\ returned run = gaveUp unknownError path
        \/ (0 <= maxRetries options)%Z
           /\ 1 <= calls run <= Z.to_nat (maxRetries options) + 1
           /\ length (retryLogs run) + 1 = calls run
           /\ (forall n, n + 1 < calls run ->
                 exists thrown,
                   operation n = inr thrown /\ retryable thrown = true
                   /\ retryLogs run !! n
                      = Some (asError thrown,
                              retryContext path options (Z.of_nat n + 1)))
           /\ match operation (calls run - 1) with
              | inl value => returned run = succeeded value
              | inr thrown =>
                  returned run = gaveUp (asError thrown) path
                  /\ (retryable thrown = false
                      \/ calls run = Z.to_nat (maxRetries options) + 1)
              end).
Proof.
  intros Hfuel. unfold executeWithRetry.
  destruct (Z.ltb_spec (maxRetries options) 0) as [Hneg|Hpos].
  - destruct fuel as [|fuel]; [lia|]. cbn [retryLoop].
    destruct (Z.leb_spec 0 (maxRetries options)) as [|_]; [lia|].
    eexists. split; [reflexivity|]. left. now repeat split.
  - destruct (retryLoop_from operation path options fuel 0 None [])
      as (run & Hrun & Hcalls & Hlogs & _ & Hnew & Hend); [simpl; lia|lia|reflexivity|].
    exists run. split; [exact Hrun|]. right.
    split; [exact Hpos|]. split; [lia|]. split; [exact Hlogs|].
    split; [|exact Hend]. intros n Hn. apply Hnew; lia.
Qed.

Lemma executeWithRetry_spec_witness :
  exists run,
    executeWithRetry busyTwice "/tmp/proj/a" {| maxRetries := 3; retryDelay := 10 |} 4
    = Some run.
Proof.
  assert (Hfuel : Z.to_nat (maxRetries {| maxRetries := 3; retryDelay := 10 |}) < 4)
    by (simpl; lia).
  destruct (executeWithRetry_spec busyTwice "/tmp/proj/a"
              {| maxRetries := 3; retryDelay := 10 |} 4 Hfuel) as (run & Hrun & _).
  exists run. exact Hrun.
Defined.


Local Arguments ErrorType_eqb !_ !_ /.

Lemma ErrorType_eqb_eq (a b : ErrorType) : ErrorType_eqb a b = true <-> a = b.
Proof. destruct a, b; simpl; split; congruence. Qed.

(** The loop of pushes of [handleBatchErrors], from any groups. *)
Lemma group_fold (errors : list SafeDeletionError.t)
    (groups : ErrorType -> list SafeDeletionError.t) (key : ErrorType) :
  foldl (fun (groups : ErrorType -> list SafeDeletionError.t) error =>
           fun key => if ErrorType_eqb key (SafeDeletionError.type error)
                      then groups key ++ [error]
                      else groups key)
        groups errors key
  = groups key
    ++ List.filter (fun error => ErrorType_eqb key (SafeDeletionError.type error)) errors.
Proof.
  revert groups. induction errors as [|e errors IH]; intros groups; simpl.
  - now rewrite app_nil_r.
  - rewrite IH. destruct (ErrorType_eqb key (SafeDeletionError.type e)); [|reflexivity].
    now rewrite <- app_assoc.
Qed.

Lemma group_sizes (errors : list SafeDeletionError.t) :
  length errors
  = length (List.filter (fun e => ErrorType_eqb VALIDATION_ERROR (SafeDeletionError.type e)) errors)
    + length (List.filter (fun e => ErrorType_eqb PERMISSION_DENIED (SafeDeletionError.type e)) errors)
    + length (List.filter (fun e => ErrorType_eqb FILE_NOT_FOUND (SafeDeletionError.type e)) errors)
    + length (List.filter (fun e => ErrorType_eqb PROTECTION_VIOLATION (SafeDeletionError.type e)) errors)
    + length (List.filter (fun e => ErrorType_eqb SYSTEM_ERROR (SafeDeletionError.type e)) errors).
Proof.
  induction errors as [|e errors IH]; [reflexivity|].
  cbn [List.filter length].
  destruct (SafeDeletionError.type e); simpl; lia.
Qed.

(** X19.  [handleBatchErrors] puts every error into the group of its type
    and into no other, in the order given; [failedOperations] is the number
    of errors, which is the sum of the sizes of the five groups;
    [successfulOperations] is always zero, and [partialSuccess] is true
    exactly when there is an error, also when nothing succeeded. *)
Theorem handleBatchErrors_groups (errors : list SafeDeletionError.t) :
  let summary := handleBatchErrors errors in
  let group := BatchErrorSummary.errorsByType summary in
  (forall key,
     group key
     = List.filter (fun error => ErrorType_eqb key (SafeDeletionError.type error)) errors)
  /\ (forall error key,
        In error (group key) <-> In error errors /\ SafeDeletionError.type error = key)
  /\ BatchErrorSummary.failedOperations summary
     = length (group VALIDATION_ERROR) + length (group PERMISSION_DENIED)
       + length (group FILE_NOT_FOUND) + length (group PROTECTION_VIOLATION)
       + length (group SYSTEM_ERROR)
  /\ BatchErrorSummary.successfulOperations summary = 0
  /\ (BatchErrorSummary.partialSuccess summary = true <-> errors <> []).
Proof.
  intros summary group.
  assert (Hgroup : forall key,
    group key
    = List.filter (fun error => ErrorType_eqb key (SafeDeletionError.type error)) errors).
  { intros key. subst group summary. unfold handleBatchErrors.
    cbn [BatchErrorSummary.errorsByType]. now rewrite group_fold. }
  split; [exact Hgroup|]. split; [|split; [|split]].
  - intros error key. rewrite Hgroup. split.
    + intros Hin. apply filter_In in Hin as [Hin Hk].
      apply ErrorType_eqb_eq in Hk. now split.
    + intros [Hin Hk]. apply filter_In. split; [exact Hin|].
      now apply ErrorType_eqb_eq.
  - rewrite !Hgroup. subst summary. cbn [handleBatchErrors BatchErrorSummary.failedOperations].
    apply group_sizes.
  - reflexivity.
  - subst summary. cbn [handleBatchErrors BatchErrorSummary.partialSuccess].
    destruct errors as [|e errors]; simpl; split.
    + discriminate.
    + intros H. now contradiction H.
    + intros _. discriminate.
    + reflexivity.
Qed.

Section ConfigFacts.

Variable path_resolve : string -> string.

Lemma normalizeDirectories_absolute (directories : list string) :
  Forall (fun dir => NodePath.isAbsolute dir = true) directories ->
  normalizeDirectories path_resolve directories = directories.
Proof.
  induction 1 as [|dir directories Hd _ IH]; [reflexivity|].
  simpl. now rewrite Hd, IH.
Qed.

Lemma find_first {A : Type} (f : A -> bool) (l : list A) :
  match List.find f l with
  | Some x =>
      exists before after,
        l = before ++ x :: after /\ f x = true
        /\ Forall (fun y => f y = false) before
  | None => Forall (fun y => f y = false) l
  end.
Proof.
  induction l as [|y l IH]; simpl; [constructor|].
  destruct (f y) eqn:Hy.
  - exists [], l. now repeat split.
  - destruct (List.find f l) as [x|].
    + destruct IH as (before & after & -> & Hx & Hb).
      exists (y :: before), after. repeat split; [exact Hx|]. now constructor.
    + now constructor.
Qed.

End ConfigFacts.

(** X20.  [loadConfig], once the configuration file is read.  The allowed
    directories are those of the command line when it names any, else those
    of the file, never both.  When it returns, the configuration is the
    merged one, it has as many allowed directories as were chosen and at
    least one, each of them is on the disk, and [validateAllowedDirectories]
    on the same disk returns all of them; if [path.resolve] gives absolute
    paths, they are the resolved choices and all absolute.  When it throws,
    no directory was chosen, or the message names the first allowed
    directory that is not on the disk. *)
Theorem loadConfig_outcome (path_resolve : string -> string)
    (args : CLIArguments.t) (file : FileConfig.t) (disk : Disk) :
  let chosen :=
    nonEmptyOr (CLIArguments.allowedDirectories args)
               (default [] (FileConfig.allowedDirectories file)) in
  let merged := mergeConfigurations path_resolve args file DEFAULT_CONFIG in
  match loadConfig path_resolve args (inl file) disk with
  | inl config =>
      config = merged
      /\ chosen <> []
      /\ length (allowedDirectories config) = length chosen
      /\ Forall (fun dir => existsSync disk dir = true) (allowedDirectories config)
      /\ validateAllowedDirectories config disk = allowedDirectories config
      /\ ((forall dir, NodePath.isAbsolute (path_resolve dir) = true) ->
          allowedDirectories config = map path_resolve chosen
          /\ Forall (fun dir => NodePath.isAbsolute dir = true)
                    (allowedDirectories config))
  | inr message =>
      (chosen = [] /\ message = "At least one allowed directory must be specified")
      \/ exists dir before after,
           allowedDirectories merged = before ++ dir :: after
           /\ Forall (fun earlier => existsSync disk earlier = true) before
           /\ existsSync disk dir = false
           /\ message = "Allowed directory does not exist: " +:+ dir
  end.
Proof.
  intros chosen merged. unfold loadConfig. fold merged.
  assert (Hlen : length (allowedDirectories merged) = length chosen).
  { subst merged chosen. unfold mergeConfigurations, normalizeDirectories.
    cbn [allowedDirectories]. now rewrite !length_map. }
  destruct (Nat.eqb_spec (length (allowedDirectories merged)) 0) as [Hz|Hnz].
  - left. split; [|reflexivity]. apply nil_length_inv. lia.
  - pose proof (find_first (fun dir => negb (existsSync disk dir))
                  (allowedDirectories merged)) as Hfind.
    destruct (List.find (fun dir => negb (existsSync disk dir)) (allowedDirectories merged))
      as [dir|].
    + right. destruct Hfind as (before & after & E & Hd & Hb).
      exists dir, before, after. split; [exact E|]. split; [|split; [|reflexivity]].
      * eapply Forall_impl; [exact Hb|]. intros y Hy. simpl in Hy.
        now apply negb_false_iff in Hy.
      * now apply negb_true_iff in Hd.
    + assert (Hall : Forall (fun dir => existsSync disk dir = true)
                            (allowedDirectories merged)).
      { eapply Forall_impl; [exact Hfind|]. intros y Hy. simpl in Hy.
        now apply negb_false_iff in Hy. }
      split; [reflexivity|]. split; [|split; [exact Hlen|split; [exact Hall|split]]].
      * intros E. apply Hnz. rewrite Hlen, E. reflexivity.
      * unfold validateAllowedDirectories.
        rewrite validateAllowedDirectories_fold. cbn [app].
        revert Hall. generalize (allowedDirectories merged) as dirs.
        intros dirs Hall. induction Hall as [|d l Hd _ IH]; [reflexivity|].
        simpl. now rewrite Hd, IH.
      * intros Habs.
        assert (Hres : Forall (fun dir => NodePath.isAbsolute dir = true)
                              (map path_resolve chosen)).
        { apply Forall_forall. intros d Hd.
          apply list_elem_of_In, in_map_iff in Hd as [x [<- _]]. apply Habs. }
        assert (E : allowedDirectories merged = map path_resolve chosen).
        { subst merged. unfold mergeConfigurations. cbn [allowedDirectories].
          now apply normalizeDirectories_absolute. }
        split; [exact E|]. now rewrite E.
Qed.

(** X21.  The protected patterns are replaced, not merged: patterns on the
    command line hide those of the file and the defaults, and without them
    any list in the file, an empty one too, hides the defaults [.git],
    [node_modules] and [.env*].  With an empty list in the file nothing
    within the allowed directories is protected: [isProtected] with a fresh
    cache answers false there, and [validatePath] accepts every absolute
    path within the allowed directories. *)
Theorem protected_patterns_precedence (path_resolve : string -> string)
    (minimatch : string -> string -> bool -> bool)
    (path_relative : string -> string -> string)
    (args : CLIArguments.t) (file : FileConfig.t) :
  let merged := mergeConfigurations path_resolve args file DEFAULT_CONFIG in
  let fromCommandLine := nonEmptyOr (CLIArguments.protectedPatterns args) [] in
  (fromCommandLine <> [] -> protectedPatterns merged = fromCommandLine)
  /\ (fromCommandLine = [] ->
      protectedPatterns merged
      = default [".git"; "node_modules"; ".env*"] (FileConfig.protectedPatterns file))
  /\ (fromCommandLine = [] -> FileConfig.protectedPatterns file = Some [] ->
      forall p, isWithinAllowedDirectories merged p = true ->
        (isProtected minimatch path_relative merged ∅ p).1 = false
        /\ (NodePath.isAbsolute p = true ->
            ValidationResult.valid
              (validatePath minimatch path_relative merged ∅ p).1 = true)).
Proof.
  intros merged fromCommandLine.
  assert (Hcli : fromCommandLine <> [] -> protectedPatterns merged = fromCommandLine).
  { subst merged fromCommandLine. unfold mergeConfigurations. cbn [protectedPatterns].
    destruct (CLIArguments.protectedPatterns args) as [[|x rest]|]; simpl; congruence. }
  assert (Hfile : fromCommandLine = [] ->
            protectedPatterns merged
            = default [".git"; "node_modules"; ".env*"]
                      (FileConfig.protectedPatterns file)).
  { subst merged fromCommandLine. unfold mergeConfigurations. cbn [protectedPatterns].
    destruct (CLIArguments.protectedPatterns args) as [[|x rest]|]; simpl;
      try discriminate; reflexivity. }
  split; [exact Hcli|]. split; [exact Hfile|].
  intros Hnone Hempty p Hin.
  assert (Hp : (isProtected minimatch path_relative merged ∅ p).1 = false).
  { rewrite isProtected_fresh, Hin. unfold evaluatePatterns.
    now rewrite (Hfile Hnone), Hempty. }
  split; [exact Hp|]. intros Habs.
  rewrite validatePath_eq, Habs. cbn [negb].
  destruct (getMatchingAllowedDirectory merged p) as [d|] eqn:Em.
  - cbn [fst]. now rewrite Hp.
  - apply getMatching_None in Em. congruence.
Qed.

(* ===================================================================== *)
(** ** The tool, the retries and the loader, evaluated *)
(* ===================================================================== *)

Example tool_single_protected :
  (DeleteToolHandler.handle literalMinimatch relativeBelow demoConfig oneFileWorld
     ["/tmp/proj/.git"]).1
  = ("Failed to delete /tmp/proj/.git: Path matches protected pattern",
     [ {| loggedPath := "/tmp/proj/.git"; loggedResult := Rejected;
          loggedReason := Some "Path matches protected pattern" |} ]).
Proof. vm_compute. reflexivity. Qed.

Example tool_batch_with_outsider :
  (DeleteToolHandler.handle literalMinimatch relativeBelow demoConfig oneFileWorld
     ["/tmp/proj/a"; "/etc/passwd"]).1.2
  = [ {| loggedPath := "/etc/passwd"; loggedResult := Rejected;
         loggedReason := Some "Path is outside allowed directories" |} ].
Proof. vm_compute. reflexivity. Qed.

Example tool_without_paths :
  (DeleteToolHandler.handle literalMinimatch relativeBelow demoConfig oneFileWorld []).1
  = (joinWith JS.newline
       [ "Batch deletion completed:"; "- Successfully deleted: 0 files";
         "- Failed: 0 files"; "- Rejected: 0 files" ],
     []).
Proof. vm_compute. reflexivity. Qed.

Example retry_after_two_busy :
  option_map (fun run => (RetryResult.result (returned run), calls run,
                          map snd (retryLogs run)))
    (executeWithRetry busyTwice "/tmp/proj/a" {| maxRetries := 3; retryDelay := 10 |} 4)
  = Some (Some 7, 3,
          [ "Retry attempt 1/3 for /tmp/proj/a"; "Retry attempt 2/3 for /tmp/proj/a" ]).
Proof. vm_compute. reflexivity. Qed.

Example retry_gives_up :
  option_map (fun run => (RetryResult.success (returned run), calls run))
    (executeWithRetry busyTwice "/tmp/proj/a" {| maxRetries := 1; retryDelay := 10 |} 2)
  = Some (false, 2).
Proof. vm_compute. reflexivity. Qed.

Example quoted_path_decides :
  generateUserMessage
    (classifySystemError
       {| errorName := "Error";
          errorMessage := "EACCES: permission denied, unlink '/data/ENOENT.txt'";
          errorStack := None;
          errorCode := Some "EACCES" |}
       "/data/ENOENT.txt")
  = "File not found: /data/ENOENT.txt does not exist or cannot be located.".
Proof. vm_compute. reflexivity. Qed.

Example command_line_directories_win :
  loadConfig resolveFromHome
    {| CLIArguments.allowedDirectories := Some ["proj"];
       CLIArguments.protectedPatterns := None;
       CLIArguments.configFile := None;
       CLIArguments.logLevel := None |}
    (inl {| FileConfig.allowedDirectories := Some ["/x"];
            FileConfig.protectedPatterns := Some [];
            FileConfig.logLevel := None;
            FileConfig.maxBatchSize := None;
            FileConfig.maxLogFileSize := None;
            FileConfig.maxLogFiles := None |})
    (plainDisk {[ "/home/u/proj" := Directory ]})
  = inl {| allowedDirectories := ["/home/u/proj"];
           protectedPatterns := [];
           logLevel := LevelInfo;
           maxBatchSize := 100;
           maxLogFileSize := Some 10485760%N;
           maxLogFiles := Some 10 |}.
Proof. vm_compute. reflexivity. Qed.

(** ** Audit logger: calls in flight together *)

Section OverlapFacts.

Variable JSON_stringify : AuditLog.t -> string.
Variable config : Configuration.
Variable env : Env.

(** A call that finds a current file and room for its line stops at the
    append and leaves the state as it is. *)
Lemma begin_fits (st : LoggingService * option (list LogFile)) (logEntry : AuditLog.t) :
  currentLogFile st.1 <> "" ->
  shouldRotateLog config st.1 (sizeOf JSON_stringify logEntry) = false ->
  begin JSON_stringify config env st logEntry = (st, AwaitAppend (currentLogFile st.1)).
Proof.
  intros Hn Hfit. apply String.eqb_neq in Hn. unfold begin, proceed. rewrite Hn.
  unfold sizeOf, lineOf in Hfit. now rewrite Hfit.
Qed.

Lemma beginAll_fit (st : LoggingService * option (list LogFile))
    (logEntries : list AuditLog.t) :
  currentLogFile st.1 <> "" ->
  (forall logEntry, In logEntry logEntries ->
                    shouldRotateLog config st.1 (sizeOf JSON_stringify logEntry) = false) ->
  beginAll JSON_stringify config env st logEntries
  = (st, map (fun logEntry => (logEntry, AwaitAppend (currentLogFile st.1))) logEntries).
Proof.
  intros Hn. induction logEntries as [|logEntry later IH]; intros Hfit; [reflexivity|].
  cbn [beginAll map]. rewrite begin_fits by (try assumption; apply Hfit; now left).
  cbn [fst snd]. rewrite IH by (intros e He; apply Hfit; now right). reflexivity.
Qed.

(** One append completes on a file that is there. *)
Lemma completeAppends_cons (logEntry : AuditLog.t) (later : list AuditLog.t)
    (svc : LoggingService) (files : list LogFile) (name : string) (f : LogFile) :
  String.eqb name "" = false ->
  findFile files name = Some f ->
  completeAppends JSON_stringify config env name (svc, Some files) (logEntry :: later)
  = completeAppends JSON_stringify config env name
      ({| inMemoryLogs := inMemoryLogs svc;
          currentLogFile := currentLogFile svc;
          currentLogFileSize :=
            (currentLogFileSize svc + sizeOf JSON_stringify logEntry)%N |},
       Some (map (fun g => if String.eqb (fileName g) name
                           then {| fileName := fileName g; mtime := now env;
                                   content := content g +:+ lineOf JSON_stringify logEntry;
                                   unlinkable := unlinkable g |}
                           else g) files))
      later.
Proof.
  intros Hn Hf. unfold completeAppends. cbn [foldl resume]. unfold appendFile.
  cbn [fst snd]. now rewrite Hn, Hf.
Qed.

(** The appends of such calls, completing in turn on a file that is there. *)
Lemma completeAppends_grow (logEntries : list AuditLog.t) (svc : LoggingService)
    (files : list LogFile) (name : string) (f : LogFile) :
  name <> "" ->
  findFile files name = Some f ->
  let done := completeAppends JSON_stringify config env name (svc, Some files) logEntries in
  currentLogFile done.1 = currentLogFile svc
  /\ inMemoryLogs done.1 = inMemoryLogs svc
  /\ currentLogFileSize done.1
     = (currentLogFileSize svc + sizesOf JSON_stringify logEntries)%N
  /\ countLogFiles done.2 = countLogFiles (Some files)
  /\ map fileName (default [] done.2) = map fileName files
  /\ exists f',
       findFile (default [] done.2) name = Some f'
       /\ content f' = content f +:+ linesOf JSON_stringify logEntries.
Proof.
  intros Hn. apply String.eqb_neq in Hn. cbv zeta.
  revert svc files f. induction logEntries as [|logEntry later IH]; intros svc files f Hf.
  - cbn. rewrite N.add_0_r, string_app_nil_r. repeat split. now exists f.
  - rewrite (completeAppends_cons logEntry later svc files name f Hn Hf).
    pose proof (findFile_appended files name (lineOf JSON_stringify logEntry) (now env) f Hf)
      as Hf'.
    destruct (IH {| inMemoryLogs := inMemoryLogs svc;
                    currentLogFile := currentLogFile svc;
                    currentLogFileSize :=
                      (currentLogFileSize svc + sizeOf JSON_stringify logEntry)%N |}
                 _ _ Hf') as (H1 & H2 & H3 & H4 & H5 & f' & H6 & H7).
    split; [exact H1|]. split; [exact H2|]. split; [|split; [|split]].
    + rewrite H3.
      change (sizesOf JSON_stringify (logEntry :: later))
        with (sizeOf JSON_stringify logEntry + sizesOf JSON_stringify later)%N.
      cbn [currentLogFileSize]. lia.
    + rewrite H4. apply countLogFiles_appended.
    + rewrite H5, map_map. apply map_ext. intros g.
      now destruct (String.eqb (fileName g) name).
    + exists f'. split; [exact H6|]. rewrite H7.
      change (linesOf JSON_stringify (logEntry :: later))
        with (lineOf JSON_stringify logEntry +:+ linesOf JSON_stringify later).
      cbn [content]. now rewrite string_app_assoc.
Qed.

End OverlapFacts.

(** X22.  Calls of [writeToFile] in flight together.  A call that finds a
    current file and, by the counter, room for its line stops at its append
    and changes nothing; the counter moves only when an append completes.
    So calls made before any of their appends completes all read the same
    counter: none rotates, every line goes to the one current file, and when
    the appends have completed the file has grown by all the lines and the
    counter by all their sizes, whatever the configured maximum.  No file is
    created or removed. *)
Theorem overlapping_writes_share_counter (JSON_stringify : AuditLog.t -> string)
    (config : Configuration) (env env' : Env) (svc : LoggingService)
    (files : list LogFile) (f : LogFile) (logEntries : list AuditLog.t) :
  currentLogFile svc <> "" ->
  findFile files (currentLogFile svc) = Some f ->
  (forall logEntry, In logEntry logEntries ->
                    shouldRotateLog config svc (sizeOf JSON_stringify logEntry) = false) ->
  let started := beginAll JSON_stringify config env (svc, Some files) logEntries in
  let done :=
    completeAppends JSON_stringify config env' (currentLogFile svc) started.1 logEntries in
  started = ((svc, Some files),
             map (fun logEntry => (logEntry, AwaitAppend (currentLogFile svc))) logEntries)
  /\ currentLogFile done.1 = currentLogFile svc
  /\ currentLogFileSize done.1
     = (currentLogFileSize svc + sizesOf JSON_stringify logEntries)%N
  /\ map fileName (default [] done.2) = map fileName files
  /\ exists f',
       findFile (default [] done.2) (currentLogFile svc) = Some f'
       /\ content f' = content f +:+ linesOf JSON_stringify logEntries.
Proof.
  intros Hn Hf Hfit started done.
  assert (Es : started
               = ((svc, Some files),
                  map (fun logEntry => (logEntry, AwaitAppend (currentLogFile svc)))
                      logEntries)).
  { subst started. now apply (beginAll_fit JSON_stringify config env (svc, Some files)). }
  split; [exact Es|]. subst done. rewrite Es. cbn [fst].
  destruct (completeAppends_grow JSON_stringify config env' logEntries svc files
              (currentLogFile svc) f Hn Hf) as (H1 & _ & H3 & _ & H5 & H6).
  now repeat split.
Qed.

Lemma overlapping_writes_share_counter_witness :
  currentLogFileSize
    (completeAppends runStringify (scenarioConfig LevelInfo 50 (Some 2048%N) (Some 1))
       (runEnv 9 "T9") (currentLogFile fullService)
       (beginAll runStringify (scenarioConfig LevelInfo 50 (Some 2048%N) (Some 1))
          (runEnv 8 "T8") (fullService, Some fullDirectory)
          [runEntry "r-08"; runEntry "r-09"]).1
       [runEntry "r-08"; runEntry "r-09"]).1
  = (currentLogFileSize fullService
     + sizesOf runStringify [runEntry "r-08"; runEntry "r-09"])%N.
Proof.
  assert (Hn : currentLogFile fullService <> "") by discriminate.
  assert (Hf : findFile fullDirectory (currentLogFile fullService)
               = Some {| fileName := "safe-deletion-T2-rot000.log"; mtime := 2;
                         content := filler 1000; unlinkable := true |})
    by (vm_compute; reflexivity).
  assert (Hfit : forall logEntry, In logEntry [runEntry "r-08"; runEntry "r-09"] ->
                   shouldRotateLog (scenarioConfig LevelInfo 50 (Some 2048%N) (Some 1))
                     fullService (sizeOf runStringify logEntry) = false).
  { intros logEntry [<-|[<-|[]]]; vm_compute; reflexivity. }
  exact (proj1 (proj2 (proj2
           (overlapping_writes_share_counter runStringify
              (scenarioConfig LevelInfo 50 (Some 2048%N) (Some 1))
              (runEnv 8 "T8") (runEnv 9 "T9") fullService fullDirectory _
              [runEntry "r-08"; runEntry "r-09"] Hn Hf Hfit)))).
Defined.

(* ===================================================================== *)
(** ** The file system and the overlapping writes, evaluated *)
(* ===================================================================== *)

Example normalize_takes_back :
  normalizeAbsolute "/tmp/proj/../x" = "/tmp/x"
  /\ normalizeAbsolute "/tmp//proj/./a/" = "/tmp/proj/a".
Proof. split; vm_compute; reflexivity. Qed.

(** The checks of [validatePath] read the text of the path: a path that is,
    as written, below the allowed directory and leads out of it passes, and
    [deleteFile] removes the file it leads to. *)
Example deleteFile_follows_resolution :
  let w := {| patternCache := ∅;
              disk := posixDisk {[ "/tmp/x" := RegularFile;
                                   "/tmp/proj/a" := RegularFile ]};
              loggerCalls := [] |} in
  let out := deleteFile literalMinimatch relativeBelow demoConfig w "/tmp/proj/../x" in
  DeletionResult.success out.1 = true
  /\ entries (disk out.2) = {[ "/tmp/proj/a" := RegularFile ]}
  /\ isWithinAllowedDirectories demoConfig "/tmp/proj/../x" = true
  /\ isWithinAllowedDirectories demoConfig "/tmp/x" = false.
Proof. repeat split; vm_compute; reflexivity. Qed.

Example refused_file_is_failed :
  let guarded :=
    guardedDisk {[ "/tmp/proj/a" := RegularFile ]} "/tmp/proj/a"
                "EACCES: permission denied, unlink '/tmp/proj/a'" in
  let out :=
    DeleteToolHandler.handle literalMinimatch relativeBelow demoConfig
      {| patternCache := ∅; disk := guarded; loggerCalls := [] |} ["/tmp/proj/a"] in
  out.1
  = ("Failed to delete /tmp/proj/a: EACCES: permission denied, unlink '/tmp/proj/a'",
     [ {| loggedPath := "/tmp/proj/a"; loggedResult := Failed;
          loggedReason := Some "EACCES: permission denied, unlink '/tmp/proj/a'" |} ])
  /\ entries (disk out.2) = {[ "/tmp/proj/a" := RegularFile ]}.
Proof. split; vm_compute; reflexivity. Qed.

(** Three calls in flight together, on one file of 1806 bytes in the end;
    run one after the other, the same three writes rotate twice. *)
Example three_writes_in_flight :
  map (fun f => String.length (content f)) (default [] overlappedWrites.1.2) = [1806]
  /\ map (fun f => String.length (content f))
         (default []
            (appendAll runStringify runConfig
               (newLoggingService runConfig (runEnv 1 "T1") (Some []))
               [(runEnv 3 "T3", runEntry "r-01"); (runEnv 4 "T4", runEntry "r-02");
                (runEnv 5 "T5", runEntry "r-03")]).2)
     = [602; 602].
Proof. split; vm_compute; reflexivity. Qed.
